(** * SpatialFeatureDetector: a shallow embedding and its specification

    The detector of [SpatialFeatureDetector.ts] indexes OpenLayers features in
    an RBush tree and answers "which features lie within [tolerance] of this
    coordinate".  The TypeScript is embedded function by function:

    - JavaScript numbers are an interface [Number] with two instances:
      [Float64] (IEEE 754 binary64, the numbers the program runs on; every
      definition evaluates on it) and [Exact] (real numbers extended with the
      two infinities and NaN: the same arithmetic without rounding), on which
      the geometric laws are stated;
    - the OpenLayers geometry classes are a tagged variant [Geometry]; object
      identity of a feature is its [fid];
    - the RBush tree is the list of the items it holds, and its [search] is
      any enumeration of the items whose box meets the query box;
    - [setTimeout]/[clearTimeout] are a queue of pending tasks under a virtual
      clock. *)

From Stdlib Require Import String.
From Stdlib Require Import List Bool Arith Lia Permutation Sorted.
From Stdlib Require Import Reals Lra Psatz.
From Stdlib Require Import Floats.
Import ListNotations.

Set Implicit Arguments.

(** ** JavaScript numbers *)

Declare Scope num_scope.
Delimit Scope num_scope with num.

(** The operations of the source on [number]: arithmetic, [Math.sqrt],
    [Math.max], [Math.min], the comparisons and the literals it writes. *)
Class Number (num : Type) : Type := {
  n_zero : num;                      (* 0 *)
  n_one : num;                       (* 1 *)
  n_tenth : num;                     (* 0.1 *)
  n_floor : num;                     (* 0.0001 *)
  n_infinity : num;                  (* Infinity *)
  n_opp : num -> num;                (* -x *)
  n_add : num -> num -> num;
  n_sub : num -> num -> num;
  n_mul : num -> num -> num;
  n_div : num -> num -> num;
  n_sqrt : num -> num;               (* Math.sqrt *)
  n_max : num -> num -> num;         (* Math.max, two arguments *)
  n_min : num -> num -> num;         (* Math.min, two arguments *)
  n_leb : num -> num -> bool;        (* <= *)
  n_ltb : num -> num -> bool;        (* < *)
  n_eqb : num -> num -> bool         (* === on numbers *)
}.

Notation "x + y" := (n_add x y) : num_scope.
Notation "x - y" := (n_sub x y) : num_scope.
Notation "x * y" := (n_mul x y) : num_scope.
Notation "x / y" := (n_div x y) : num_scope.
Notation "x <=? y" := (n_leb x y) (at level 70, no associativity) : num_scope.
Notation "x >=? y" := (n_leb y x) (at level 70, no associativity) : num_scope.
Notation "x <? y" := (n_ltb x y) (at level 70, no associativity) : num_scope.
Notation "x >? y" := (n_ltb y x) (at level 70, no associativity) : num_scope.
Notation "x === y" := (n_eqb x y) (at level 70, no associativity) : num_scope.

(** A number in a boolean position ([options.hitTolerance || 0]): [0], [-0]
    and [NaN] are falsy. *)
Definition n_truthy {num} `{Number num} (x : num) : bool :=
  (x === x)%num && negb (x === n_zero)%num.

(** *** IEEE 754 binary64 *)

Module Float64.

(** [Math.max(a, b)]: NaN if either is NaN, and [+0] is larger than [-0]. *)
Definition js_max (a b : float) : float :=
  if (PrimFloat.is_nan a || PrimFloat.is_nan b)%bool then PrimFloat.nan
  else if (a <? b)%float then b
  else if (b <? a)%float then a
  else if PrimFloat.get_sign a then b else a.

(** [Math.min(a, b)]: NaN if either is NaN, and [-0] is smaller than [+0]. *)
Definition js_min (a b : float) : float :=
  if (PrimFloat.is_nan a || PrimFloat.is_nan b)%bool then PrimFloat.nan
  else if (a <? b)%float then a
  else if (b <? a)%float then b
  else if PrimFloat.get_sign a then a else b.

#[export] Instance number : Number float := {|
  n_zero := PrimFloat.zero;
  n_one := PrimFloat.one;
  n_tenth := 0x1.999999999999ap-4%float;
  n_floor := 0x1.a36e2eb1c432dp-14%float;
  n_infinity := PrimFloat.infinity;
  n_opp := PrimFloat.opp;
  n_add := PrimFloat.add;
  n_sub := PrimFloat.sub;
  n_mul := PrimFloat.mul;
  n_div := PrimFloat.div;
  n_sqrt := PrimFloat.sqrt;
  n_max := js_max;
  n_min := js_min;
  n_leb := PrimFloat.leb;
  n_ltb := PrimFloat.ltb;
  n_eqb := PrimFloat.eqb
|}.

End Float64.

(** *** Exact numbers: the reals with [Infinity], [-Infinity] and [NaN] *)

Module Exact.

Inductive xreal : Type :=
| Finite (r : R)
| PInf
| NInf
| NaN.

Definition Rleb (a b : R) : bool := if Rle_dec a b then true else false.
Definition Rltb (a b : R) : bool := if Rlt_dec a b then true else false.
Definition Reqb (a b : R) : bool := if Req_dec_T a b then true else false.

Definition opp (a : xreal) : xreal :=
  match a with
  | Finite r => Finite (- r)
  | PInf => NInf
  | NInf => PInf
  | NaN => NaN
  end.

Definition add (a b : xreal) : xreal :=
  match a, b with
  | NaN, _ | _, NaN => NaN
  | Finite x, Finite y => Finite (x + y)
  | PInf, NInf | NInf, PInf => NaN
  | PInf, _ | _, PInf => PInf
  | NInf, _ | _, NInf => NInf
  end.

Definition sub (a b : xreal) : xreal := add a (opp b).

(** The infinity of sign [sign r]; [Infinity * 0] is NaN. *)
Definition signed_inf (r : R) : xreal :=
  if Rltb 0 r then PInf else if Rltb r 0 then NInf else NaN.

Definition mul (a b : xreal) : xreal :=
  match a, b with
  | NaN, _ | _, NaN => NaN
  | Finite x, Finite y => Finite (x * y)
  | Finite x, PInf | PInf, Finite x => signed_inf x
  | Finite x, NInf | NInf, Finite x => signed_inf (- x)
  | PInf, PInf | NInf, NInf => PInf
  | PInf, NInf | NInf, PInf => NaN
  end.

(** Division; the exact zero carries no sign, so [x / 0] takes the sign
    of [x]. *)
Definition div (a b : xreal) : xreal :=
  match a, b with
  | NaN, _ | _, NaN => NaN
  | Finite x, Finite y => if Reqb y 0 then signed_inf x else Finite (x / y)
  | Finite _, PInf | Finite _, NInf => Finite 0
  | PInf, Finite y => if Rltb y 0 then NInf else PInf
  | NInf, Finite y => if Rltb y 0 then PInf else NInf
  | PInf, PInf | PInf, NInf | NInf, PInf | NInf, NInf => NaN
  end.

Definition sqrt (a : xreal) : xreal :=
  match a with
  | Finite x => if Rltb x 0 then NaN else Finite (R_sqrt.sqrt x)
  | PInf => PInf
  | NInf | NaN => NaN
  end.

Definition leb (a b : xreal) : bool :=
  match a, b with
  | NaN, _ | _, NaN => false
  | Finite x, Finite y => Rleb x y
  | NInf, _ | _, PInf => true
  | _, _ => false
  end.

Definition ltb (a b : xreal) : bool :=
  match a, b with
  | NaN, _ | _, NaN => false
  | Finite x, Finite y => Rltb x y
  | PInf, _ | _, NInf => false
  | _, _ => true
  end.

Definition eqb (a b : xreal) : bool :=
  match a, b with
  | Finite x, Finite y => Reqb x y
  | PInf, PInf | NInf, NInf => true
  | _, _ => false
  end.

Definition max (a b : xreal) : xreal :=
  match a, b with
  | NaN, _ | _, NaN => NaN
  | _, _ => if ltb a b then b else a
  end.

Definition min (a b : xreal) : xreal :=
  match a, b with
  | NaN, _ | _, NaN => NaN
  | _, _ => if ltb b a then b else a
  end.

#[export] Instance number : Number xreal := {|
  n_zero := Finite 0;
  n_one := Finite 1;
  n_tenth := Finite (1 / 10);
  n_floor := Finite (1 / 10000);
  n_infinity := PInf;
  n_opp := opp;
  n_add := add;
  n_sub := sub;
  n_mul := mul;
  n_div := div;
  n_sqrt := sqrt;
  n_max := max;
  n_min := min;
  n_leb := leb;
  n_ltb := ltb;
  n_eqb := eqb
|}.

End Exact.

(** ** Data model *)

(** The state a call leaves behind: a method either returns or throws, and
    in both cases the fields it assigned before stay assigned. *)
Inductive Completion (A : Type) : Type :=
| Normal (state : A)
| Throw (message : string) (state : A).

Arguments Normal {A} state.
Arguments Throw {A} message state.

Section Model.

Variable num : Type.
Context {N : Number num}.
Local Open Scope num_scope.

Local Notation "0" := n_zero : num_scope.
Local Notation "1" := n_one : num_scope.

(** [number[]] holding [[x, y]]; the source reads indices 0 and 1 only. *)
Definition Coordinate : Type := (num * num)%type.
Definition Pixel : Type := (num * num)%type.

(** An OpenLayers extent [[minX, minY, maxX, maxY]]. *)
Record Extent : Type := mkExtent {
  ext_minX : num;
  ext_minY : num;
  ext_maxX : num;
  ext_maxY : num
}.

(** The geometry classes the source tests with [instanceof]. A polygon is
    its list of rings, the exterior one first. *)
Inductive Geometry : Type :=
| Point (coordinates : Coordinate)
| LineString (coordinates : list Coordinate)
| Polygon (rings : list (list Coordinate))
| OtherGeometry (extent : Extent).

(** [Feature<Geometry>]: [fid] stands for the identity of the object (what
    [Set.has] compares), [getGeometry] is [undefined] when [None]. *)
Record Feature : Type := mkFeature {
  fid : nat;
  getGeometry : option Geometry
}.

(** *** The OpenLayers accessors *)

(** Modelled from the spec: "Extent: axis-aligned bounding box of a
    geometry"; the box of no coordinate at all, from which a bounding box
    grows. *)
Definition emptyExtent : Extent :=
  mkExtent n_infinity n_infinity (n_opp n_infinity) (n_opp n_infinity).

(** Modelled from the spec: the least box that holds [e] and [c]. *)
Definition extendXY (e : Extent) (c : Coordinate) : Extent :=
  mkExtent (n_min (ext_minX e) (fst c)) (n_min (ext_minY e) (snd c))
           (n_max (ext_maxX e) (fst c)) (n_max (ext_maxY e) (snd c)).

(** Modelled from the spec: the axis-aligned bounding box of a coordinate
    sequence. *)
Definition boundingExtent (coords : list Coordinate) : Extent :=
  fold_left extendXY coords emptyExtent.

(** Modelled from the spec: "Extent: axis-aligned bounding box of a
    geometry" ([getExtent] of OpenLayers is not under src/). The box of a
    polygon covers all its rings. *)
Definition getExtent (g : Geometry) : Extent :=
  match g with
  | Point c => mkExtent (fst c) (snd c) (fst c) (snd c)
  | LineString coords => boundingExtent coords
  | Polygon rings => boundingExtent (concat rings)
  | OtherGeometry e => e
  end.

(** [polygon.getLinearRing(0)]: the exterior ring, [null] without rings. *)
Definition getLinearRing0 (rings : list (list Coordinate))
  : option (list Coordinate) :=
  match rings with
  | [] => None
  | ring :: _ => Some ring
  end.

(** [polygon.intersectsCoordinate] of OpenLayers is not under src/: the
    point-in-polygon test is a parameter of the model. *)
Class PolygonTest : Type := {
  intersectsCoordinate : list (list Coordinate) -> Coordinate -> bool
}.

(** [map.getCoordinateFromPixel] and [map.getView().getResolution()]. *)
Record OlMap : Type := mkOlMap {
  getCoordinateFromPixel : Pixel -> Coordinate;
  getResolution : num
}.

(** *** Index items and the RBush tree *)

Record IndexItem : Type := mkIndexItem {
  minX : num;
  minY : num;
  maxX : num;
  maxY : num;
  feature : Feature;
  segmentIndex : option nat;
  segmentStart : option Coordinate;
  segmentEnd : option Coordinate
}.

Record BBox : Type := mkBBox {
  box_minX : num;
  box_minY : num;
  box_maxX : num;
  box_maxY : num
}.

(** Modelled from the spec: the box of an item "intersects the given box";
    the boxes are closed, so boxes that only touch intersect. *)
Definition intersects (a : BBox) (b : IndexItem) : bool :=
  (minX b <=? box_maxX a) && (minY b <=? box_maxY a) &&
  (maxX b >=? box_minX a) && (maxY b >=? box_minY a).

(** Modelled from the spec: the Bounding-Volume Index (the rbush package
    is not under src/). The tree is the list of its items; "[load(items)]
    replaces the entire index content", "[clear()] removes all items",
    and "[query(box)] returns all items whose box intersects the given
    box", with "no ordering guarantee": [search] is any function that
    enumerates exactly those items. *)
Definition RTree : Type := list IndexItem.

(** Modelled from the spec: "[clear()]: removes all items". *)
Definition rb_clear : RTree := [].

(** Modelled from the spec: "[load(items)]: replaces the entire index
    content in one operation". *)
Definition rb_load (items : list IndexItem) (t : RTree) : RTree := items.

(** Modelled from the spec: "[all()] -> sequence of items". *)
Definition rb_all (t : RTree) : list IndexItem := t.

(** Modelled from the spec: "[query(box)] -> sequence of items: returns all
    items whose box intersects the given box. No ordering guarantee." *)
Class RBush : Type := {
  rb_search : RTree -> BBox -> list IndexItem;
  rb_search_spec : forall t box,
    Permutation (rb_search t box) (filter (intersects box) t)
}.

(** *** The detector *)

Record Detector : Type := mkDetector {
  tree : RTree;
  features : list Feature;
  debounceTimers : list (string * nat)   (* Map<string, Timeout> *)
}.

Record Hit : Type := mkHit {
  hit_feature : Feature;
  hit_distance : num
}.

Record DetectOptions : Type := mkOptions {
  hitTolerance : option num;
  debounceDelay : option nat;       (* milliseconds *)
  debounceKey : option string
}.

(** ** Building the index *)

Definition extentItem (f : Feature) (extent : Extent) : IndexItem :=
  {| minX := ext_minX extent;
     minY := ext_minY extent;
     maxX := ext_maxX extent;
     maxY := ext_maxY extent;
     feature := f;
     segmentIndex := None;
     segmentStart := None;
     segmentEnd := None |}.

(** The body of the segment loop of [indexLineString] at index [i]. *)
Definition segmentItem (f : Feature) (i : nat) (c1 c2 : Coordinate)
  : IndexItem :=
  let '(x1, y1) := c1 in
  let '(x2, y2) := c2 in
  let minX' := n_min x1 x2 in
  let maxX' := n_max x1 x2 in
  let minY' := n_min y1 y2 in
  let maxY' := n_max y1 y2 in
  let padding :=
    n_max (n_max ((maxX' - minX') * n_tenth) ((maxY' - minY') * n_tenth))
          n_floor in
  {| minX := minX' - padding;
     minY := minY' - padding;
     maxX := maxX' + padding;
     maxY := maxY' + padding;
     feature := f;
     segmentIndex := Some i;
     segmentStart := Some c1;
     segmentEnd := Some c2 |}.

(** [for (let i = 0; i < coords.length - 1; i++)], entered at index [i]
    with the coordinates from [coords[i]] on. *)
Fixpoint segmentItems (f : Feature) (i : nat) (coords : list Coordinate)
  : list IndexItem :=
  match coords with
  | c1 :: ((c2 :: _) as rest) =>
      segmentItem f i c1 c2 :: segmentItems f (S i) rest
  | _ => []
  end.

Definition indexLineString (f : Feature) (coords : list Coordinate)
  : list IndexItem :=
  if Nat.leb (length coords) 2 then
    [extentItem f (boundingExtent coords)]
  else
    segmentItems f 0 coords ++ [extentItem f (boundingExtent coords)].

Definition indexPolygon (f : Feature) (rings : list (list Coordinate))
  : list IndexItem :=
  (match getLinearRing0 rings with
   | Some exteriorRing => indexLineString f exteriorRing
   | None => []
   end) ++ [extentItem f (getExtent (Polygon rings))].

(** What one iteration of the loop of [updateFeatures] pushes. *)
Definition indexGeometry (f : Feature) (geometry : Geometry)
  : list IndexItem :=
  match geometry with
  | LineString coords => indexLineString f coords
  | Polygon rings => indexPolygon f rings
  | _ => [extentItem f (getExtent geometry)]
  end.

(** The loop of [updateFeatures]: [inl] is the thrown message. *)
Fixpoint indexFeatures (fs : list Feature) (items : list IndexItem)
  : string + list IndexItem :=
  match fs with
  | [] => inr items
  | f :: rest =>
      match getGeometry f with
      | None => inl "Feature has no geometry"%string
      | Some geometry => indexFeatures rest (items ++ indexGeometry f geometry)
      end
  end.

Definition updateFeatures (fs : list Feature) (d : Detector)
  : Completion Detector :=
  let d1 := {| tree := rb_clear;
               features := fs;
               debounceTimers := debounceTimers d |} in
  match indexFeatures fs [] with
  | inl message => Throw message d1
  | inr items =>
      Normal {| tree := rb_load items (tree d1);
                features := features d1;
                debounceTimers := debounceTimers d1 |}
  end.

(** [new SpatialFeatureDetector(features)]. *)
Definition newDetector (fs : list Feature) : Completion Detector :=
  let d0 := {| tree := rb_clear; features := []; debounceTimers := [] |} in
  if Nat.ltb 0 (length fs) then updateFeatures fs d0 else Normal d0.

(** ** Exact distances *)

Definition getDistanceToPoint (coordinate pointCoord : Coordinate) : num :=
  let dx := fst coordinate - fst pointCoord in
  let dy := snd coordinate - snd pointCoord in
  n_sqrt (dx * dx + dy * dy).

Definition getDistanceToSegment (point segStart segEnd : Coordinate) : num :=
  let dx := fst segEnd - fst segStart in
  let dy := snd segEnd - snd segStart in
  if (dx === 0) && (dy === 0) then
    let pdx := fst point - fst segStart in
    let pdy := snd point - snd segStart in
    n_sqrt (pdx * pdx + pdy * pdy)
  else
    let t :=
      n_max 0 (n_min 1
        (((fst point - fst segStart) * dx + (snd point - snd segStart) * dy)
         / (dx * dx + dy * dy))) in
    let projX := fst segStart + t * dx in
    let projY := snd segStart + t * dy in
    let pdx := fst point - projX in
    let pdy := snd point - projY in
    n_sqrt (pdx * pdx + pdy * pdy).

(** The first loop of [getDistanceToLineString]: [inl r] is the early
    [return r], [inr m] the value of [minDistance] when the loop ends. *)
Fixpoint scanSegments (coordinate : Coordinate) (coords : list Coordinate)
  (minDistance : num) : num + num :=
  match coords with
  | c1 :: ((c2 :: _) as rest) =>
      let distance := getDistanceToSegment coordinate c1 c2 in
      let minDistance' := n_min minDistance distance in
      if minDistance' === 0 then inl 0
      else scanSegments coordinate rest minDistance'
  | _ => inr minDistance
  end.

(** The second loop: the distance to every vertex. *)
Definition scanVertices (coordinate : Coordinate) (coords : list Coordinate)
  (minDistance : num) : num :=
  fold_left
    (fun m vertex =>
       let dx := fst coordinate - fst vertex in
       let dy := snd coordinate - snd vertex in
       n_min m (n_sqrt (dx * dx + dy * dy)))
    coords minDistance.

Definition getDistanceToLineString (coordinate : Coordinate)
  (coords : list Coordinate) : num :=
  match scanSegments coordinate coords n_infinity with
  | inl r => r
  | inr minDistance => scanVertices coordinate coords minDistance
  end.

Context {PT : PolygonTest}.

Definition getDistanceToPolygon (coordinate : Coordinate)
  (rings : list (list Coordinate)) : num :=
  if intersectsCoordinate rings coordinate then 0
  else match getLinearRing0 rings with
       | Some exteriorRing => getDistanceToLineString coordinate exteriorRing
       | None => n_infinity
       end.

Definition getDistanceToFeature (coordinate : Coordinate) (f : Feature)
  : num :=
  match getGeometry f with
  | None => n_infinity
  | Some (Point pointCoord) => getDistanceToPoint coordinate pointCoord
  | Some (LineString coords) => getDistanceToLineString coordinate coords
  | Some (Polygon rings) => getDistanceToPolygon coordinate rings
  | Some (OtherGeometry extent) =>
      let '(x, y) := coordinate in
      if (x >=? ext_minX extent) && (x <=? ext_maxX extent) &&
         (y >=? ext_minY extent) && (y <=? ext_maxY extent)
      then 0
      else
        let dx := n_max (n_max (ext_minX extent - x) 0) (x - ext_maxX extent) in
        let dy := n_max (n_max (ext_minY extent - y) 0) (y - ext_maxY extent) in
        n_sqrt (dx * dx + dy * dy)
  end.

(** ** Queries *)

(** The distance the scan computes for one candidate item. *)
Definition candidateDistance (coordinate : Coordinate) (candidate : IndexItem)
  : num :=
  match segmentStart candidate, segmentEnd candidate with
  | Some segStart, Some segEnd =>
      getDistanceToSegment coordinate segStart segEnd
  | _, _ => getDistanceToFeature coordinate (feature candidate)
  end.

(** [seen.has(feature)]: membership by object identity. *)
Definition seenHas (seen : list nat) (f : Feature) : bool :=
  existsb (Nat.eqb (fid f)) seen.

(** One iteration of the candidate loop on the pair [(seen, hits)]. *)
Definition scanCandidate (coordinate : Coordinate) (tolerance : num)
  (st : list nat * list Hit) (candidate : IndexItem)
  : list nat * list Hit :=
  let '(seen, hits) := st in
  if seenHas seen (feature candidate) then st
  else
    let distance := candidateDistance coordinate candidate in
    if distance <=? tolerance then
      if negb (seenHas seen (feature candidate)) then
        (seen ++ [fid (feature candidate)],
         hits ++ [mkHit (feature candidate) distance])
      else st
    else st.

(** [(a, b) => a.distance - b.distance]. *)
Definition byDistance (a b : Hit) : num := hit_distance a - hit_distance b.

(** [Array.prototype.sort(compare)]: a stable sort, here by insertion;
    [x] goes after every element [y] for which [compare(y, x)] is not
    positive (a NaN result counts as [0]). *)
Fixpoint insertSorted {A : Type} (compare : A -> A -> num) (x : A)
  (l : list A) : list A :=
  match l with
  | [] => [x]
  | y :: l' =>
      if compare y x >? 0 then x :: y :: l'
      else y :: insertSorted compare x l'
  end.

Definition arraySort {A : Type} (compare : A -> A -> num) (l : list A)
  : list A :=
  fold_left (fun sorted x => insertSorted compare x sorted) l [].

Context {RB : RBush}.

Definition queryBox (coordinate : Coordinate) (tolerance : num) : BBox :=
  let '(x, y) := coordinate in
  {| box_minX := x - tolerance;
     box_minY := y - tolerance;
     box_maxX := x + tolerance;
     box_maxY := y + tolerance |}.

(** [detectFeaturesAtCoordinate] up to the sort: the hits with their
    distances, nearest first. *)
Definition detectHits (coordinate : Coordinate) (tolerance : num)
  (d : Detector) : list Hit :=
  let candidates := rb_search (tree d) (queryBox coordinate tolerance) in
  let hits :=
    snd (fold_left (scanCandidate coordinate tolerance) candidates ([], [])) in
  arraySort byDistance hits.

Definition detectFeaturesAtCoordinate (coordinate : Coordinate)
  (tolerance : num) (d : Detector) : list Feature :=
  map hit_feature (detectHits coordinate tolerance d).

(** [options.hitTolerance || 0]. *)
Definition hitToleranceOr0 (options : DetectOptions) : num :=
  match hitTolerance options with
  | Some h => if n_truthy h then h else 0
  | None => 0
  end.

Definition detectFeaturesAtPixel (map : OlMap) (pixel : Pixel)
  (options : DetectOptions) (d : Detector) : list Feature :=
  let coordinate := getCoordinateFromPixel map pixel in
  let resolution := getResolution map in
  let tolerance := hitToleranceOr0 options * resolution in
  detectFeaturesAtCoordinate coordinate tolerance d.

(** [getFeatureAtPixel]: [features[0]]. *)
Definition getFeatureAtPixel (map : OlMap) (pixel : Pixel)
  (options : DetectOptions) (d : Detector) : option Feature :=
  hd_error (detectFeaturesAtPixel map pixel options d).

End Model.

(** ** Instances of the two parameters, to run the model *)

Section Instances.

Variable num : Type.
Context {N : Number num}.
Local Open Scope num_scope.

(** The enumeration that keeps the stored order. *)
Definition linearSearch : RBush (N := N).
Proof.
  refine {| rb_search := fun t box => filter (intersects box) t |}.
  intros t box. apply Permutation_refl.
Defined.

(** The winding number of a closed ring around [(x, y)], edge by edge from
    the vertex [(x1, y1)]. *)
Fixpoint windingNumber (x y x1 y1 : num) (ring : list (Coordinate num))
  (wn : Z)
  : Z :=
  match ring with
  | [] => wn
  | (x2, y2) :: rest =>
      let cross := (x2 - x1) * (y - y1) - (x - x1) * (y2 - y1) in
      let wn' :=
        if y1 <=? y then
          if (y2 >? y) && (cross >? n_zero) then (wn + 1)%Z else wn
        else
          if (y2 <=? y) && (cross <? n_zero) then (wn - 1)%Z else wn in
      windingNumber x y x2 y2 rest wn'
  end.

(** Modelled from the spec: "contained in the polygon by true
    point-in-polygon test", on the exterior ring only ("holes are not
    modeled"); [Polygon.intersectsCoordinate] is not under src/. *)
Definition exteriorRingTest : PolygonTest num :=
  {| intersectsCoordinate := fun rings coordinate =>
       match getLinearRing0 rings with
       | None => false
       | Some ring =>
           match ring with
           | [] => false
           | first :: _ =>
               let '(x1, y1) := last ring first in
               negb (Z.eqb (windingNumber (fst coordinate) (snd coordinate)
                                          x1 y1 ring 0%Z) 0%Z)
           end
       end |}.

End Instances.

(** ** Debounced queries: timers under a virtual clock *)

Section Timers.

Variable num : Type.
Context {N : Number num} {PT : PolygonTest num} {RB : @RBush num N}.

Local Abbreviation Feature := (Feature num).
Local Abbreviation OlMap := (OlMap num).
Local Abbreviation Pixel := (Pixel num).
Local Abbreviation DetectOptions := (DetectOptions num).
Local Abbreviation Detector := (Detector num).

(** The caller's callback. Caller code is not under src/; three shapes
    are modelled: a callback that records what it receives; one that also
    calls [detectFeaturesAtPixelDebounced] again before it returns; and
    one that does what [body] does and then throws instead of
    returning. *)
Inductive Callback : Type :=
| Observe (label : nat)
| Rearm (label : nat) (map : OlMap) (pixel : Pixel) (next : Callback)
        (options : DetectOptions)
| Throws (body : Callback).

(** The closure passed to [setTimeout], with the handle it got and the
    time it is due. *)
Record Task : Type := mkTask {
  task_id : nat;
  task_due : nat;
  task_key : string;
  task_map : OlMap;
  task_pixel : Pixel;
  task_callback : Callback;
  task_options : DetectOptions
}.

(** One call of a callback: by which timer, and what it received. *)
Record Invocation : Type := mkInvocation {
  inv_timer : nat;
  inv_label : nat;
  inv_features : list Feature
}.

Record World : Type := mkWorld {
  detector : Detector;
  pending : list Task;              (* timers set and not yet run or cleared *)
  clock : nat;                      (* milliseconds *)
  nextTimer : nat;                  (* the next handle of [setTimeout] *)
  invocations : list Invocation     (* oldest first *)
}.

(** *** [Map<string, Timeout>] *)

Fixpoint mapGet (key : string) (m : list (string * nat)) : option nat :=
  match m with
  | [] => None
  | (k, v) :: rest => if String.eqb k key then Some v else mapGet key rest
  end.

Fixpoint mapSet (key : string) (value : nat) (m : list (string * nat))
  : list (string * nat) :=
  match m with
  | [] => [(key, value)]
  | (k, v) :: rest =>
      if String.eqb k key then (k, value) :: rest
      else (k, v) :: mapSet key value rest
  end.

Definition mapDelete (key : string) (m : list (string * nat))
  : list (string * nat) :=
  filter (fun kv => negb (String.eqb (fst kv) key)) m.

(** *** [setTimeout] and [clearTimeout] *)

Definition clearTimeout (timer : nat) (w : World) : World :=
  {| detector := detector w;
     pending := filter (fun t => negb (Nat.eqb (task_id t) timer)) (pending w);
     clock := clock w;
     nextTimer := nextTimer w;
     invocations := invocations w |}.

Definition withTimers (timers : list (string * nat)) (w : World) : World :=
  {| detector := {| tree := tree (detector w);
                    features := features (detector w);
                    debounceTimers := timers |};
     pending := pending w;
     clock := clock w;
     nextTimer := nextTimer w;
     invocations := invocations w |}.

(** [options.debounceKey || 'default']: the empty string is falsy. *)
Definition debounceKeyOrDefault (options : DetectOptions) : string :=
  match debounceKey options with
  | Some key => if String.eqb key "" then "default"%string else key
  | None => "default"%string
  end.

(** [options.debounceDelay ?? 50]. *)
Definition debounceDelayOr50 (options : DetectOptions) : nat :=
  match debounceDelay options with
  | Some delay => delay
  | None => 50
  end.

Definition detectFeaturesAtPixelDebounced (map : OlMap) (pixel : Pixel)
  (callback : Callback) (options : DetectOptions) (w : World) : World :=
  let key := debounceKeyOrDefault options in
  let delay := debounceDelayOr50 options in
  let w1 :=
    match mapGet key (debounceTimers (detector w)) with
    | Some existingTimer => clearTimeout existingTimer w
    | None => w
    end in
  let timer := nextTimer w1 in
  let task := {| task_id := timer;
                 task_due := clock w1 + delay;
                 task_key := key;
                 task_map := map;
                 task_pixel := pixel;
                 task_callback := callback;
                 task_options := options |} in
  withTimers (mapSet key timer (debounceTimers (detector w1)))
    {| detector := detector w1;
       pending := pending w1 ++ [task];
       clock := clock w1;
       nextTimer := S timer;
       invocations := invocations w1 |}.

Definition record (timer label : nat) (fs : list Feature) (w : World)
  : World :=
  {| detector := detector w;
     pending := pending w;
     clock := clock w;
     nextTimer := nextTimer w;
     invocations := invocations w ++ [mkInvocation timer label fs] |}.

(** [callback(features)], called by the timer [timer]: what the callback
    does before it returns or throws. *)
Fixpoint invoke (callback : Callback) (timer : nat) (fs : list Feature)
  (w : World) : World :=
  match callback with
  | Observe label => record timer label fs w
  | Rearm label map pixel next options =>
      detectFeaturesAtPixelDebounced map pixel next options
        (record timer label fs w)
  | Throws body => invoke body timer fs w
  end.

(** Whether [callback(features)] ends with an exception. *)
Definition throws (callback : Callback) : bool :=
  match callback with
  | Throws _ => true
  | _ => false
  end.

(** What a callback does, whether it then returns or throws. *)
Fixpoint action (callback : Callback) : Callback :=
  match callback with
  | Throws body => action body
  | _ => callback
  end.

(** The body of the closure given to [setTimeout]. There is no [try]: when
    the callback throws, the exception leaves the closure and
    [this.debounceTimers.delete(key)] is not reached. The timer has run
    all the same, and the event loop goes on. *)
Definition runTask (task : Task) (w : World) : World :=
  let fs := detectFeaturesAtPixel (task_map task) (task_pixel task)
              (task_options task) (detector w) in
  let w1 := invoke (task_callback task) (task_id task) fs w in
  if throws (task_callback task) then w1
  else withTimers (mapDelete (task_key task) (debounceTimers (detector w1)))
         w1.

(** [clearDebounceTimers]: [forEach(timer => clearTimeout(timer))], then
    [clear()]. *)
Definition clearDebounceTimers (w : World) : World :=
  withTimers []
    (fold_left (fun w' kv => clearTimeout (snd kv) w')
               (debounceTimers (detector w)) w).

(** [clear()]. *)
Definition clear (w : World) : World :=
  clearDebounceTimers
    {| detector := {| tree := rb_clear num;
                      features := [];
                      debounceTimers := debounceTimers (detector w) |};
       pending := pending w;
       clock := clock w;
       nextTimer := nextTimer w;
       invocations := invocations w |}.

(** *** The event loop *)

(** The pending task that runs next: the least due time, the oldest first
    among equals. *)
Fixpoint earliest (tasks : list Task) : option Task :=
  match tasks with
  | [] => None
  | t :: rest =>
      match earliest rest with
      | Some u => if Nat.ltb (task_due u) (task_due t) then Some u else Some t
      | None => Some t
      end
  end.

(** Run the timer [task]: it leaves the queue, the clock reaches its due
    time, its closure runs. *)
Definition fire (task : Task) (w : World) : World :=
  runTask task
    {| detector := detector w;
       pending := filter (fun t => negb (Nat.eqb (task_id t) (task_id task)))
                         (pending w);
       clock := Nat.max (clock w) (task_due task);
       nextTimer := nextTimer w;
       invocations := invocations w |}.

(** Run, in order, the timers due at or before [time]; [fuel] bounds the
    number of timers run. *)
Fixpoint runTimers (fuel : nat) (time : nat) (w : World) : World :=
  match fuel with
  | 0 => w
  | S fuel' =>
      match earliest (pending w) with
      | Some task =>
          if Nat.leb (task_due task) time
          then runTimers fuel' time (fire task w)
          else w
      | None => w
      end
  end.

(** How many timers a callback can still set. *)
Fixpoint rearms (callback : Callback) : nat :=
  match callback with
  | Observe _ => 0
  | Rearm _ _ _ next _ => S (rearms next)
  | Throws body => rearms body
  end.

(** A bound on the timers that can run from a queue. *)
Definition budget (tasks : list Task) : nat :=
  fold_right (fun t n => S (rearms (task_callback t)) + n) 0 tasks.

(** Let the clock reach [time]. *)
Definition advanceTo (time : nat) (w : World) : World :=
  let w' := runTimers (budget (pending w)) time w in
  {| detector := detector w';
     pending := pending w';
     clock := Nat.max (clock w') time;
     nextTimer := nextTimer w';
     invocations := invocations w' |}.

(** A detector just constructed, at time 0, with no timer set. *)
Definition initialWorld (d : Detector) : World :=
  {| detector := d; pending := []; clock := 0; nextTimer := 0;
     invocations := [] |}.

End Timers.

Arguments Observe {num} label.

(** ** Vocabulary of the specification *)

Section Vocabulary.

Variable num : Type.
Context {N : Number num} {PT : PolygonTest num} {RB : @RBush num N}.

(** A segment item is told from a whole-extent item the way the query
    does it: [candidate.segmentStart && candidate.segmentEnd]. *)
Definition isSegmentItem (item : IndexItem num) : bool :=
  match segmentStart item, segmentEnd item with
  | Some _, Some _ => true
  | _, _ => false
  end.

Definition segmentCount (items : list (IndexItem num)) : nat :=
  length (filter isSegmentItem items).

Definition extentCount (items : list (IndexItem num)) : nat :=
  length (filter (fun item => negb (isSegmentItem item)) items).

(** The items one feature contributes to the index. *)
Definition itemsOf (f : Feature num) : list (IndexItem num) :=
  match getGeometry f with
  | Some geometry => indexGeometry f geometry
  | None => []
  end.

(** The identity of the feature of a hit. *)
Definition hitId (h : Hit num) : nat := fid (hit_feature h).

(** A hit computed from one of the candidates [cs], within tolerance. *)
Definition fromCandidate (P : Coordinate num) (t : num)
  (cs : list (IndexItem num)) (h : Hit num) : Prop :=
  exists c, In c cs /\ feature c = hit_feature h /\
            candidateDistance P c = hit_distance h /\
            (hit_distance h <=? t)%num = true.

(** The hits of a query before the sort. *)
Definition scanned (P : Coordinate num) (t : num) (d : Detector num)
  : list (Hit num) :=
  snd (fold_left (scanCandidate P t)
                 (rb_search (tree d) (queryBox P t)) ([], [])).

(** One object per identity: two features of the sequence with the same
    identity are the same feature. *)
Definition distinctObjects (fs : list (Feature num)) : Prop :=
  forall f g, In f fs -> In g fs -> fid f = fid g -> f = g.

(** One debounced call of a burst, issued when the clock shows
    [call_time]. *)
Record DebouncedCall : Type := mkCall {
  call_time : nat;
  call_map : OlMap num;
  call_pixel : Pixel num;
  call_callback : Callback num;
  call_options : DetectOptions num
}.

Definition call_due (c : DebouncedCall) : nat :=
  call_time c + debounceDelayOr50 (call_options c).

Definition issueCall (w : World num) (c : DebouncedCall) : World num :=
  detectFeaturesAtPixelDebounced (call_map c) (call_pixel c)
    (call_callback c) (call_options c) (advanceTo (call_time c) w).

Definition issueCalls (calls : list DebouncedCall) (w : World num)
  : World num :=
  fold_left issueCall calls w.

(** A burst on [key]: every call uses [key], and arrives after the call
    before it and before that one's delay has elapsed; [now] and [due] are
    the time and the due time of the call before. *)
Fixpoint burst (key : string) (now due : nat) (calls : list DebouncedCall)
  : Prop :=
  match calls with
  | [] => True
  | c :: rest =>
      debounceKeyOrDefault (call_options c) = key /\
      now <= call_time c /\ call_time c < due /\
      burst key (call_time c) (call_due c) rest
  end.

(** The timer a call sets, given its handle, and what its callback is to
    receive from the detector [d]. *)
Definition taskOfCall (timer : nat) (c : DebouncedCall) : Task num :=
  {| task_id := timer;
     task_due := call_due c;
     task_key := debounceKeyOrDefault (call_options c);
     task_map := call_map c;
     task_pixel := call_pixel c;
     task_callback := call_callback c;
     task_options := call_options c |}.

Definition resultOfCall (c : DebouncedCall) (d : Detector num)
  : list (Feature num) :=
  detectFeaturesAtPixel (call_map c) (call_pixel c) (call_options c) d.

(** The world right after the call [c] of a burst on [key] got the handle
    [timer]: its timer is the only one pending, and the one registered. *)
Definition afterCall (key : string) (timer : nat) (c : DebouncedCall)
  (w : World num) : Prop :=
  pending w = [taskOfCall timer c] /\
  clock w = call_time c /\
  nextTimer w = S timer /\
  mapGet key (debounceTimers (detector w)) = Some timer.

Fixpoint callbackLabel (callback : Callback num) : nat :=
  match callback with
  | Observe label => label
  | Rearm label _ _ _ _ => label
  | Throws body => callbackLabel body
  end.

(** Every pending timer is the one [debounceTimers] holds for its key. *)
Definition allRegistered (w : World num) : Prop :=
  forall t, In t (pending w) ->
    mapGet (task_key t) (debounceTimers (detector w)) = Some (task_id t).

(** No callback debounces again on the key of the call that carries it. *)
Fixpoint otherKeys (key : string) (callback : Callback num) : Prop :=
  match callback with
  | Observe _ => True
  | Rearm _ _ _ next options =>
      debounceKeyOrDefault options <> key /\
      otherKeys (debounceKeyOrDefault options) next
  | Throws body => otherKeys key body
  end.

(** The callback returns, and so does every callback it hands on to a
    later call. *)
Fixpoint returns (callback : Callback num) : Prop :=
  match callback with
  | Observe _ => True
  | Rearm _ _ _ next _ => returns next
  | Throws _ => False
  end.

(** No pending timer carries a callback that debounces again on the key of
    its own call. *)
Definition wellKeyed (w : World num) : Prop :=
  forall t, In t (pending w) -> otherKeys (task_key t) (task_callback t).

End Vocabulary.

(** *** The point-to-segment distance of the specification, on the reals *)

Module SegmentSpec.

Local Open Scope R_scope.

Definition euclidean (p q : R * R) : R :=
  R_sqrt.sqrt ((fst p - fst q) * (fst p - fst q)
               + (snd p - snd q) * (snd p - snd q)).

(** The parameter of the projection of [p] on the line through [a], [b]. *)
Definition projectionParameter (p a b : R * R) : R :=
  ((fst p - fst a) * (fst b - fst a) + (snd p - snd a) * (snd b - snd a))
  / ((fst b - fst a) * (fst b - fst a) + (snd b - snd a) * (snd b - snd a)).

Definition clamp01 (t : R) : R :=
  if Rlt_dec t 0 then 0 else if Rlt_dec 1 t then 1 else t.

(** The point of the line through [a] and [b] at parameter [t]. *)
Definition pointAt (a b : R * R) (t : R) : R * R :=
  (fst a + t * (fst b - fst a), snd a + t * (snd b - snd a)).

Definition samePoint (a b : R * R) : bool :=
  Exact.Reqb (fst a) (fst b) && Exact.Reqb (snd a) (snd b).

(** "Project [P] onto the infinite line through [A], [B], clamp the
    projection parameter to [[0,1]] (degenerate segment [A=B] collapses to
    point distance to [A]), and return the Euclidean distance from [P] to
    the clamped projection." *)
Definition segmentDistance (p a b : R * R) : R :=
  if samePoint a b then euclidean p a
  else euclidean p (pointAt a b (clamp01 (projectionParameter p a b))).

(** A real coordinate as a coordinate of the exact numbers. *)
Definition exact (p : R * R) : Coordinate Exact.xreal :=
  (Exact.Finite (fst p), Exact.Finite (snd p)).

End SegmentSpec.

(** ** Sample data *)

Module Sample.

Import Float64.
Local Open Scope float_scope.

Definition pointFeature : Feature float :=
  mkFeature 0 (Some (Point (0, 0))).

Definition lineFeature : Feature float :=
  mkFeature 1 (Some (LineString [(10, 0); (10, 10)])).

Definition bareFeature : Feature float := mkFeature 2 None.

Definition bentLine : Feature float :=
  mkFeature 3 (Some (LineString [(0, 0); (4, 0); (4, 3)])).

Definition triangle : Feature float :=
  mkFeature 4 (Some (Polygon [[(0, 0); (4, 0); (0, 3); (0, 0)]])).

Definition emptyDetector : Detector float :=
  {| tree := rb_clear float; features := []; debounceTimers := [] |}.

(** The detector after [updateFeatures(fs)] on a new one. *)
Definition detectorOf (fs : list (Feature float)) : Detector float :=
  match updateFeatures fs emptyDetector with
  | Normal d => d
  | Throw _ d => d
  end.

(** A view that shows map units as pixels. *)
Definition identityView : OlMap float :=
  mkOlMap (fun pixel => pixel) 1.

Definition hover (delay : nat) : DetectOptions float :=
  mkOptions (Some 1) (Some delay) (Some "hover"%string).

(** The pointer moves along the x axis: a call every 10 ms, each with the
    default delay of 50 ms left to run. *)
Definition move (time label : nat) (x : float) : DebouncedCall float :=
  mkCall time identityView (x, 0) (Observe label) (hover 50).

Definition firstMove : DebouncedCall float := move 0 1 8.

Definition nextMoves : list (DebouncedCall float) :=
  [move 10 2 6; move 20 3 4; move 30 4 2; move 40 5 0].

(** A callback that debounces again on its own key before it returns. *)
Definition rearmingCallback : Callback float :=
  Rearm 1 identityView (0, 0) (Observe 2) (hover 50).

End Sample.

Module ExactSample.

Import Exact SegmentSpec.
Local Open Scope R_scope.

(** A point feature at the origin, on exact numbers. *)
Definition origin : Feature xreal :=
  mkFeature 0 (Some (Point (exact (0, 0)))).

Definition emptyDetector : Detector xreal :=
  {| tree := rb_clear xreal; features := []; debounceTimers := [] |}.

Definition originDetector : Detector xreal :=
  {| tree := itemsOf origin; features := [origin]; debounceTimers := [] |}.

End ExactSample.

(** ** The rest of the detector and of its caller *)

Section MoreModel.

Variable num : Type.
Context {N : Number num} {PT : PolygonTest num} {RB : @RBush num N}.
Local Open Scope num_scope.

(** [(this.tree as any).data?.height]: the height rbush keeps in its root
    node is not under src/, it is a parameter; [None] is [undefined]. *)
Class RBushShape : Type := {
  rb_height : RTree num -> option nat
}.

(** What [getStats] returns: [features], [indexedItems], [treeHeight]. *)
Record Stats : Type := mkStats {
  stat_features : nat;
  stat_indexedItems : nat;
  stat_treeHeight : nat
}.

Definition getStats {RS : RBushShape} (d : Detector num) : Stats :=
  {| stat_features := length (features d);
     stat_indexedItems := length (rb_all (tree d));
     stat_treeHeight := match rb_height (tree d) with
                        | Some height => height
                        | None => 0
                        end |}.

(** [detector.updateFeatures(features)] called by the owner of the
    detector, as the tester does when its source changes: whether the call
    returns or throws, the detector keeps the state the call left. *)
Definition updateFeaturesIn (fs : list (Feature num)) (w : World num)
  : World num :=
  {| detector := match updateFeatures fs (detector w) with
                 | Normal d => d
                 | Throw _ d => d
                 end;
     pending := pending w;
     clock := clock w;
     nextTimer := nextTimer w;
     invocations := invocations w |}.

(** *** The benchmark of the tester *)

Inductive DetectionMethod : Type :=
| canvas
| spatial
| spatialDebounced.

Definition sameMethod (a b : DetectionMethod) : bool :=
  match a, b with
  | canvas, canvas | spatial, spatial | spatialDebounced, spatialDebounced =>
      true
  | _, _ => false
  end.

Record BenchmarkResults : Type := mkBenchmark {
  avgDetectionTime : num;
  maxDetectionTime : num;
  minDetectionTime : num;
  totalHits : nat;
  samples : nat
}.

(** The number [n] of a [length]. *)
Fixpoint n_of_nat (n : nat) : num :=
  match n with
  | 0 => n_zero
  | S n' => n_of_nat n' + n_one
  end.

(** [updateBenchmarkResults(method)] on the recorded [times], as the
    function from the previous table of results to the next
    ([setBenchmarkResults(prev => ({...prev, [method]: results}))]).
    [Math.max(...times)] starts from [-Infinity] and [Math.min(...times)]
    from [Infinity]. *)
Definition updateBenchmarkResults (method : DetectionMethod)
  (times : list num) (prev : DetectionMethod -> BenchmarkResults)
  : DetectionMethod -> BenchmarkResults :=
  if Nat.eqb (length times) 0 then prev
  else
    let results :=
      {| avgDetectionTime :=
           fold_left (fun a b => a + b) times n_zero
           / n_of_nat (length times);
         maxDetectionTime := fold_left n_max times (n_opp n_infinity);
         minDetectionTime := fold_left n_min times n_infinity;
         totalHits := length times;
         samples := length times |} in
    fun m => if sameMethod m method then results else prev m.

(** *** Worlds the detector can be in *)

(** The worlds a caller reaches from a new detector (its [debounceTimers]
    a [new Map()]) with the debounced
    queries, [clearDebounceTimers], [clear], [updateFeatures] and the
    passing of time, as long as no callback debounces again on the key of
    the call that carries it. The callbacks may throw. *)
Inductive reachable : World num -> Prop :=
| reach_initial d :
    debounceTimers d = [] ->
    reachable (initialWorld d)
| reach_debounced map pixel callback options w :
    reachable w ->
    otherKeys (debounceKeyOrDefault options) callback ->
    reachable (detectFeaturesAtPixelDebounced map pixel callback options w)
| reach_advance time w :
    reachable w -> reachable (advanceTo time w)
| reach_clearTimers w :
    reachable w -> reachable (clearDebounceTimers w)
| reach_clear w :
    reachable w -> reachable (clear w)
| reach_update fs w :
    reachable w -> reachable (updateFeaturesIn fs w).

(** Handles are never reused: the pending timers have distinct handles,
    all below the next handle [setTimeout] gives out. *)
Definition uniqueHandles (w : World num) : Prop :=
  NoDup (map (@task_id num) (pending w)) /\
  forall t, In t (pending w) -> task_id t < nextTimer w.

(** No stale entry: a handle that [debounceTimers] holds for a key other
    than [skip] is the handle of a pending timer of that key. While the
    closure of a timer runs, its own key is the one to skip. *)
Definition noStale (skip : option string) (w : World num) : Prop :=
  forall key timer,
    mapGet key (debounceTimers (detector w)) = Some timer ->
    Some key <> skip ->
    exists t, In t (pending w) /\ task_key t = key /\ task_id t = timer.

(** The handles [debounceTimers] holds were given out by [setTimeout],
    each for one key. *)
Definition handlesDistinct (w : World num) : Prop :=
  (forall key timer,
      mapGet key (debounceTimers (detector w)) = Some timer ->
      timer < nextTimer w) /\
  (forall k1 k2 timer,
      mapGet k1 (debounceTimers (detector w)) = Some timer ->
      mapGet k2 (debounceTimers (detector w)) = Some timer ->
      k1 = k2).

(** What keeps the timers in order, whether callbacks throw or not: every
    pending timer is the one registered for its key, no pending callback
    debounces again on its own key, and handles are never reused, neither
    by [setTimeout] nor in [debounceTimers]. *)
Definition timersInOrder (w : World num) : Prop :=
  allRegistered w /\ wellKeyed w /\ uniqueHandles w /\ handlesDistinct w.

(** Every pending callback returns. *)
Definition allReturn (w : World num) : Prop :=
  forall t, In t (pending w) -> returns (task_callback t).

(** The worlds reached as above with callbacks that all return: none
    throws. *)
Inductive reachableReturning : World num -> Prop :=
| returning_initial d :
    debounceTimers d = [] ->
    reachableReturning (initialWorld d)
| returning_debounced map pixel callback options w :
    reachableReturning w ->
    otherKeys (debounceKeyOrDefault options) callback ->
    returns callback ->
    reachableReturning
      (detectFeaturesAtPixelDebounced map pixel callback options w)
| returning_advance time w :
    reachableReturning w -> reachableReturning (advanceTo time w)
| returning_clearTimers w :
    reachableReturning w -> reachableReturning (clearDebounceTimers w)
| returning_clear w :
    reachableReturning w -> reachableReturning (clear w)
| returning_update fs w :
    reachableReturning w -> reachableReturning (updateFeaturesIn fs w).

End MoreModel.

(** *** Polylines and boxes, on the reals *)

Module LineSpec.

Import SegmentSpec.
Local Open Scope R_scope.

(** The consecutive coordinate pairs of a coordinate sequence. *)
Fixpoint segmentsOf (coords : list (R * R)) : list ((R * R) * (R * R)) :=
  match coords with
  | a :: ((b :: _) as rest) => (a, b) :: segmentsOf rest
  | _ => []
  end.

(** The points of a polyline: its vertices and the points of its
    segments. *)
Definition onLine (q : R * R) (coords : list (R * R)) : Prop :=
  In q coords \/
  exists a b s, In (a, b) (segmentsOf coords) /\ 0 <= s <= 1 /\
                q = pointAt a b s.

(** The points of the closed box from [(x0, y0)] to [(x1, y1)]. *)
Definition inBox (q : R * R) (x0 y0 x1 y1 : R) : Prop :=
  x0 <= fst q <= x1 /\ y0 <= snd q <= y1.

(** The extent with finite bounds, on exact numbers. *)
Definition exactExtent (x0 y0 x1 y1 : R) : Extent Exact.xreal :=
  mkExtent (Exact.Finite x0) (Exact.Finite y0)
           (Exact.Finite x1) (Exact.Finite y1).

(** The distances [getDistanceToLineString] goes through: to every segment,
    then to every vertex. *)
Definition lineDistances (p : R * R) (coords : list (R * R)) : list R :=
  map (fun ab => segmentDistance p (fst ab) (snd ab)) (segmentsOf coords)
  ++ map (euclidean p) coords.

(** The first of the two: the distances to the segments. *)
Definition segmentDistances (p : R * R) (coords : list (R * R)) : list R :=
  map (fun ab => segmentDistance p (fst ab) (snd ab)) (segmentsOf coords).

(** A running minimum that starts from [Infinity]. *)
Definition toX (m : option R) : Exact.xreal :=
  match m with
  | Some r => Exact.Finite r
  | None => Exact.PInf
  end.

Definition optMin (m : option R) (x : R) : option R :=
  Some (match m with
        | Some r => Rmin r x
        | None => x
        end).

(** The point of the box from [(x0, y0)] to [(x1, y1)] nearest to [p]:
    [p] moved onto the box, axis by axis. *)
Definition nearestInBox (p : R * R) (x0 y0 x1 y1 : R) : R * R :=
  (Rmax x0 (Rmin (fst p) x1), Rmax y0 (Rmin (snd p) y1)).

(** The extent of [coords] is a box with finite bounds that meets the
    query box of [p] and [t]. *)
Definition boxInReach (p : R * R) (t : R) (coords : list (R * R)) : Prop :=
  exists x0 y0 x1 y1,
    boundingExtent (N := Exact.number) (map exact coords)
    = exactExtent x0 y0 x1 y1 /\
    x0 <= fst p + t /\ fst p - t <= x1 /\
    y0 <= snd p + t /\ snd p - t <= y1.

End LineSpec.

(** *** More sample data *)

Module ExactShapes.

Import Exact SegmentSpec LineSpec.
Local Open Scope R_scope.

(** A line with a joint, a box of another geometry class and a triangle,
    on exact numbers. *)
Definition bentCoords : list (R * R) := [(0, 0); (4, 0); (4, 3)].

Definition bentLine : Feature xreal :=
  mkFeature 1 (Some (LineString (map exact bentCoords))).

Definition box : Feature xreal :=
  mkFeature 2 (Some (OtherGeometry (exactExtent 0 0 2 1))).

Definition triangleRing : list (R * R) := [(0, 0); (4, 0); (0, 3); (0, 0)].

Definition triangle : Feature xreal :=
  mkFeature 3 (Some (Polygon (map (map exact) [triangleRing]))).

(** The detector that holds just [f], indexed. *)
Definition holding (f : Feature xreal) : Detector xreal :=
  {| tree := itemsOf f; features := [f]; debounceTimers := [] |}.

(** A view at resolution [2] whose pixels are map coordinates. *)
Definition plainView : OlMap xreal := mkOlMap (fun pixel => pixel) (Finite 2).

End ExactShapes.

Module HoverSample.

Import Float64 Sample.
Local Open Scope float_scope.

(** A new detector on which one hover query is pending. *)
Definition hovering : World float :=
  detectFeaturesAtPixelDebounced identityView (0, 0) (Observe 1) (hover 50)
    (initialWorld emptyDetector).

End HoverSample.

(** ** The distance a hit records *)

Section RecordedDistance.

Variable num : Type.
Context {N : Number num} {PT : PolygonTest num}.

(** The hit [h] records the distance of the first candidate of its feature
    that is within tolerance, in the order [cs] of the candidates: the
    candidate [c] belongs to the feature of [h], its distance is the one
    [h] carries and is at most [t], and no candidate of that feature
    before [c] is within [t]. Candidates of the feature after [c] are
    skipped, whatever their distance. *)
Definition firstCandidate (P : Coordinate num) (t : num)
  (cs : list (IndexItem num)) (h : Hit num) : Prop :=
  exists before c after,
    cs = before ++ c :: after /\
    feature c = hit_feature h /\
    candidateDistance P c = hit_distance h /\
    (hit_distance h <=? t)%num = true /\
    forall c', In c' before ->
               fid (feature c') = fid (hit_feature h) ->
               (candidateDistance P c' <=? t)%num = false.

End RecordedDistance.

(** ** The real number of a binary64 number *)

Module Float64Value.

(** A finite binary64 number [+-m * 2^e] as a fraction of two integers;
    the zeros are [0 / 1]. Infinities and NaN stand for no real number:
    they are given [0 / 1] and are not used. *)
Definition ratioOf (x : float) : Z * Z :=
  match Prim2SF x with
  | S754_finite s m e =>
      let n := if s then Z.neg m else Z.pos m in
      match e with
      | Z.neg k => (n, Z.pow_pos 2 k)
      | _ => (Z.mul n (Z.pow 2 e), 1%Z)
      end
  | _ => (0%Z, 1%Z)
  end.

Definition realOf (x : float) : R :=
  (IZR (fst (ratioOf x)) / IZR (snd (ratioOf x)))%R.

End Float64Value.

(** * Properties *)

(** ** Building the index *)

Section IndexFacts.

Variable num : Type.
Context {N : Number num} {PT : PolygonTest num} {RB : @RBush num N}.

Lemma indexFeatures_inr (fs : list (Feature num)) :
  forall acc items,
    indexFeatures fs acc = inr items ->
    items = acc ++ flat_map (@itemsOf num N) fs /\
    forall f, In f fs -> getGeometry f <> None.
Proof.
  induction fs as [|f fs IH]; simpl; intros acc items H.
  - inversion H; subst. rewrite app_nil_r. split; [reflexivity | tauto].
  - unfold itemsOf at 1. destruct (getGeometry f) as [g|] eqn:G; [|discriminate].
    apply IH in H as [-> Hall]. rewrite <- app_assoc. split; [reflexivity|].
    intros f' [<- | Hin]; [congruence | auto].
Qed.

Lemma indexFeatures_inl (fs : list (Feature num)) :
  forall acc,
    (exists f, In f fs /\ getGeometry f = None) ->
    indexFeatures fs acc = inl "Feature has no geometry"%string.
Proof.
  induction fs as [|f fs IH]; simpl; intros acc [g [Hin Hg]]; [contradiction|].
  destruct (getGeometry f) eqn:G; [|reflexivity].
  destruct Hin as [-> | Hin]; [congruence|].
  apply IH. exists g. auto.
Qed.

Lemma rb_search_empty (box : BBox num) : rb_search (rb_clear num) box = [].
Proof.
  apply Permutation_nil. apply Permutation_sym.
  exact (rb_search_spec (rb_clear num) box).
Qed.

Lemma detectHits_empty_tree (d : Detector num) P t :
  tree d = rb_clear num -> detectHits P t d = [].
Proof.
  intros E. unfold detectHits. rewrite E, rb_search_empty. reflexivity.
Qed.

Lemma updateFeatures_Normal (fs : list (Feature num)) (d d' : Detector num) :
  updateFeatures fs d = Normal d' ->
  d' = {| tree := flat_map (@itemsOf num N) fs;
          features := fs;
          debounceTimers := debounceTimers d |} /\
  forall f, In f fs -> getGeometry f <> None.
Proof.
  unfold updateFeatures. destruct (indexFeatures fs []) as [msg|items] eqn:E;
    [discriminate|].
  intros H. inversion H; subst. apply indexFeatures_inr in E as [-> Hall].
  split; [reflexivity | exact Hall].
Qed.

(** The constructor is [updateFeatures] on the empty detector; with no
    feature it leaves the detector empty. *)
Lemma newDetector_spec (fs : list (Feature num)) :
  newDetector fs
  = updateFeatures fs {| tree := rb_clear num; features := [];
                         debounceTimers := [] |}.
Proof. destruct fs; reflexivity. Qed.

Lemma segmentItems_segment (f : Feature num) (coords : list (Coordinate num)) :
  forall i, filter (@isSegmentItem num) (segmentItems f i coords)
            = segmentItems f i coords.
Proof.
  induction coords as [|c1 [|c2 rest] IH]; intros i; try reflexivity.
  change (segmentItems f i (c1 :: c2 :: rest))
    with (segmentItem f i c1 c2 :: segmentItems f (S i) (c2 :: rest)).
  simpl filter. destruct c1, c2. simpl. f_equal. apply IH.
Qed.

Lemma segmentItems_length (f : Feature num) (coords : list (Coordinate num)) :
  forall i, length (segmentItems f i coords) = length coords - 1.
Proof.
  induction coords as [|c1 [|c2 rest] IH]; intros i; try reflexivity.
  change (segmentItems f i (c1 :: c2 :: rest))
    with (segmentItem f i c1 c2 :: segmentItems f (S i) (c2 :: rest)).
  cbn [length]. rewrite IH. cbn [length]. lia.
Qed.

Lemma segmentItems_no_extent (f : Feature num) (coords : list (Coordinate num)) :
  forall i, filter (fun item => negb (isSegmentItem item))
                   (segmentItems f i coords) = [].
Proof.
  induction coords as [|c1 [|c2 rest] IH]; intros i; try reflexivity.
  change (segmentItems f i (c1 :: c2 :: rest))
    with (segmentItem f i c1 c2 :: segmentItems f (S i) (c2 :: rest)).
  simpl filter. destruct c1, c2. simpl. apply IH.
Qed.

(** The [i]-th segment item spans [coords[i]] and [coords[i + 1]]. *)
Lemma segmentItems_nth (f : Feature num) (coords : list (Coordinate num)) :
  forall start i c1 c2,
    nth_error coords i = Some c1 ->
    nth_error coords (S i) = Some c2 ->
    nth_error (segmentItems f start coords) i
    = Some (segmentItem f (start + i) c1 c2).
Proof.
  induction coords as [|a [|b rest] IH]; intros start i c1 c2 H1 H2.
  - destruct i; discriminate.
  - destruct i as [|[|i]]; discriminate.
  - change (segmentItems f start (a :: b :: rest))
      with (segmentItem f start a b :: segmentItems f (S start) (b :: rest)).
    destruct i as [|i].
    + simpl in H1, H2. inversion H1; inversion H2; subst.
      rewrite Nat.add_0_r. reflexivity.
    + cbn [nth_error]. cbn [nth_error] in H1.
      change (nth_error (a :: b :: rest) (S (S i)))
        with (nth_error (b :: rest) (S i)) in H2.
      change (nth_error (a :: b :: rest) (S i))
        with (nth_error (b :: rest) i) in H1.
      rewrite (IH (S start) i c1 c2 H1 H2). do 2 f_equal. lia.
Qed.

Lemma segmentItems_feature (f : Feature num) (coords : list (Coordinate num)) :
  forall i item, In item (segmentItems f i coords) -> feature item = f.
Proof.
  induction coords as [|c1 [|c2 rest] IH]; intros i item H;
    try contradiction.
  change (segmentItems f i (c1 :: c2 :: rest))
    with (segmentItem f i c1 c2 :: segmentItems f (S i) (c2 :: rest)) in H.
  destruct H as [<- | H]; [destruct c1, c2; reflexivity | eauto].
Qed.

Lemma indexLineString_feature (f : Feature num) coords item :
  In item (indexLineString f coords) -> feature item = f.
Proof.
  unfold indexLineString. destruct (Nat.leb (length coords) 2).
  - intros [<- | []]. reflexivity.
  - intros H. apply in_app_or in H as [H | [<- | []]];
      [eapply segmentItems_feature; eauto | reflexivity].
Qed.

Lemma indexGeometry_feature (f : Feature num) g item :
  In item (indexGeometry f g) -> feature item = f.
Proof.
  destruct g as [c|coords|rings|e]; simpl.
  - intros [<- | []]. reflexivity.
  - apply indexLineString_feature.
  - unfold indexPolygon. intros H.
    apply in_app_or in H as [H | [<- | []]]; [|reflexivity].
    destruct (getLinearRing0 rings); [|contradiction].
    eapply indexLineString_feature; eauto.
  - intros [<- | []]. reflexivity.
Qed.

Lemma itemsOf_feature (f : Feature num) item :
  In item (itemsOf f) -> feature item = f.
Proof.
  unfold itemsOf. destruct (getGeometry f); [|contradiction].
  apply indexGeometry_feature.
Qed.

Lemma indexLineString_counts (f : Feature num) coords :
  segmentCount (indexLineString f coords)
  = (if Nat.ltb 2 (length coords) then length coords - 1 else 0) /\
  extentCount (indexLineString f coords) = 1.
Proof.
  unfold indexLineString, segmentCount, extentCount.
  destruct (Nat.leb (length coords) 2) eqn:E.
  - apply Nat.leb_le in E.
    destruct (Nat.ltb_spec 2 (length coords)); [lia|]. split; reflexivity.
  - apply Nat.leb_gt in E.
    destruct (Nat.ltb_spec 2 (length coords)); [|lia].
    rewrite !filter_app, segmentItems_segment, segmentItems_no_extent.
    rewrite length_app, segmentItems_length. simpl. split; lia.
Qed.

End IndexFacts.

Section IndexClaims.

Variable num : Type.
Context {N : Number num} {PT : PolygonTest num} {RB : @RBush num N}.

(** C1 (as amended): when some feature of the sequence has no geometry,
    [updateFeatures] throws synchronously ("Feature has no geometry") and
    commits no partial index; the prior state is not kept either: the
    tracked features are the rejected sequence, the index is empty, and
    every later query returns the empty sequence. *)
Theorem updateFeatures_missing_geometry
  (fs : list (Feature num)) (d : Detector num) :
  (exists f, In f fs /\ getGeometry f = None) ->
  exists d',
    updateFeatures fs d = Throw "Feature has no geometry" d' /\
    features d' = fs /\
    rb_all (tree d') = [] /\
    debounceTimers d' = debounceTimers d /\
    forall P t, detectFeaturesAtCoordinate P t d' = [].
Proof.
  intros H. unfold updateFeatures.
  rewrite (indexFeatures_inl fs [] H).
  eexists. split; [reflexivity|]. repeat split.
  intros P t. unfold detectFeaturesAtCoordinate.
  rewrite detectHits_empty_tree; reflexivity.
Qed.

(** C2 (as amended): after a successful [updateFeatures] the index holds
    the items of every feature, at least one each, all referring back to
    it. A LineString with more than 2 coordinates contributes one segment
    item per consecutive coordinate pair (the [i]-th spans [coords[i]] and
    [coords[i+1]]) followed by one whole-extent item, with the extent of
    the line; one with at most 2 coordinates only the whole-extent item. A
    Polygon contributes the items of its exterior ring, taken as a line:
    the segment items of the ring when it has more than 2 coordinates (the
    [i]-th spans [ring[i]] and [ring[i+1]]), then a whole-extent item with
    the extent of the ring; and after them one more whole-extent item,
    with the extent of the polygon: two whole-extent items in all. *)
Theorem updateFeatures_items_per_feature
  (fs : list (Feature num)) (d d' : Detector num) :
  updateFeatures fs d = Normal d' ->
  rb_all (tree d') = flat_map (@itemsOf num N) fs /\
  forall f, In f fs ->
    1 <= length (itemsOf f) /\
    (forall item, In item (itemsOf f) -> feature item = f) /\
    match getGeometry f with
    | Some (LineString coords) =>
        if Nat.ltb 2 (length coords) then
          itemsOf f
          = segmentItems f 0 coords ++ [extentItem f (boundingExtent coords)] /\
          segmentCount (itemsOf f) = length coords - 1 /\
          extentCount (itemsOf f) = 1 /\
          forall i c1 c2,
            nth_error coords i = Some c1 ->
            nth_error coords (S i) = Some c2 ->
            nth_error (itemsOf f) i = Some (segmentItem f i c1 c2)
        else itemsOf f = [extentItem f (boundingExtent coords)]
    | Some (Polygon rings) =>
        match getLinearRing0 rings with
        | Some ring =>
            itemsOf f
            = (if Nat.ltb 2 (length ring) then segmentItems f 0 ring else [])
              ++ [extentItem f (boundingExtent ring);
                  extentItem f (getExtent (Polygon rings))] /\
            segmentCount (itemsOf f)
            = (if Nat.ltb 2 (length ring) then length ring - 1 else 0) /\
            extentCount (itemsOf f) = 2 /\
            filter (fun item => negb (isSegmentItem item)) (itemsOf f)
            = [extentItem f (boundingExtent ring);
               extentItem f (getExtent (Polygon rings))] /\
            (Nat.ltb 2 (length ring) = true ->
             forall i c1 c2,
               nth_error ring i = Some c1 ->
               nth_error ring (S i) = Some c2 ->
               nth_error (itemsOf f) i = Some (segmentItem f i c1 c2))
        | None => itemsOf f = [extentItem f (getExtent (Polygon rings))]
        end
    | Some geometry => itemsOf f = [extentItem f (getExtent geometry)]
    | None => False
    end.
Proof.
  intros H. apply updateFeatures_Normal in H as [-> Hall].
  split; [reflexivity|]. intros f Hin. specialize (Hall f Hin).
  assert (Hnth : forall coords more i c1 c2,
             nth_error coords i = Some c1 ->
             nth_error coords (S i) = Some c2 ->
             nth_error (segmentItems f 0 coords ++ more) i
             = Some (segmentItem f i c1 c2)).
  { intros coords more i c1 c2 H1 H2.
    assert (Hi : i < length (segmentItems f 0 coords)).
    { rewrite segmentItems_length.
      assert (S i < length coords).
      { apply nth_error_Some. intros HN.
        change (nth_error coords (S i) = Some c2) in H2.
        rewrite HN in H2. discriminate. }
      lia. }
    rewrite nth_error_app1 by exact Hi.
    exact (segmentItems_nth f coords 0 i H1 H2). }
  split; [|split; [apply itemsOf_feature|]].
  - unfold itemsOf. destruct (getGeometry f) as [[c|coords|rings|e]|];
      try congruence; simpl; try lia.
    + unfold indexLineString. destruct (Nat.leb (length coords) 2);
        [simpl; lia | rewrite length_app; simpl; lia].
    + unfold indexPolygon. rewrite length_app. simpl. lia.
  - unfold itemsOf. destruct (getGeometry f) as [[c|coords|rings|e]|];
      try congruence; cbn [indexGeometry]; try reflexivity.
    + destruct (indexLineString_counts f coords) as [Hs He].
      destruct (Nat.ltb 2 (length coords)) eqn:E.
      * apply Nat.ltb_lt in E.
        assert (Hitems : indexLineString f coords
                         = segmentItems f 0 coords
                           ++ [extentItem f (boundingExtent coords)]).
        { unfold indexLineString.
          destruct (Nat.leb_spec (length coords) 2); [lia | reflexivity]. }
        split; [exact Hitems|]. split; [exact Hs|]. split; [exact He|].
        intros i c1 c2 H1 H2. rewrite Hitems. apply Hnth; assumption.
      * unfold indexLineString. apply Nat.ltb_ge in E.
        destruct (Nat.leb_spec (length coords) 2); [reflexivity | lia].
    + unfold indexPolygon.
      destruct (getLinearRing0 rings) as [ring|]; [|reflexivity].
      destruct (indexLineString_counts f ring) as [Hs He].
      assert (Hitems : indexLineString f ring
                         ++ [extentItem f (getExtent (Polygon rings))]
                       = (if Nat.ltb 2 (length ring)
                          then segmentItems f 0 ring else [])
                         ++ [extentItem f (boundingExtent ring);
                             extentItem f (getExtent (Polygon rings))]).
      { unfold indexLineString.
        destruct (Nat.leb_spec (length ring) 2);
          destruct (Nat.ltb_spec 2 (length ring)); try lia;
          [reflexivity | rewrite <- app_assoc; reflexivity]. }
      split; [exact Hitems|]. split; [|split; [|split]].
      * unfold segmentCount, extentCount in *.
        rewrite !filter_app, !length_app, Hs. simpl. lia.
      * unfold segmentCount, extentCount in *.
        rewrite !filter_app, !length_app, He. simpl. lia.
      * rewrite Hitems, filter_app.
        destruct (Nat.ltb 2 (length ring));
          [rewrite segmentItems_no_extent|]; reflexivity.
      * intros E i c1 c2 H1 H2. rewrite Hitems, E.
        apply Hnth; assumption.
Qed.

(** C8: after [updateFeatures(fs)] has returned, a second
    [updateFeatures(fs)] returns as well, and every query gives the same
    hits, with the same distances, as after the first. *)
Theorem updateFeatures_idempotent
  (fs : list (Feature num)) (d d1 : Detector num) :
  updateFeatures fs d = Normal d1 ->
  exists d2,
    updateFeatures fs d1 = Normal d2 /\
    forall P t,
      detectFeaturesAtCoordinate P t d2 = detectFeaturesAtCoordinate P t d1 /\
      detectHits P t d2 = detectHits P t d1.
Proof.
  intros H. unfold updateFeatures in *.
  destruct (indexFeatures fs []) as [msg|items]; [discriminate|].
  inversion H; subst. simpl. eexists. split; [reflexivity|].
  intros P t. split; reflexivity.
Qed.

End IndexClaims.

Section SampleRuns.

Import Float64 Sample.
Local Existing Instance linearSearch.
Local Existing Instance exteriorRingTest.
Local Open Scope float_scope.

(** C1, the claim as stated fails: a detector that finds the point at
    [(0,0)] finds nothing after an [updateFeatures] that threw; the index
    and the tracked features are not the prior ones. *)
Lemma failed_update_discards_index :
  exists d',
    updateFeatures [pointFeature; bareFeature] (detectorOf [pointFeature])
    = Throw "Feature has no geometry" d' /\
    detectFeaturesAtCoordinate (0, 0) 0 (detectorOf [pointFeature])
    = [pointFeature] /\
    detectFeaturesAtCoordinate (0, 0) 0 d' = [] /\
    detectFeaturesAtCoordinate (0, 0) 0 d'
    <> detectFeaturesAtCoordinate (0, 0) 0 (detectorOf [pointFeature]) /\
    tree d' <> tree (detectorOf [pointFeature]) /\
    features d' <> features (detectorOf [pointFeature]).
Proof.
  eexists. split; [vm_compute; reflexivity|].
  repeat split; try (vm_compute; reflexivity);
    intros H; vm_compute in H; discriminate H.
Qed.

Lemma updateFeatures_missing_geometry_witness :
  exists d',
    updateFeatures [pointFeature; bareFeature] (detectorOf [pointFeature])
    = Throw "Feature has no geometry" d' /\
    features d' = [pointFeature; bareFeature] /\
    rb_all (tree d') = [] /\
    debounceTimers d' = debounceTimers (detectorOf [pointFeature]) /\
    forall P t, detectFeaturesAtCoordinate P t d' = [].
Proof.
  apply (updateFeatures_missing_geometry (num := float)).
  exists bareFeature. split; [simpl; auto | reflexivity].
Defined.

(** C2, the claim as stated fails: the triangle, a polygon whose exterior
    ring has 4 coordinates, contributes its 3 segment items and two
    whole-extent items, not one. *)
Lemma polygon_two_extent_items :
  exists d',
    updateFeatures [triangle] emptyDetector = Normal d' /\
    segmentCount (rb_all (tree d')) = 3%nat /\
    extentCount (rb_all (tree d')) = 2%nat /\
    extentCount (rb_all (tree d')) <> 1%nat.
Proof.
  eexists. split; [vm_compute; reflexivity|].
  repeat split; try (vm_compute; reflexivity).
  intros H; vm_compute in H; discriminate H.
Qed.

Lemma updateFeatures_items_per_feature_witness :
  rb_all (tree (detectorOf [bentLine; triangle]))
  = flat_map (@itemsOf float _) [bentLine; triangle] /\
  segmentCount (itemsOf bentLine) = 2%nat /\
  extentCount (itemsOf bentLine) = 1%nat /\
  extentCount (itemsOf triangle) = 2%nat /\
  filter (fun item => negb (isSegmentItem item)) (itemsOf triangle)
  = [extentItem triangle (boundingExtent [(0, 0); (4, 0); (0, 3); (0, 0)]);
     extentItem triangle
       (getExtent (Polygon [[(0, 0); (4, 0); (0, 3); (0, 0)]]))].
Proof.
  destruct (@updateFeatures_items_per_feature float _
              [bentLine; triangle] emptyDetector
              (detectorOf [bentLine; triangle]) eq_refl) as [Hall Hf].
  split; [exact Hall|].
  pose proof (Hf bentLine (or_introl eq_refl)) as (_ & _ & Hb).
  pose proof (Hf triangle (or_intror (or_introl eq_refl))) as (_ & _ & Ht).
  simpl in Hb, Ht. destruct Hb as (_ & Hb1 & Hb2 & _).
  destruct Ht as (_ & _ & Ht2 & Ht3 & _).
  repeat split; assumption.
Defined.

Lemma updateFeatures_idempotent_witness :
  exists d2,
    updateFeatures [pointFeature; lineFeature]
      (detectorOf [pointFeature; lineFeature]) = Normal d2 /\
    forall P t,
      detectFeaturesAtCoordinate P t d2
      = detectFeaturesAtCoordinate P t (detectorOf [pointFeature; lineFeature]) /\
      detectHits P t d2
      = detectHits P t (detectorOf [pointFeature; lineFeature]).
Proof.
  apply (@updateFeatures_idempotent float _ _ _
           [pointFeature; lineFeature] emptyDetector).
  reflexivity.
Defined.

End SampleRuns.

(** ** The candidate scan and the sort *)

Section QueryFacts.

Variable num : Type.
Context {N : Number num} {PT : PolygonTest num} {RB : @RBush num N}.
Local Open Scope num_scope.

Local Abbreviation Hit := (Hit num).
Local Abbreviation IndexItem := (IndexItem num).
Local Abbreviation Feature := (Feature num).
Local Abbreviation hitId := (@hitId num).

Lemma seenHas_In (seen : list nat) (f : Feature) :
  seenHas seen f = true <-> In (fid f) seen.
Proof.
  unfold seenHas. rewrite existsb_exists. split.
  - intros [x [Hin Hx]]. apply Nat.eqb_eq in Hx. congruence.
  - intros H. exists (fid f). split; [exact H | apply Nat.eqb_refl].
Qed.

(** What one iteration does. *)
Lemma scanCandidate_cases P t seen (hits : list Hit) (c : IndexItem) :
  (scanCandidate P t (seen, hits) c = (seen, hits) /\
   (In (fid (feature c)) seen \/ (candidateDistance P c <=? t) = false)) \/
  (scanCandidate P t (seen, hits) c
   = (seen ++ [fid (feature c)],
      hits ++ [mkHit (feature c) (candidateDistance P c)]) /\
   ~ In (fid (feature c)) seen /\ (candidateDistance P c <=? t) = true).
Proof.
  unfold scanCandidate.
  destruct (seenHas seen (feature c)) eqn:S.
  - left. split; [reflexivity|]. left. apply seenHas_In. exact S.
  - destruct (candidateDistance P c <=? t) eqn:D.
    + right. simpl. split; [reflexivity|]. split; [|reflexivity].
      intros H. apply seenHas_In in H. congruence.
    + left. split; [reflexivity|]. right. reflexivity.
Qed.

(** The invariant of the loop: [hits] lists the features of [seen], in the
    same order, each once; every hit was computed from a candidate within
    tolerance, and every such candidate has its feature in [seen]. *)
Lemma scan_invariant P t (cs : list IndexItem) :
  forall (pre : list IndexItem) seen hits,
    map hitId hits = seen -> NoDup seen ->
    Forall (fromCandidate P t pre) hits ->
    (forall c, In c pre -> (candidateDistance P c <=? t) = true ->
               In (fid (feature c)) seen) ->
    let st := fold_left (scanCandidate P t) cs (seen, hits) in
    map hitId (snd st) = fst st /\ NoDup (fst st) /\
    Forall (fromCandidate P t (pre ++ cs)) (snd st) /\
    (forall c, In c (pre ++ cs) -> (candidateDistance P c <=? t) = true ->
               In (fid (feature c)) (fst st)).
Proof.
  induction cs as [|c cs IH]; intros pre seen hits Hmap Hnd Hfrom Hcov.
  - simpl. rewrite app_nil_r. auto.
  - cbn [fold_left].
    replace (pre ++ c :: cs) with ((pre ++ [c]) ++ cs)
      by (rewrite <- app_assoc; reflexivity).
    destruct (scanCandidate_cases P t seen hits c) as [[-> Hc] | [-> [Hn Hd]]].
    + apply IH; auto.
      * eapply Forall_impl; [|exact Hfrom].
        intros h (c' & Hin & H1 & H2 & H3). exists c'.
        rewrite in_app_iff. auto.
      * intros c' Hin Hd. apply in_app_or in Hin as [Hin | [<- | []]]; auto.
        destruct Hc as [Hc | Hc]; [exact Hc | congruence].
    + apply IH.
      * rewrite map_app, Hmap. reflexivity.
      * apply NoDup_app; [exact Hnd | repeat constructor; intros [] | ].
        intros x Hx [<- | []]. contradiction.
      * apply Forall_app. split.
        -- eapply Forall_impl; [|exact Hfrom].
           intros h (c' & Hin & H1 & H2 & H3). exists c'.
           rewrite in_app_iff. auto.
        -- constructor; [|constructor]. exists c.
           rewrite in_app_iff. simpl. auto.
      * intros c' Hin Hd'. rewrite in_app_iff.
        apply in_app_or in Hin as [Hin | [<- | []]]; [left; auto | right; simpl; auto].
Qed.

Lemma scanned_spec P t (d : Detector num) :
  NoDup (map hitId (scanned P t d)) /\
  Forall (fromCandidate P t (rb_search (tree d) (queryBox P t)))
         (scanned P t d) /\
  (forall c, In c (rb_search (tree d) (queryBox P t)) ->
             (candidateDistance P c <=? t) = true ->
             In (fid (feature c)) (map hitId (scanned P t d))).
Proof.
  unfold scanned.
  destruct (@scan_invariant P t (rb_search (tree d) (queryBox P t))
              [] [] [] eq_refl (NoDup_nil _) (Forall_nil _))
    as (H1 & H2 & H3 & H4); [intros c []|].
  simpl in *. rewrite H1. auto.
Qed.

Lemma insertSorted_perm {A} (compare : A -> A -> num) (x : A) (l : list A) :
  Permutation (insertSorted compare x l) (x :: l).
Proof.
  induction l as [|y l IH]; simpl; [apply Permutation_refl|].
  destruct (compare y x >? n_zero); [apply Permutation_refl|].
  eapply Permutation_trans; [apply perm_skip, IH | apply perm_swap].
Qed.

Lemma arraySort_perm {A} (compare : A -> A -> num) (l : list A) :
  Permutation (arraySort compare l) l.
Proof.
  unfold arraySort.
  assert (G : forall acc, Permutation
                (fold_left (fun sorted x => insertSorted compare x sorted) l acc)
                (acc ++ l)).
  { induction l as [|x l IH]; intros acc; simpl.
    - rewrite app_nil_r. apply Permutation_refl.
    - eapply Permutation_trans; [apply IH|].
      eapply Permutation_trans;
        [apply Permutation_app_tail, insertSorted_perm|].
      simpl. apply Permutation_middle. }
  exact (G []).
Qed.

Lemma detectHits_perm P t (d : Detector num) :
  Permutation (detectHits P t d) (scanned P t d).
Proof. apply arraySort_perm. Qed.

(** A feature is returned exactly when one of its candidate items is
    within tolerance. *)
Lemma detect_In_id P t (d : Detector num) (id : nat) :
  In id (map (@fid num) (detectFeaturesAtCoordinate P t d)) <->
  exists c, In c (rb_search (tree d) (queryBox P t)) /\
            fid (feature c) = id /\ (candidateDistance P c <=? t) = true.
Proof.
  destruct (scanned_spec P t d) as (_ & Hfrom & Hcov).
  unfold detectFeaturesAtCoordinate. rewrite map_map.
  change (fun x : Hit => fid (hit_feature x)) with hitId.
  split.
  - intros H.
    apply (Permutation_in _ (Permutation_map hitId (detectHits_perm P t d))) in H.
    apply in_map_iff in H as (h & <- & Hh).
    rewrite Forall_forall in Hfrom.
    destruct (Hfrom h Hh) as (c & Hin & H1 & H2 & H3).
    exists c. unfold hitId. rewrite H1, H2. auto.
  - intros (c & Hin & <- & Hd).
    apply (Permutation_in _ (Permutation_sym
             (Permutation_map hitId (detectHits_perm P t d)))).
    auto.
Qed.

(** C5: a query never returns the same feature twice: the identities of
    the returned features are pairwise different, whatever items the index
    holds and however many of them are candidates. *)
Theorem detect_no_duplicates P t (d : Detector num) :
  NoDup (map (@fid num) (detectFeaturesAtCoordinate P t d)) /\
  NoDup (detectFeaturesAtCoordinate P t d).
Proof.
  assert (H : NoDup (map (@fid num) (detectFeaturesAtCoordinate P t d))).
  { destruct (scanned_spec P t d) as (Hnd & _ & _).
    unfold detectFeaturesAtCoordinate. rewrite map_map.
    eapply Permutation_NoDup; [|exact Hnd].
    apply Permutation_sym, Permutation_map, detectHits_perm. }
  split; [exact H | eapply NoDup_map_inv; exact H].
Qed.

End QueryFacts.

(** ** The scenario of the specification, on binary64 numbers *)

Section Scenario.

Import Float64 Sample.
Context {PT : PolygonTest float} {RB : @RBush float _}.
Local Open Scope float_scope.

Lemma rb_search_one (t : RTree float) (box : BBox float) c :
  filter (intersects box) t = [c] -> rb_search t box = [c].
Proof.
  intros E. apply Permutation_length_1_inv, Permutation_sym.
  rewrite <- E. apply rb_search_spec.
Qed.

Lemma rb_search_none (t : RTree float) (box : BBox float) :
  filter (intersects box) t = [] -> rb_search t box = [].
Proof.
  intros E. apply Permutation_nil, Permutation_sym.
  rewrite <- E. apply rb_search_spec.
Qed.

(** C3: with the point at [(0,0)] and the line from [(10,0)] to [(10,10)]
    indexed, whatever order the tree enumerates its items in, the query at
    [(0,0.5)] with tolerance [1] returns the point only, at distance
    [0.5]; the query at [(10,5)] with tolerance [0.5] returns the line
    only, at distance [0]; the query at [(5,5)] with tolerance [1]
    returns nothing. *)
Theorem scenario_point_and_line (d0 : Detector float) :
  exists d,
    updateFeatures [pointFeature; lineFeature] d0 = Normal d /\
    detectFeaturesAtCoordinate (0, 0.5) 1 d = [pointFeature] /\
    detectHits (0, 0.5) 1 d = [mkHit pointFeature 0.5] /\
    detectFeaturesAtCoordinate (10, 5) 0.5 d = [lineFeature] /\
    detectHits (10, 5) 0.5 d = [mkHit lineFeature 0] /\
    detectFeaturesAtCoordinate (5, 5) 1 d = [] /\
    detectHits (5, 5) 1 d = [].
Proof.
  eexists. split; [reflexivity|].
  unfold detectFeaturesAtCoordinate, detectHits. cbn [tree].
  rewrite (@rb_search_one _ (queryBox (0, 0.5) 1)
             (extentItem pointFeature (getExtent (Point (0, 0)))))
    by (vm_compute; reflexivity).
  rewrite (@rb_search_one _ (queryBox (10, 5) 0.5)
             (extentItem lineFeature
                (getExtent (LineString [(10, 0); (10, 10)]))))
    by (vm_compute; reflexivity).
  rewrite (@rb_search_none _ (queryBox (5, 5) 1))
    by (vm_compute; reflexivity).
  repeat split; vm_compute; reflexivity.
Qed.

End Scenario.


(** ** The candidates of a query *)

Section CandidateFacts.

Variable num : Type.
Context {N : Number num} {PT : PolygonTest num} {RB : @RBush num N}.
Local Open Scope num_scope.

Lemma rb_search_In (t : RTree num) (box : BBox num) (c : IndexItem num) :
  In c (rb_search t box) <-> In c t /\ intersects box c = true.
Proof.
  rewrite <- filter_In. split; apply Permutation_in.
  - apply rb_search_spec.
  - apply Permutation_sym, rb_search_spec.
Qed.

Lemma detectHits_sound P t (d : Detector num) :
  Forall (fromCandidate P t (rb_search (tree d) (queryBox P t)))
         (detectHits P t d).
Proof.
  destruct (scanned_spec P t d) as (_ & Hfrom & _).
  rewrite Forall_forall in *. intros h Hh. apply Hfrom.
  eapply Permutation_in; [apply detectHits_perm | exact Hh].
Qed.

(** A returned feature is the feature of an indexed item. *)
Lemma detect_In_indexed P t (d : Detector num) (g : Feature num) :
  In g (detectFeaturesAtCoordinate P t d) ->
  exists c, In c (tree d) /\ feature c = g.
Proof.
  unfold detectFeaturesAtCoordinate. intros H.
  apply in_map_iff in H as (h & <- & Hh).
  pose proof (detectHits_sound P t d) as Hs. rewrite Forall_forall in Hs.
  destruct (Hs h Hh) as (c & Hin & Hf & _).
  apply rb_search_In in Hin as [Hin _]. eauto.
Qed.

(** The items of the index built from [fs] belong to features of [fs]. *)
Lemma flat_map_itemsOf_In (fs : list (Feature num)) (c : IndexItem num) :
  In c (flat_map (@itemsOf num N) fs) ->
  In (feature c) fs /\ In c (itemsOf (feature c)).
Proof.
  intros H. apply in_flat_map in H as (g & Hg & Hc).
  rewrite (itemsOf_feature g c Hc). auto.
Qed.

Lemma candidateDistance_extentItem P (f : Feature num) (e : Extent num) :
  candidateDistance P (extentItem f e) = getDistanceToFeature P f.
Proof. reflexivity. Qed.

Lemma getDistanceToFeature_point P (f : Feature num) (c : Coordinate num) :
  getGeometry f = Some (Point c) ->
  getDistanceToFeature P f = getDistanceToPoint P c.
Proof. unfold getDistanceToFeature. intros ->. reflexivity. Qed.

End CandidateFacts.

(** ** Point features *)

Section PointFacts.

Variable num : Type.
Context {N : Number num} {PT : PolygonTest num} {RB : @RBush num N}.
Local Open Scope num_scope.

Variables (fs : list (Feature num)) (d d' : Detector num).
Variables (f : Feature num) (c : Coordinate num).
Hypothesis Hupdate : updateFeatures fs d = Normal d'.
Hypothesis Hdistinct : distinctObjects fs.
Hypothesis Hin : In f fs.
Hypothesis Hpoint : getGeometry f = Some (Point c).

Lemma point_items : itemsOf f = [extentItem f (getExtent (Point c))].
Proof. unfold itemsOf. rewrite Hpoint. reflexivity. Qed.

(** A hit on the point feature carries the distance to the point. *)
Lemma point_hit P t (h : Hit num) :
  In h (detectHits P t d') ->
  fid (hit_feature h) = fid f ->
  hit_feature h = f /\
  hit_distance h = getDistanceToPoint P c /\
  (getDistanceToPoint P c <=? t) = true.
Proof.
  intros Hh Hid. apply updateFeatures_Normal in Hupdate as [-> _].
  pose proof (detectHits_sound P t
                {| tree := flat_map (@itemsOf num N) fs; features := fs;
                   debounceTimers := debounceTimers d |}) as Hs.
  rewrite Forall_forall in Hs.
  destruct (Hs h Hh) as (item & Hc & Hf & Hd & Hle).
  apply rb_search_In in Hc as [Hc _]. cbn [tree] in Hc.
  apply flat_map_itemsOf_In in Hc as [Hfs Hc]. rewrite Hf in Hfs, Hc.
  assert (Hfeq : hit_feature h = f) by (apply Hdistinct; assumption).
  rewrite Hfeq, point_items in Hc. destruct Hc as [<- | []].
  rewrite candidateDistance_extentItem,
    (getDistanceToFeature_point _ _ Hpoint) in Hd.
  rewrite <- Hd in Hle |- *. auto.
Qed.

(** When the box of the point meets the query box and the distance is
    within tolerance, the point feature is a hit, at that distance. *)
Lemma point_found P t :
  intersects (queryBox P t) (extentItem f (getExtent (Point c))) = true ->
  (getDistanceToPoint P c <=? t) = true ->
  In (mkHit f (getDistanceToPoint P c)) (detectHits P t d').
Proof.
  intros Hbox Hle.
  assert (Hid : In (fid f)
                   (map (@fid num) (detectFeaturesAtCoordinate P t d'))).
  { apply detect_In_id.
    exists (extentItem f (getExtent (Point c))).
    split; [|split; [reflexivity|]].
    - apply rb_search_In. split; [|exact Hbox].
      pose proof Hupdate as Hu. apply updateFeatures_Normal in Hu as [-> _].
      cbn [tree]. apply in_flat_map. exists f. rewrite point_items.
      simpl. auto.
    - rewrite candidateDistance_extentItem,
        (getDistanceToFeature_point _ _ Hpoint). exact Hle. }
  unfold detectFeaturesAtCoordinate in Hid. rewrite map_map in Hid.
  apply in_map_iff in Hid as (h & Hh1 & Hh2).
  destruct (point_hit P t h Hh2 Hh1) as (Hf & Hd & _).
  destruct h as [hf hd]. simpl in Hf, Hd. subst. exact Hh2.
Qed.

End PointFacts.

(** ** Exact numbers: order and distances *)

Module ExactFacts.

Import Exact SegmentSpec.
Local Open Scope R_scope.

(** Decide every comparison of reals in sight. *)
Ltac rdec :=
  unfold Rleb, Rltb, Reqb in *;
  repeat match goal with
    | |- context [Rle_dec ?a ?b] => destruct (Rle_dec a b)
    | |- context [Rlt_dec ?a ?b] => destruct (Rlt_dec a b)
    | |- context [Req_dec_T ?a ?b] => destruct (Req_dec_T a b)
    | H : context [Rle_dec ?a ?b] |- _ => destruct (Rle_dec a b)
    | H : context [Rlt_dec ?a ?b] |- _ => destruct (Rlt_dec a b)
    | H : context [Req_dec_T ?a ?b] |- _ => destruct (Req_dec_T a b)
    end.

Lemma Rleb_le a b : Rleb a b = true <-> a <= b.
Proof. rdec; split; intros; try discriminate; try reflexivity; lra. Qed.

Lemma leb_refl_l a b : leb a b = true -> leb a a = true.
Proof.
  destruct a, b; simpl; try discriminate; try reflexivity; intros;
    rdec; try reflexivity; lra.
Qed.

Lemma leb_trans a b c : leb a b = true -> leb b c = true -> leb a c = true.
Proof.
  destruct a, b, c; simpl; try discriminate; try reflexivity; intros;
    rdec; try discriminate; try reflexivity; lra.
Qed.

(** The comparator of the sort, [a - b > 0], says "not [a <= b]" on
    numbers that are not NaN. *)
Lemma sub_positive a b :
  leb a a = true -> leb b b = true ->
  ltb (Finite 0) (sub a b) = negb (leb a b).
Proof.
  destruct a, b; simpl; try discriminate; try reflexivity; intros;
    rdec; try reflexivity; lra.
Qed.

Lemma leb_total a b :
  leb a a = true -> leb b b = true -> leb a b = false -> leb b a = true.
Proof.
  destruct a, b; simpl; try discriminate; try reflexivity; intros;
    rdec; try discriminate; try reflexivity; lra.
Qed.

Lemma sub_Finite a b : sub (Finite a) (Finite b) = Finite (a - b).
Proof. reflexivity. Qed.

Lemma add_Finite a b : add (Finite a) (Finite b) = Finite (a + b).
Proof. reflexivity. Qed.

Lemma mul_Finite a b : mul (Finite a) (Finite b) = Finite (a * b).
Proof. reflexivity. Qed.

Lemma div_Finite a b : b <> 0 -> div (Finite a) (Finite b) = Finite (a / b).
Proof. intros H. simpl. rdec; [contradiction | reflexivity]. Qed.

Lemma eqb_Finite a b : eqb (Finite a) (Finite b) = Reqb a b.
Proof. reflexivity. Qed.

Lemma sqrt_Finite x : 0 <= x -> sqrt (Finite x) = Finite (R_sqrt.sqrt x).
Proof. intros H. simpl. rdec; [lra | reflexivity]. Qed.

Lemma sum_squares_nonneg x y : 0 <= x * x + y * y.
Proof. nra. Qed.

Lemma getDistanceToPoint_exact (p c : R * R) :
  getDistanceToPoint (exact p) (exact c) = Finite (euclidean p c).
Proof.
  unfold getDistanceToPoint, exact, euclidean.
  cbn [fst snd n_sub n_add n_mul n_sqrt number].
  rewrite !sub_Finite, !mul_Finite, !add_Finite.
  apply sqrt_Finite, sum_squares_nonneg.
Qed.

Lemma clamp_exact q :
  max (Finite 0) (min (Finite 1) (Finite q)) = Finite (clamp01 q).
Proof.
  unfold clamp01. simpl. rdec; simpl; rdec; try reflexivity; f_equal; lra.
Qed.

(** The clamped projection is the nearest point of the segment: no point
    of the segment is nearer to [p] than [segmentDistance] says. *)
Lemma segmentDistance_least (p a b : R * R) (s : R) :
  0 <= s <= 1 ->
  segmentDistance p a b <= euclidean p (pointAt a b s).
Proof.
  destruct p as [px py], a as [ax ay], b as [bx by_]. intros Hs.
  unfold segmentDistance, samePoint, euclidean, pointAt. cbn [fst snd].
  destruct (Reqb ax bx && Reqb ay by_) eqn:E.
  - apply andb_true_iff in E as [E1 E2]. rdec; try discriminate. subst.
    apply Req_le. f_equal. ring.
  - assert (Hd : 0 < (bx - ax) * (bx - ax) + (by_ - ay) * (by_ - ay)).
    { apply andb_false_iff in E. rdec; destruct E; try discriminate; nra. }
    apply sqrt_le_1_alt.
    unfold projectionParameter. cbn [fst snd].
    set (D := (bx - ax) * (bx - ax) + (by_ - ay) * (by_ - ay)) in *.
    set (q := ((px - ax) * (bx - ax) + (py - ay) * (by_ - ay)) / D).
    assert (Hq : (px - ax) * (bx - ax) + (py - ay) * (by_ - ay) = q * D).
    { unfold q. field. lra. }
    set (u := px - ax) in *. set (v := py - ay) in *.
    set (dx := bx - ax) in *. set (dy := by_ - ay) in *.
    replace (px - (ax + clamp01 q * dx)) with (u - clamp01 q * dx)
      by (unfold u; ring).
    replace (py - (ay + clamp01 q * dy)) with (v - clamp01 q * dy)
      by (unfold v; ring).
    replace (px - (ax + s * dx)) with (u - s * dx) by (unfold u; ring).
    replace (py - (ay + s * dy)) with (v - s * dy) by (unfold v; ring).
    assert (Hkey : forall r,
               (u - r * dx) * (u - r * dx) + (v - r * dy) * (v - r * dy)
               = u * u + v * v - 2 * r * (q * D) + r * r * D).
    { intros r. rewrite <- Hq. unfold D. ring. }
    rewrite (Hkey s), (Hkey (clamp01 q)).
    assert (Hdiff : forall c,
               0 <= (s - c) * (s + c - 2 * q) ->
               u * u + v * v - 2 * c * (q * D) + c * c * D
               <= u * u + v * v - 2 * s * (q * D) + s * s * D).
    { intros c Hc.
      pose proof (Rmult_le_pos D _ (Rlt_le _ _ Hd) Hc) as Hpos.
      replace (D * ((s - c) * (s + c - 2 * q)))
        with ((u * u + v * v - 2 * s * (q * D) + s * s * D)
              - (u * u + v * v - 2 * c * (q * D) + c * c * D)) in Hpos
        by ring.
      lra. }
    apply Hdiff. unfold clamp01.
    destruct (Rlt_dec q 0); [|destruct (Rlt_dec 1 q)].
    + apply Rmult_le_pos; lra.
    + replace ((s - 1) * (s + 1 - 2 * q))
        with ((1 - s) * (2 * q - 1 - s)) by ring.
      apply Rmult_le_pos; lra.
    + replace ((s - q) * (s + q - 2 * q)) with ((s - q) * (s - q)) by ring.
      apply Rle_0_sqr.
Qed.

Section Queries.

Context {PT : PolygonTest xreal} {RB : @RBush xreal number}.

Local Abbreviation nearer :=
  (fun a b : Hit xreal => leb (hit_distance a) (hit_distance b) = true).
Local Abbreviation proper :=
  (fun h : Hit xreal => leb (hit_distance h) (hit_distance h) = true).

Lemma byDistance_positive (y x : Hit xreal) :
  proper y -> proper x ->
  n_ltb n_zero (byDistance y x) = negb (leb (hit_distance y) (hit_distance x)).
Proof. intros Hy Hx. apply sub_positive; assumption. Qed.

Lemma insertSorted_HdRel (y x : Hit xreal) (l : list (Hit xreal)) :
  HdRel nearer y l -> nearer y x ->
  HdRel nearer y (insertSorted (@byDistance xreal number) x l).
Proof.
  intros Hl Hx. destruct l as [|z l]; cbn [insertSorted];
    [constructor; exact Hx|].
  destruct (n_ltb n_zero (byDistance z x)); constructor;
    [exact Hx | inversion Hl; assumption].
Qed.

Lemma insertSorted_Sorted (x : Hit xreal) (l : list (Hit xreal)) :
  proper x -> Forall proper l -> Sorted nearer l ->
  Sorted nearer (insertSorted (@byDistance xreal number) x l).
Proof.
  intros Hx. induction l as [|y l IH]; intros Hp Hs; cbn [insertSorted].
  - repeat constructor.
  - inversion Hp as [|? ? Hy Hp']; subst.
    inversion Hs as [|? ? Hs' Hhd]; subst.
    rewrite (byDistance_positive Hy Hx).
    destruct (leb (hit_distance y) (hit_distance x)) eqn:E; cbn [negb].
    + constructor; [apply IH; assumption|].
      apply insertSorted_HdRel; assumption.
    + constructor; [exact Hs|]. constructor.
      apply leb_total; assumption.
Qed.

Lemma arraySort_Sorted (l : list (Hit xreal)) :
  Forall proper l ->
  Sorted nearer (arraySort (@byDistance xreal number) l).
Proof.
  unfold arraySort. intros Hl.
  assert (G : forall acc, Forall proper acc -> Sorted nearer acc ->
              Sorted nearer
                (fold_left (fun sorted x =>
                              insertSorted (@byDistance xreal number) x sorted)
                           l acc)).
  { induction Hl as [|x l Hx Hl IH]; intros acc Ha Hs; simpl; [exact Hs|].
    apply IH.
    - eapply Permutation_Forall;
        [apply Permutation_sym, insertSorted_perm|].
      constructor; assumption.
    - apply insertSorted_Sorted; assumption. }
  apply G; constructor.
Qed.

Lemma euclidean_nonneg p q : 0 <= euclidean p q.
Proof. apply sqrt_pos. Qed.

Lemma euclidean_bounds (p c : R * R) (t : R) :
  euclidean p c <= t ->
  fst c <= fst p + t /\ fst p - t <= fst c /\
  snd c <= snd p + t /\ snd p - t <= snd c.
Proof.
  unfold euclidean. intros H.
  set (dx := fst p - fst c) in *. set (dy := snd p - snd c) in *.
  pose proof (sum_squares_nonneg dx dy) as Hn.
  pose proof (sqrt_pos (dx * dx + dy * dy)) as Hp.
  pose proof (sqrt_sqrt _ Hn) as Hsq.
  assert (Ht : 0 <= t) by lra.
  assert (Hx : dx * dx <= t * t) by nra.
  assert (Hy : dy * dy <= t * t) by nra.
  unfold dx, dy in *. repeat split; nra.
Qed.

End Queries.

End ExactFacts.

(** ** binary64 numbers: the query at the point itself *)

Module Float64Facts.

Import Float64.
Local Open Scope float_scope.

Lemma finite_cases (x : float) :
  PrimFloat.is_finite x = true ->
  (exists s, Prim2SF x = S754_zero s) \/
  (exists s m e, Prim2SF x = S754_finite s m e).
Proof.
  unfold PrimFloat.is_finite, PrimFloat.is_nan, PrimFloat.is_infinity.
  rewrite !FloatAxioms.eqb_spec, abs_spec.
  replace (Prim2SF infinity) with (S754_infinity false) by reflexivity.
  destruct (Prim2SF x) as [s | s | | s m e] eqn:E.
  - intros _. left. eauto.
  - destruct s; discriminate.
  - discriminate.
  - intros _. right. eauto.
Qed.

Lemma SFcompare_finite_refl s m e :
  SFcompare (S754_finite s m e) (S754_finite s m e) = Some Eq.
Proof.
  simpl. destruct s; rewrite Z.compare_refl;
    change (Pos.compare_cont Eq m m) with (Pos.compare m m);
    rewrite Pos.compare_refl; reflexivity.
Qed.

(** [x - x] is [+0]. *)
Lemma sub_diag (x : float) : PrimFloat.is_finite x = true -> x - x = 0.
Proof.
  intros H. apply Prim2SF_inj. rewrite sub_spec.
  destruct (finite_cases x H) as [[s ->] | (s & m & e & ->)].
  - destruct s; reflexivity.
  - unfold SF64sub, SFsub. rewrite Z.sub_diag. reflexivity.
Qed.

(** [x <= x + 0] and [x - 0 <= x]. *)
Lemma leb_add_zero (x : float) :
  PrimFloat.is_finite x = true -> (x <=? x + 0) = true.
Proof.
  intros H. rewrite leb_spec, add_spec.
  destruct (finite_cases x H) as [[s ->] | (s & m & e & ->)].
  - destruct s; reflexivity.
  - change (Prim2SF 0) with (S754_zero false). unfold SF64add, SFadd, SFleb.
    rewrite SFcompare_finite_refl. reflexivity.
Qed.

Lemma leb_sub_zero (x : float) :
  PrimFloat.is_finite x = true -> (x - 0 <=? x) = true.
Proof.
  intros H. rewrite leb_spec, sub_spec.
  destruct (finite_cases x H) as [[s ->] | (s & m & e & ->)].
  - destruct s; reflexivity.
  - change (Prim2SF 0) with (S754_zero false). unfold SF64sub, SFsub, SFleb.
    rewrite SFcompare_finite_refl. reflexivity.
Qed.

Section Containment.

Context {PT : PolygonTest float} {RB : @RBush float number}.

(** X20: on binary64 numbers too, the query at the coordinate of an indexed
    point feature with tolerance [0] returns the feature, with distance
    exactly [0], for every finite coordinate. *)
Lemma point_at_itself
  (fs : list (Feature float)) (d d' : Detector float)
  (f : Feature float) (x y : float) :
  updateFeatures fs d = Normal d' ->
  distinctObjects fs ->
  In f fs ->
  getGeometry f = Some (Point (x, y)) ->
  PrimFloat.is_finite x = true ->
  PrimFloat.is_finite y = true ->
  In (mkHit f 0) (detectHits (x, y) 0 d') /\
  In f (detectFeaturesAtCoordinate (x, y) 0 d').
Proof.
  intros Hup Hd Hin Hg Hx Hy.
  assert (Hdist : getDistanceToPoint (x, y) (x, y) = 0).
  { unfold getDistanceToPoint. cbn [fst snd n_sub n_add n_mul n_sqrt number].
    rewrite (sub_diag x Hx), (sub_diag y Hy). reflexivity. }
  assert (Hhit : In (mkHit f (getDistanceToPoint (x, y) (x, y)))
                    (detectHits (x, y) 0 d')).
  { apply (@point_found _ _ _ _ fs d d' f (x, y) Hup Hd Hin Hg (x, y) 0).
    - unfold intersects, queryBox, extentItem, getExtent.
      cbn [minX minY maxX maxY box_minX box_minY box_maxX box_maxY fst snd
           ext_minX ext_minY ext_maxX ext_maxY n_leb n_add n_sub number].
      rewrite (leb_add_zero x Hx), (leb_add_zero y Hy),
        (leb_sub_zero x Hx), (leb_sub_zero y Hy). reflexivity.
    - rewrite Hdist. reflexivity. }
  rewrite Hdist in Hhit. split; [exact Hhit|].
  unfold detectFeaturesAtCoordinate.
  change f with (hit_feature (mkHit f 0)). apply in_map. exact Hhit.
Qed.

End Containment.

End Float64Facts.

(** ** Timers *)

Section TimerFacts.

Variable num : Type.
Context {N : Number num} {PT : PolygonTest num} {RB : @RBush num N}.

Local Abbreviation Task := (Task num).
Local Abbreviation World := (World num).
Local Abbreviation Callback := (Callback num).

Lemma filter_true {A} (l : list A) : filter (fun _ => true) l = l.
Proof. induction l as [|a l IH]; simpl; [reflexivity | rewrite IH; reflexivity]. Qed.

Lemma earliest_In (l : list Task) (t : Task) :
  earliest l = Some t -> In t l.
Proof.
  revert t. induction l as [|a l IH]; intros t; simpl; [discriminate|].
  destruct (earliest l) as [u|].
  - destruct (Nat.ltb (task_due u) (task_due a)); intros H; inversion H; subst;
      auto.
  - intros H; inversion H; auto.
Qed.

Lemma earliest_None (l : list Task) : earliest l = None -> l = [].
Proof.
  destruct l as [|a l]; simpl; [reflexivity|].
  destruct (earliest l) as [u|]; [|discriminate].
  destruct (Nat.ltb (task_due u) (task_due a)); discriminate.
Qed.

Lemma earliest_least (l : list Task) (e : Task) :
  earliest l = Some e -> forall t, In t l -> task_due e <= task_due t.
Proof.
  revert e. induction l as [|a l IH]; intros e; simpl; [discriminate|].
  destruct (earliest l) as [u|] eqn:E.
  - destruct (Nat.ltb_spec (task_due u) (task_due a)) as [Hlt | Hge];
      intros H; inversion H; subst; intros t [<- | Hin]; try lia.
    + apply IH; auto.
    + specialize (IH u eq_refl t Hin). lia.
  - intros H; inversion H; subst. apply earliest_None in E. subst.
    intros t [<- | []]. lia.
Qed.

Lemma budget_app (l1 l2 : list Task) :
  budget (l1 ++ l2) = budget l1 + budget l2.
Proof. induction l1 as [|a l1 IH]; simpl; [reflexivity|]. rewrite IH. lia. Qed.

Lemma budget_filter (keep : Task -> bool) (l : list Task) :
  budget (filter keep l) <= budget l.
Proof.
  induction l as [|a l IH]; simpl; [lia|].
  destruct (keep a); simpl; lia.
Qed.

Lemma budget_remove (t : Task) (l : list Task) :
  In t l ->
  budget (filter (fun u => negb (Nat.eqb (task_id u) (task_id t))) l)
  + S (rearms (task_callback t)) <= budget l.
Proof.
  induction l as [|a l IH]; simpl; [contradiction|].
  intros [-> | Hin].
  - rewrite Nat.eqb_refl. simpl.
    pose proof (budget_filter
                  (fun u => negb (Nat.eqb (task_id u) (task_id t))) l). lia.
  - specialize (IH Hin).
    destruct (negb (Nat.eqb (task_id a) (task_id t))); simpl; lia.
Qed.

(** *** What a debounced call does to the world *)

Lemma debounced_fields map pixel (callback : Callback) options (w : World) :
  let w' := detectFeaturesAtPixelDebounced map pixel callback options w in
  let key := debounceKeyOrDefault options in
  let task := {| task_id := nextTimer w;
                 task_due := clock w + debounceDelayOr50 options;
                 task_key := key;
                 task_map := map;
                 task_pixel := pixel;
                 task_callback := callback;
                 task_options := options |} in
  pending w'
  = match mapGet key (debounceTimers (detector w)) with
    | Some existing =>
        filter (fun t => negb (Nat.eqb (task_id t) existing)) (pending w)
    | None => pending w
    end ++ [task] /\
  nextTimer w' = S (nextTimer w) /\
  clock w' = clock w /\
  invocations w' = invocations w /\
  tree (detector w') = tree (detector w) /\
  features (detector w') = features (detector w) /\
  debounceTimers (detector w')
  = mapSet key (nextTimer w) (debounceTimers (detector w)).
Proof.
  unfold detectFeaturesAtPixelDebounced.
  destruct (mapGet (debounceKeyOrDefault options) (debounceTimers (detector w)));
    simpl; repeat split; reflexivity.
Qed.

Lemma detectFeaturesAtPixel_tree map pixel options (d d' : Detector num) :
  tree d' = tree d ->
  detectFeaturesAtPixel map pixel options d'
  = detectFeaturesAtPixel map pixel options d.
Proof.
  intros E. unfold detectFeaturesAtPixel, detectFeaturesAtCoordinate, detectHits.
  rewrite E. reflexivity.
Qed.

(** *** Callbacks that throw *)

Lemma invoke_action (callback : Callback) timer fs (w : World) :
  invoke callback timer fs w = invoke (action callback) timer fs w.
Proof.
  induction callback as [label|label m p next _ o|body IH];
    cbn [invoke action]; auto.
Qed.

Lemma callbackLabel_action (callback : Callback) :
  callbackLabel (action callback) = callbackLabel callback.
Proof.
  induction callback as [label|label m p next _ o|body IH];
    cbn [callbackLabel action]; auto.
Qed.

Lemma rearms_action (callback : Callback) :
  rearms (action callback) = rearms callback.
Proof.
  induction callback as [label|label m p next _ o|body IH];
    cbn [rearms action]; auto.
Qed.

Lemma otherKeys_action (key : string) (callback : Callback) :
  otherKeys key callback -> otherKeys key (action callback).
Proof.
  induction callback as [label|label m p next _ o|body IH];
    cbn [otherKeys action]; auto.
Qed.

Lemma action_shape (callback : Callback) :
  match action callback with
  | Throws _ => False
  | _ => True
  end.
Proof.
  induction callback as [label|label m p next _ o|body IH];
    cbn [action]; auto.
Qed.

Lemma returns_throws (callback : Callback) :
  returns callback -> throws callback = false.
Proof. destruct callback; simpl; [reflexivity | reflexivity | contradiction]. Qed.

Lemma returns_action (callback : Callback) :
  returns callback -> action callback = callback.
Proof. destruct callback; simpl; [reflexivity | reflexivity | contradiction]. Qed.

(** Whether the closure reaches [debounceTimers.delete(key)] or not, the
    rest of the world is as the callback left it. *)
Lemma runTask_fields (task : Task) (w : World) :
  let w1 := invoke (task_callback task) (task_id task)
              (detectFeaturesAtPixel (task_map task) (task_pixel task)
                 (task_options task) (detector w)) w in
  pending (runTask task w) = pending w1 /\
  nextTimer (runTask task w) = nextTimer w1 /\
  clock (runTask task w) = clock w1 /\
  invocations (runTask task w) = invocations w1 /\
  tree (detector (runTask task w)) = tree (detector w1) /\
  features (detector (runTask task w)) = features (detector w1) /\
  debounceTimers (detector (runTask task w))
  = if throws (task_callback task) then debounceTimers (detector w1)
    else mapDelete (task_key task) (debounceTimers (detector w1)).
Proof.
  unfold runTask. destruct (throws (task_callback task)); simpl;
    repeat split; reflexivity.
Qed.

(** *** What running a timer does to the world *)

Lemma fire_fields (task : Task) (w : World) :
  let w' := fire task w in
  let rest := filter (fun t => negb (Nat.eqb (task_id t) (task_id task)))
                     (pending w) in
  invocations w'
  = invocations w ++
    [mkInvocation (task_id task) (callbackLabel (task_callback task))
       (detectFeaturesAtPixel (task_map task) (task_pixel task)
          (task_options task) (detector w))] /\
  tree (detector w') = tree (detector w) /\
  features (detector w') = features (detector w) /\
  nextTimer w <= nextTimer w' /\
  match action (task_callback task) with
  | Observe _ => pending w' = rest /\ nextTimer w' = nextTimer w
  | Rearm _ map pixel next options =>
      exists keep,
        pending w'
        = filter keep rest ++
          [{| task_id := nextTimer w;
              task_due := Nat.max (clock w) (task_due task)
                          + debounceDelayOr50 options;
              task_key := debounceKeyOrDefault options;
              task_map := map;
              task_pixel := pixel;
              task_callback := next;
              task_options := options |}] /\
        nextTimer w' = S (nextTimer w)
  | Throws _ => False
  end.
Proof.
  unfold fire.
  match goal with
  | |- context [runTask task ?w0] =>
      destruct (runTask_fields task w0) as (Rp & Rn & _ & Ri & Rt & Rf & _)
  end.
  cbv zeta. rewrite Rp, Rn, Ri, Rt, Rf. clear Rp Rn Ri Rt Rf.
  rewrite invoke_action, <- (callbackLabel_action (task_callback task)).
  pose proof (action_shape (task_callback task)) as Ha.
  destruct (action (task_callback task)) as [label|label m p next o|body];
    [| |contradiction].
  - simpl. repeat split; auto.
  - cbn [invoke callbackLabel].
    match goal with
    | |- context [detectFeaturesAtPixelDebounced m p next o ?w0] =>
        destruct (debounced_fields m p next o w0)
          as (Hp & Hn & Hc & Hi & Ht & Hf & Hm);
        set (w1 := detectFeaturesAtPixelDebounced m p next o w0) in *
    end.
    rewrite Hi, Ht, Hf, Hn, Hp. cbn.
    repeat split; auto.
    match goal with
    | |- context [mapGet ?k ?m] => destruct (mapGet k m) as [e|]
    end.
    + eexists. split; reflexivity.
    + exists (fun _ => true). split; [|reflexivity].
      rewrite filter_true. reflexivity.
Qed.

Lemma fire_budget (task : Task) (w : World) :
  In task (pending w) ->
  budget (pending (fire task w)) < budget (pending w).
Proof.
  intros Hin. pose proof (budget_remove task (pending w) Hin) as Hb.
  destruct (fire_fields task w) as (_ & _ & _ & _ & Hp).
  rewrite <- (rearms_action (task_callback task)) in Hb.
  destruct (action (task_callback task)) as [label|label m p next o|body].
  - destruct Hp as [-> _]. simpl in Hb. lia.
  - destruct Hp as (keep & -> & _). rewrite budget_app. simpl in *.
    pose proof (budget_filter keep
                  (filter (fun t => negb (Nat.eqb (task_id t) (task_id task)))
                          (pending w))). lia.
  - contradiction.
Qed.

Lemma budget_zero (l : list Task) : budget l = 0 -> l = [].
Proof. destruct l; simpl; [reflexivity | discriminate]. Qed.

Lemma runTimers_drains (fuel time : nat) :
  forall w : World,
    budget (pending w) <= fuel ->
    forall t, In t (pending (runTimers fuel time w)) -> time < task_due t.
Proof.
  induction fuel as [|fuel IH]; intros w Hb t; simpl.
  - rewrite (@budget_zero (pending w)) by lia. contradiction.
  - destruct (earliest (pending w)) as [task|] eqn:E.
    + destruct (Nat.leb_spec (task_due task) time) as [Hd | Hd].
      * apply IH. pose proof (fire_budget task w (earliest_In _ E)). lia.
      * intros Hin. pose proof (earliest_least _ E t Hin). lia.
    + rewrite (earliest_None _ E). contradiction.
Qed.

(** Time does advance: when [advanceTo time] returns, every timer that was
    due by [time] has run, also those set meanwhile by callbacks. *)
Lemma advanceTo_drains (time : nat) (w : World) :
  forall t, In t (pending (advanceTo time w)) -> time < task_due t.
Proof.
  unfold advanceTo. simpl. apply runTimers_drains. lia.
Qed.

(** The callbacks run from a queue whose handles are all at least [b] are
    called by timers with handles at least [b]. *)
Lemma runTimers_later (fuel time b : nat) :
  forall w : World,
    (forall t, In t (pending w) -> b <= task_id t) ->
    b <= nextTimer w ->
    exists later,
      invocations (runTimers fuel time w) = invocations w ++ later /\
      Forall (fun i => b <= inv_timer i) later /\
      tree (detector (runTimers fuel time w)) = tree (detector w).
Proof.
  induction fuel as [|fuel IH]; intros w Hp Hn; simpl.
  - exists []. rewrite app_nil_r. auto.
  - destruct (earliest (pending w)) as [task|] eqn:E;
      [|exists []; rewrite app_nil_r; auto].
    destruct (Nat.leb (task_due task) time);
      [|exists []; rewrite app_nil_r; auto].
    pose proof (earliest_In _ E) as Hin.
    destruct (fire_fields task w) as (Hi & Ht & _ & Hle & Hq).
    destruct (IH (fire task w)) as (later & Hl & Hall & Htree).
    + intros t Ht'.
      destruct (action (task_callback task)) as [label|label m p next o|body].
      * destruct Hq as [Hq _]. rewrite Hq in Ht'.
        apply filter_In in Ht' as [Ht' _]. auto.
      * destruct Hq as (keep & Hq & _). rewrite Hq in Ht'.
        apply in_app_or in Ht' as [Ht' | [<- | []]]; [|simpl; lia].
        apply filter_In in Ht' as [Ht' _].
        apply filter_In in Ht' as [Ht' _]. auto.
      * contradiction.
    + lia.
    + eexists. rewrite Hl, Hi, <- app_assoc. split; [reflexivity|].
      split; [|congruence].
      constructor; [simpl; auto | exact Hall].
Qed.

(** *** A burst of debounced calls *)

Lemma mapGet_mapSet (key : string) (value : nat) (m : list (string * nat)) :
  mapGet key (mapSet key value m) = Some value.
Proof.
  induction m as [|[k v] m IH]; simpl.
  - rewrite String.eqb_refl. reflexivity.
  - destruct (String.eqb k key) eqn:E; simpl; rewrite E; [reflexivity | exact IH].
Qed.

(** Before its delay has elapsed a lone timer does not run. *)
Lemma advanceTo_early (time : nat) (task : Task) (w : World) :
  pending w = [task] -> time < task_due task ->
  advanceTo time w
  = {| detector := detector w;
       pending := pending w;
       clock := Nat.max (clock w) time;
       nextTimer := nextTimer w;
       invocations := invocations w |}.
Proof.
  intros Hp Hd. unfold advanceTo.
  replace (budget (pending w)) with (S (rearms (task_callback task) + 0))
    by (rewrite Hp; reflexivity).
  cbn [runTimers].
  replace (earliest (pending w)) with (Some task) by (rewrite Hp; reflexivity).
  destruct (Nat.leb_spec (task_due task) time); [lia | reflexivity].
Qed.

Lemma advanceTo_idle (time : nat) (w : World) :
  pending w = [] ->
  advanceTo time w
  = {| detector := detector w;
       pending := pending w;
       clock := Nat.max (clock w) time;
       nextTimer := nextTimer w;
       invocations := invocations w |}.
Proof.
  intros Hp. unfold advanceTo.
  replace (budget (pending w)) with 0 by (rewrite Hp; reflexivity).
  reflexivity.
Qed.

Lemma issueCall_first (key : string) (w : World) (c : DebouncedCall num) :
  pending w = [] ->
  clock w <= call_time c ->
  debounceKeyOrDefault (call_options c) = key ->
  afterCall key (nextTimer w) c (issueCall w c) /\
  invocations (issueCall w c) = invocations w /\
  tree (detector (issueCall w c)) = tree (detector w).
Proof.
  intros Hp Hc Hk. unfold issueCall. rewrite (advanceTo_idle _ w Hp).
  match goal with
  | |- context [detectFeaturesAtPixelDebounced ?m ?p ?cb ?o ?w0] =>
      destruct (debounced_fields m p cb o w0)
        as (Hp' & Hn & Hcl & Hi & Ht & _ & Hm);
      set (w1 := detectFeaturesAtPixelDebounced m p cb o w0) in *
  end.
  cbn [pending detector clock nextTimer invocations] in *.
  unfold afterCall. rewrite Hp', Hn, Hcl, Hi, Ht, Hm, Hp, Hk.
  repeat split.
  - destruct (mapGet key (debounceTimers (detector w))); simpl;
      unfold taskOfCall, call_due; rewrite Hk;
      replace (Nat.max (clock w) (call_time c)) with (call_time c) by lia;
      reflexivity.
  - lia.
  - apply mapGet_mapSet.
Qed.

Lemma issueCall_next (key : string) (timer : nat) (w : World)
  (c c' : DebouncedCall num) :
  afterCall key timer c w ->
  debounceKeyOrDefault (call_options c') = key ->
  call_time c <= call_time c' ->
  call_time c' < call_due c ->
  afterCall key (S timer) c' (issueCall w c') /\
  invocations (issueCall w c') = invocations w /\
  tree (detector (issueCall w c')) = tree (detector w).
Proof.
  intros (Hp & Hc & Hn & Hm) Hk Hle Hlt. unfold issueCall.
  rewrite (@advanceTo_early (call_time c') (taskOfCall timer c) w Hp Hlt).
  match goal with
  | |- context [detectFeaturesAtPixelDebounced ?m ?p ?cb ?o ?w0] =>
      destruct (debounced_fields m p cb o w0)
        as (Hp' & Hn' & Hcl & Hi & Ht & _ & Hm');
      set (w1 := detectFeaturesAtPixelDebounced m p cb o w0) in *
  end.
  cbn [pending detector clock nextTimer invocations] in *.
  unfold afterCall. rewrite Hp', Hn', Hcl, Hi, Ht, Hm', Hk, Hm, Hp, Hn, Hc.
  repeat split.
  - cbn [filter taskOfCall task_id]. rewrite Nat.eqb_refl. cbn [negb app].
    unfold taskOfCall, call_due. rewrite Hk.
    replace (Nat.max (call_time c) (call_time c')) with (call_time c') by lia.
    reflexivity.
  - lia.
  - apply mapGet_mapSet.
Qed.

Lemma issueCalls_burst (key : string) (rest : list (DebouncedCall num)) :
  forall (timer : nat) (w : World) (c : DebouncedCall num),
    afterCall key timer c w ->
    burst key (call_time c) (call_due c) rest ->
    afterCall key (timer + length rest) (last rest c) (issueCalls rest w) /\
    invocations (issueCalls rest w) = invocations w /\
    tree (detector (issueCalls rest w)) = tree (detector w).
Proof.
  induction rest as [|c' rest IH]; intros timer w c Hw Hb.
  - simpl. rewrite Nat.add_0_r. auto.
  - destruct Hb as (Hk & Hle & Hlt & Hb).
    destruct (@issueCall_next key timer w c c' Hw Hk Hle Hlt) as (Hw' & Hi & Ht).
    destruct (IH (S timer) (issueCall w c') c' Hw' Hb) as (Hw'' & Hi' & Ht').
    unfold issueCalls in *. cbn [fold_left].
    replace (timer + length (c' :: rest)) with (S timer + length rest)
      by (simpl; lia).
    replace (last (c' :: rest) c) with (last rest c')
      by (clear; revert c'; induction rest as [|x rest IHr]; intros c';
          [reflexivity | simpl in *; destruct rest; auto]).
    split; [exact Hw''|]. split; congruence.
Qed.

(** C9: in a burst of debounced calls on one key, each issued before the
    delay of the one before has elapsed, from a world with no timer
    pending, only the timer of the last call stays pending and no callback
    runs during the burst; when the clock reaches its due time exactly that
    timer runs, and its callback receives what [detectFeaturesAtPixel]
    computes then from the map, pixel and options of the last call. No
    timer of an earlier call of the burst ever runs: the callbacks that run
    later were set by the callback itself. *)
Theorem debounce_burst_fires_last (key : string) (w0 : World)
  (c0 : DebouncedCall num) (rest : list (DebouncedCall num)) (time : nat) :
  pending w0 = [] ->
  clock w0 <= call_time c0 ->
  debounceKeyOrDefault (call_options c0) = key ->
  burst key (call_time c0) (call_due c0) rest ->
  let cn := last rest c0 in
  let timer := nextTimer w0 + length rest in
  let w := issueCalls (c0 :: rest) w0 in
  pending w = [taskOfCall timer cn] /\
  invocations w = invocations w0 /\
  (time < call_due cn -> invocations (advanceTo time w) = invocations w0) /\
  (call_due cn <= time ->
   exists later,
     invocations (advanceTo time w)
     = invocations w0 ++
       mkInvocation timer (callbackLabel (call_callback cn))
         (resultOfCall cn (detector w0)) :: later /\
     Forall (fun i => timer < inv_timer i) later /\
     (rearms (call_callback cn) = 0 -> later = [])).
Proof.
  intros Hp Hc Hk Hb cn timer w.
  destruct (@issueCall_first key w0 c0 Hp Hc Hk) as (H1 & Hi1 & Ht1).
  destruct (@issueCalls_burst key rest _ _ _ H1 Hb) as (H2 & Hi2 & Ht2).
  change (issueCalls rest (issueCall w0 c0)) with w in *.
  fold cn timer in H2. destruct H2 as (Hpw & Hcw & Hnw & Hmw).
  split; [exact Hpw|]. split; [congruence|]. split.
  - intros Hlt. rewrite (@advanceTo_early time (taskOfCall timer cn) w Hpw Hlt).
    cbn [invocations]. congruence.
  - intros Hle. unfold advanceTo. cbn [invocations]. rewrite Hpw.
    cbn [budget fold_right]. rewrite Nat.add_0_r. cbn [runTimers].
    rewrite Hpw. cbn [earliest].
    destruct (Nat.leb_spec (task_due (taskOfCall timer cn)) time) as [_ | Hgt];
      [|cbn [taskOfCall task_due] in Hgt; lia].
    destruct (fire_fields (taskOfCall timer cn) w) as (Hi & Ht & _ & Hn & Hq).
    set (w' := fire (taskOfCall timer cn) w) in *.
    destruct (@runTimers_later (rearms (task_callback (taskOfCall timer cn)))
                time (S timer) w') as (later & Hl & Hall & _).
    + intros t Hin. cbn [taskOfCall task_callback] in Hq.
      destruct (action (call_callback cn)) as [label|label m p next o|body].
      * destruct Hq as [Hq _]. rewrite Hq, Hpw in Hin.
        cbn [filter taskOfCall task_id] in Hin.
        rewrite Nat.eqb_refl in Hin. contradiction.
      * destruct Hq as (keep & Hq & _). rewrite Hq, Hpw in Hin.
        cbn [filter taskOfCall task_id] in Hin.
        rewrite Nat.eqb_refl in Hin. cbn [negb filter app] in Hin.
        destruct Hin as [<- | []]. cbn [task_id]. lia.
      * contradiction.
    + lia.
    + exists later. rewrite Hl, Hi, <- app_assoc. cbn [app].
      cbn [taskOfCall task_id task_callback task_map task_pixel task_options].
      split; [|split].
      * unfold resultOfCall.
        rewrite (@detectFeaturesAtPixel_tree _ _ _ (detector w0) (detector w))
          by congruence.
        rewrite Hi2, Hi1. reflexivity.
      * exact Hall.
      * intros Hz. cbn [taskOfCall task_callback] in Hl. rewrite Hz in Hl.
        cbn [runTimers] in Hl.
        apply (f_equal (@length _)) in Hl. rewrite length_app in Hl.
        destruct later; [reflexivity | simpl in Hl; lia].
Qed.

(** *** Cancelling *)

Lemma mapGet_mapSet_other (k key : string) (value : nat)
  (m : list (string * nat)) :
  k <> key -> mapGet k (mapSet key value m) = mapGet k m.
Proof.
  intros Hk. induction m as [|[k' v] m IH]; simpl.
  - destruct (String.eqb_spec key k); [congruence | reflexivity].
  - destruct (String.eqb_spec k' key) as [-> | Hn]; simpl.
    + destruct (String.eqb_spec key k); [congruence | reflexivity].
    + destruct (String.eqb k' k); [reflexivity | exact IH].
Qed.

Lemma mapGet_mapDelete_other (k key : string) (m : list (string * nat)) :
  k <> key -> mapGet k (mapDelete key m) = mapGet k m.
Proof.
  intros Hk. induction m as [|[k' v] m IH]; simpl; [reflexivity|].
  destruct (String.eqb_spec k' key) as [-> | Hn]; simpl.
  - destruct (String.eqb_spec key k); [congruence | exact IH].
  - destruct (String.eqb k' k); [reflexivity | exact IH].
Qed.

Lemma mapGet_In (k : string) (v : nat) (m : list (string * nat)) :
  mapGet k m = Some v -> In v (map snd m).
Proof.
  induction m as [|[k' v'] m IH]; simpl; [discriminate|].
  destruct (String.eqb k' k); [intros H; inversion H; auto | auto].
Qed.

Lemma clearTimeouts_fields (timers : list (string * nat)) :
  forall w : World,
    let w' := fold_left (fun w' kv => clearTimeout (snd kv) w') timers w in
    detector w' = detector w /\
    clock w' = clock w /\
    nextTimer w' = nextTimer w /\
    invocations w' = invocations w /\
    forall t, In t (pending w') <->
              In t (pending w) /\ ~ In (task_id t) (map snd timers).
Proof.
  induction timers as [|[k v] timers IH]; intros w; simpl.
  - repeat split; tauto.
  - destruct (IH (clearTimeout v w)) as (Hd & Hc & Hn & Hi & Hp).
    repeat split; try assumption.
    + apply Hp in H. destruct H as [H _]. simpl in H.
      apply filter_In in H. tauto.
    + apply Hp in H. destruct H as [H1 H2]. simpl in H1.
      apply filter_In in H1 as [_ H1]. intros [-> | Hin]; [|tauto].
      rewrite Nat.eqb_refl in H1. discriminate.
    + intros [H1 H2]. apply Hp. split; [|tauto]. simpl. apply filter_In.
      split; [exact H1|]. destruct (Nat.eqb_spec (task_id t) v); [|reflexivity].
      subst. tauto.
Qed.

(** [clearDebounceTimers] twice is [clearDebounceTimers] once. *)
Lemma clearDebounceTimers_idempotent (w : World) :
  clearDebounceTimers (clearDebounceTimers w) = clearDebounceTimers w.
Proof. reflexivity. Qed.

(** When every pending timer is registered, [clearDebounceTimers] leaves
    none pending, and no callback runs however far the clock advances. *)
Lemma clearDebounceTimers_cancels (w : World) :
  allRegistered w ->
  pending (clearDebounceTimers w) = [] /\
  debounceTimers (detector (clearDebounceTimers w)) = [] /\
  forall time,
    invocations (advanceTo time (clearDebounceTimers w)) = invocations w.
Proof.
  intros Hreg.
  destruct (clearTimeouts_fields (debounceTimers (detector w)) w)
    as (_ & _ & _ & Hi & Hp).
  assert (E : pending (clearDebounceTimers w) = []).
  { unfold clearDebounceTimers. cbn [withTimers pending].
    destruct (fold_left _ _ _) as [d [|t l] c n i] eqn:F; [reflexivity|].
    exfalso. cbn [pending] in Hp.
    destruct (proj1 (Hp t) (or_introl eq_refl)) as [Hin Hnot].
    apply Hnot. eapply mapGet_In. apply Hreg. exact Hin. }
  split; [exact E|]. split; [reflexivity|].
  intros time. rewrite (advanceTo_idle time _ E). cbn [invocations].
  unfold clearDebounceTimers. cbn [withTimers invocations]. exact Hi.
Qed.

(** [clear()] is a full reset: no feature, an empty index that answers
    every query with the empty sequence, and, when every pending timer is
    registered, no timer left. *)
Lemma clear_resets (w : World) :
  allRegistered w ->
  features (detector (clear w)) = [] /\
  rb_all (tree (detector (clear w))) = [] /\
  debounceTimers (detector (clear w)) = [] /\
  pending (clear w) = [] /\
  forall P t, detectFeaturesAtCoordinate P t (detector (clear w)) = [].
Proof.
  intros Hreg. unfold clear.
  match goal with
  | |- context [clearDebounceTimers ?w0] =>
      destruct (@clearDebounceTimers_cancels w0 Hreg) as (Hp & _);
      destruct (clearTimeouts_fields (debounceTimers (detector w0)) w0)
        as (Hd & _)
  end.
  split; [|split; [|split; [|split]]].
  - unfold clearDebounceTimers. cbn [withTimers detector features].
    cbn [detector] in Hd. rewrite Hd. reflexivity.
  - unfold clearDebounceTimers. cbn [withTimers detector tree].
    cbn [detector] in Hd. rewrite Hd. reflexivity.
  - reflexivity.
  - exact Hp.
  - intros P t. unfold detectFeaturesAtCoordinate.
    rewrite detectHits_empty_tree; [reflexivity|].
    unfold clearDebounceTimers. cbn [withTimers detector tree].
    cbn [detector] in Hd. rewrite Hd. reflexivity.
Qed.

Lemma initialWorld_registered (d : Detector num) :
  allRegistered (initialWorld d) /\ wellKeyed (initialWorld d).
Proof. split; intros t []. Qed.

Lemma debounced_registered map pixel (callback : Callback) options (w : World) :
  allRegistered w ->
  allRegistered (detectFeaturesAtPixelDebounced map pixel callback options w).
Proof.
  intros Hreg t Hin.
  destruct (debounced_fields map pixel callback options w)
    as (Hp & _ & _ & _ & _ & _ & Hm).
  rewrite Hm. rewrite Hp in Hin.
  apply in_app_or in Hin as [Hin | [<- | []]];
    [|cbn [task_key task_id]; apply mapGet_mapSet].
  destruct (string_dec (task_key t) (debounceKeyOrDefault options)) as [E | E].
  - exfalso. rewrite <- E in Hin.
    destruct (mapGet (task_key t) (debounceTimers (detector w))) as [e|] eqn:G.
    + apply filter_In in Hin as [Hin Hne]. rewrite (Hreg t Hin) in G.
      inversion G; subst. rewrite Nat.eqb_refl in Hne. discriminate.
    + rewrite (Hreg t Hin) in G. discriminate.
  - rewrite mapGet_mapSet_other by exact E. apply Hreg.
    destruct (mapGet _ _); [apply filter_In in Hin; tauto | exact Hin].
Qed.

Lemma debounced_wellKeyed map pixel (callback : Callback) options (w : World) :
  wellKeyed w ->
  otherKeys (debounceKeyOrDefault options) callback ->
  wellKeyed (detectFeaturesAtPixelDebounced map pixel callback options w).
Proof.
  intros Hw Hc t Hin.
  destruct (debounced_fields map pixel callback options w) as (Hp & _).
  rewrite Hp in Hin. apply in_app_or in Hin as [Hin | [<- | []]]; [|exact Hc].
  apply Hw. destruct (mapGet _ _); [apply filter_In in Hin; tauto | exact Hin].
Qed.

Lemma fire_registered (task : Task) (w : World) :
  allRegistered w -> wellKeyed w -> In task (pending w) ->
  allRegistered (fire task w) /\ wellKeyed (fire task w).
Proof.
  intros Hreg Hwk Hin.
  set (w0 := {| detector := detector w;
                pending := filter (fun t => negb (Nat.eqb (task_id t) (task_id task)))
                                  (pending w);
                clock := Nat.max (clock w) (task_due task);
                nextTimer := nextTimer w;
                invocations := invocations w |}).
  assert (Hreg0 : allRegistered w0).
  { intros t Ht. cbn [w0 pending] in Ht. apply filter_In in Ht as [Ht _].
    exact (Hreg t Ht). }
  assert (Hwk0 : wellKeyed w0).
  { intros t Ht. cbn [w0 pending] in Ht. apply filter_In in Ht as [Ht _].
    exact (Hwk t Ht). }
  assert (Hkey0 : forall t, In t (pending w0) -> task_key t <> task_key task).
  { intros t Ht E. cbn [w0 pending] in Ht. apply filter_In in Ht as [Ht Hne].
    pose proof (Hreg t Ht) as H1. pose proof (Hreg task Hin) as H2.
    rewrite E, H2 in H1. inversion H1 as [H3]. rewrite H3, Nat.eqb_refl in Hne.
    discriminate. }
  pose proof (otherKeys_action _ _ (Hwk task Hin)) as Hother.
  unfold fire. fold w0.
  destruct (runTask_fields task w0) as (Rp & _ & _ & _ & _ & _ & Rm).
  cbv zeta in Rp, Rm. rewrite invoke_action in Rp, Rm.
  unfold allRegistered, wellKeyed. rewrite Rp, Rm. clear Rp Rm.
  pose proof (action_shape (task_callback task)) as Ha.
  destruct (action (task_callback task)) as [label|label m p next o|body];
    [| |contradiction]; cbn [invoke].
  - split; intros t Ht; cbn [record pending detector] in Ht |- *.
    + destruct (throws (task_callback task)); [exact (Hreg0 t Ht)|].
      rewrite mapGet_mapDelete_other by (apply Hkey0; exact Ht).
      exact (Hreg0 t Ht).
    + exact (Hwk0 t Ht).
  - destruct Hother as [Hne Hnext].
    set (w1 := record (task_id task) label _ w0).
    assert (Hreg1 : allRegistered w1) by exact Hreg0.
    assert (Hwk1 : wellKeyed w1) by exact Hwk0.
    pose proof (@debounced_registered m p next o w1 Hreg1) as Hreg2.
    pose proof (@debounced_wellKeyed m p next o w1 Hwk1 Hnext) as Hwk2.
    destruct (debounced_fields m p next o w1) as (Hp & _).
    set (w2 := detectFeaturesAtPixelDebounced m p next o w1) in *.
    split; intros t Ht.
    + destruct (throws (task_callback task)); [exact (Hreg2 t Ht)|].
      rewrite mapGet_mapDelete_other; [exact (Hreg2 t Ht)|].
      rewrite Hp in Ht. apply in_app_or in Ht as [Ht | [<- | []]];
        [|cbn [task_key]; exact Hne].
      apply Hkey0. cbn [w1 record pending] in Ht.
      destruct (mapGet _ _); [apply filter_In in Ht; tauto | exact Ht].
    + exact (Hwk2 t Ht).
Qed.

Lemma runTimers_registered (fuel time : nat) :
  forall w : World,
    allRegistered w -> wellKeyed w ->
    allRegistered (runTimers fuel time w) /\ wellKeyed (runTimers fuel time w).
Proof.
  induction fuel as [|fuel IH]; intros w Hreg Hwk; simpl; [auto|].
  destruct (earliest (pending w)) as [task|] eqn:E; [|auto].
  destruct (Nat.leb (task_due task) time); [|auto].
  destruct (@fire_registered task w Hreg Hwk (earliest_In _ E)).
  apply IH; assumption.
Qed.

(** As long as no callback debounces again on the key of its own call,
    every pending timer stays registered while the clock advances. *)
Lemma advanceTo_registered (time : nat) (w : World) :
  allRegistered w -> wellKeyed w ->
  allRegistered (advanceTo time w) /\ wellKeyed (advanceTo time w).
Proof.
  intros Hreg Hwk. unfold advanceTo.
  destruct (@runTimers_registered (budget (pending w)) time w Hreg Hwk).
  split; assumption.
Qed.

End TimerFacts.

Section TimerRuns.

Import Float64 Sample.
Local Existing Instance linearSearch.
Local Existing Instance exteriorRingTest.
Local Open Scope float_scope.

Lemma debounce_burst_fires_last_witness :
  let w0 := initialWorld (detectorOf [pointFeature]) in
  let cn := last nextMoves firstMove in
  let timer := (nextTimer w0 + length nextMoves)%nat in
  let w := issueCalls (firstMove :: nextMoves) w0 in
  pending w = [taskOfCall timer cn] /\
  invocations w = invocations w0 /\
  ((100 < call_due cn)%nat ->
   invocations (advanceTo 100 w) = invocations w0) /\
  ((call_due cn <= 100)%nat ->
   exists later,
     invocations (advanceTo 100 w)
     = invocations w0 ++
       mkInvocation timer (callbackLabel (call_callback cn))
         (resultOfCall cn (detector w0)) :: later /\
     Forall (fun i => (timer < inv_timer i)%nat) later /\
     (rearms (call_callback cn) = 0%nat -> later = [])).
Proof.
  apply (@debounce_burst_fires_last float _ _ _ "hover"%string
           (initialWorld (detectorOf [pointFeature])) firstMove nextMoves
           100%nat).
  - reflexivity.
  - simpl. lia.
  - reflexivity.
  - simpl. repeat split; try reflexivity; vm_compute; lia.
Defined.

(** C10, at the failing input: the callback of a debounced call on the key
    "hover" debounces again on "hover" when it runs, at 50 ms. The timer it
    sets (handle 1) is pending but no more registered, since the closure
    deletes the key after the callback; [clearDebounceTimers] then cancels
    nothing, and the callback set before it runs at 100 ms. *)
Lemma rearmed_timer_survives_clear :
  let w1 := detectFeaturesAtPixelDebounced identityView (0, 0)
              rearmingCallback (hover 50)
              (initialWorld (detectorOf [pointFeature])) in
  let w2 := advanceTo 50 w1 in
  let w3 := clearDebounceTimers w2 in
  map (@inv_label float) (invocations w2) = [1%nat] /\
  map (@task_id float) (pending w2) = [1%nat] /\
  debounceTimers (detector w2) = [] /\
  map (@task_id float) (pending w3) = [1%nat] /\
  map (@inv_label float) (invocations w3) = [1%nat] /\
  map (@inv_label float) (invocations (advanceTo 100 w3)) = [1%nat; 2%nat].
Proof. vm_compute. repeat split; reflexivity. Qed.

End TimerRuns.

(** ** The same laws, run on binary64 numbers *)

Section Float64Runs.

Import Float64 Sample.
Local Existing Instance linearSearch.
Local Existing Instance exteriorRingTest.
Local Open Scope float_scope.

(** [Math.max] and [Math.min] on signed zeros and NaN, and the falsy
    numbers. *)
Example math_max_min :
  js_max (-0) 0 = 0 /\ js_max 0 (-0) = 0 /\
  js_min 0 (-0) = -0 /\ js_min (-0) 0 = -0 /\
  js_max nan 1 = nan /\ js_min 1 nan = nan /\
  js_max 1 2 = 2 /\ js_min 1 2 = 1 /\
  n_truthy 0 = false /\ n_truthy (-0) = false /\ n_truthy nan = false /\
  n_truthy 5 = true.
Proof. vm_compute. repeat split; reflexivity. Qed.

(** At distance exactly the tolerance the point is returned; with a smaller
    tolerance it is not. *)
Example tolerance_boundary :
  detectHits (3, 4) 5 (detectorOf [pointFeature]) = [mkHit pointFeature 5] /\
  detectFeaturesAtCoordinate (3, 4) 4.5 (detectorOf [pointFeature]) = [] /\
  detectHits (0, 0) 0 (detectorOf [pointFeature]) = [mkHit pointFeature 0].
Proof. vm_compute. repeat split; reflexivity. Qed.

(** The projection inside the segment, clamped to an endpoint, and the
    degenerate segment. *)
Example segment_distances :
  getDistanceToSegment (2, 3) (0, 0) (4, 0) = 3 /\
  getDistanceToSegment (7, 4) (0, 0) (4, 0) = 5 /\
  getDistanceToSegment (-3, 4) (0, 0) (4, 0) = 5 /\
  getDistanceToSegment (3, 4) (0, 0) (0, 0) = 5.
Proof. vm_compute. repeat split; reflexivity. Qed.

(** At the joint of the bent line both segment items and the whole-extent
    item are candidates. The line is returned once, with the distance of
    the first of its candidates within tolerance ([0.5], to the segment
    that ends at the joint), hence after the point at [0.25]. *)
Example joint_query :
  length (rb_search (tree (detectorOf [bentLine; mkFeature 5 (Some (Point (4, 0.25)))]))
                    (queryBox (4, 0.5) 1)) = 4%nat /\
  detectHits (4, 0.5) 1
    (detectorOf [bentLine; mkFeature 5 (Some (Point (4, 0.25)))])
  = [mkHit (mkFeature 5 (Some (Point (4, 0.25)))) 0.25; mkHit bentLine 0.5].
Proof. vm_compute. repeat split; reflexivity. Qed.

(** Without a re-arming callback the burst of five moves leaves one timer,
    which [clearDebounceTimers] cancels: nothing runs afterwards. *)
Example burst_then_clear :
  let w := issueCalls (firstMove :: nextMoves)
             (initialWorld (detectorOf [pointFeature])) in
  map (@task_id float) (pending w) = [4%nat] /\
  map (@inv_label float) (invocations (advanceTo 1000 w)) = [5%nat] /\
  map (@inv_features float) (invocations (advanceTo 1000 w)) = [[pointFeature]] /\
  pending (clearDebounceTimers w) = [] /\
  invocations (advanceTo 1000 (clearDebounceTimers w)) = [].
Proof. vm_compute. repeat split; reflexivity. Qed.

End Float64Runs.


(** * More properties *)

(** ** Which features a query returns *)

Section FeatureFacts.

Variable num : Type.
Context {N : Number num} {PT : PolygonTest num} {RB : @RBush num N}.
Local Open Scope num_scope.

Variables (fs : list (Feature num)) (d d' : Detector num).
Hypothesis Hupdate : updateFeatures fs d = Normal d'.

Lemma updated_tree : tree d' = flat_map (@itemsOf num N) fs.
Proof. apply updateFeatures_Normal in Hupdate as [-> _]. reflexivity. Qed.

Lemma updated_features : features d' = fs.
Proof. apply updateFeatures_Normal in Hupdate as [-> _]. reflexivity. Qed.

(** A hit comes from an item of its feature that meets the query box,
    within tolerance. *)
Lemma hit_item P t (h : Hit num) :
  In h (detectHits P t d') ->
  In (hit_feature h) fs /\
  exists item,
    In item (itemsOf (hit_feature h)) /\
    intersects (queryBox P t) item = true /\
    candidateDistance P item = hit_distance h /\
    (hit_distance h <=? t) = true.
Proof.
  intros Hh. pose proof (detectHits_sound P t d') as Hs.
  rewrite Forall_forall in Hs.
  destruct (Hs h Hh) as (item & Hc & Hf & Hd & Hle).
  apply rb_search_In in Hc as [Hc Hbox]. rewrite updated_tree in Hc.
  apply flat_map_itemsOf_In in Hc as [Hfs Hc]. rewrite Hf in Hfs, Hc.
  split; [exact Hfs|]. exists item. auto.
Qed.

(** An item of a feature of the sequence that meets the query box within
    tolerance makes a hit with the identity of the feature. *)
Lemma item_hit P t (f : Feature num) (item : IndexItem num) :
  In f fs -> In item (itemsOf f) ->
  intersects (queryBox P t) item = true ->
  (candidateDistance P item <=? t) = true ->
  exists h, In h (detectHits P t d') /\ fid (hit_feature h) = fid f.
Proof.
  intros Hin Hitem Hbox Hle.
  assert (Hid : In (fid f)
                   (map (@fid num) (detectFeaturesAtCoordinate P t d'))).
  { apply detect_In_id. exists item. split; [|split].
    - apply rb_search_In. split; [|exact Hbox]. rewrite updated_tree.
      apply in_flat_map. eauto.
    - rewrite (itemsOf_feature f item Hitem). reflexivity.
    - exact Hle. }
  unfold detectFeaturesAtCoordinate in Hid. rewrite map_map in Hid.
  apply in_map_iff in Hid as (h & Hh1 & Hh2). eauto.
Qed.

End FeatureFacts.

Section QueryLaws.

Variable num : Type.
Context {N : Number num} {PT : PolygonTest num}.
Local Open Scope num_scope.

Lemma detect_ids_NoDup {RB : @RBush num N} (d : Detector num) P t :
  NoDup (map (@fid num) (detectFeaturesAtCoordinate P t d)).
Proof.
  destruct (scanned_spec P t d) as (Hnd & _ & _).
  unfold detectFeaturesAtCoordinate. rewrite map_map.
  eapply Permutation_NoDup; [|exact Hnd].
  apply Permutation_sym, Permutation_map, detectHits_perm.
Qed.

(** X1: after a successful [updateFeatures(fs)] a query returns tracked
    features only: every returned feature is one of [fs] (the sequence the
    detector holds), has a geometry, and owns an index item whose box meets
    the query box and whose exact distance is within the tolerance. *)
Theorem detect_returns_tracked {RB : @RBush num N}
  (fs : list (Feature num)) (d d' : Detector num) P t (f : Feature num) :
  updateFeatures fs d = Normal d' ->
  In f (detectFeaturesAtCoordinate P t d') ->
  In f fs /\ In f (features d') /\ getGeometry f <> None /\
  exists item,
    In item (itemsOf f) /\
    intersects (queryBox P t) item = true /\
    (candidateDistance P item <=? t) = true.
Proof.
  intros Hup Hf. unfold detectFeaturesAtCoordinate in Hf.
  apply in_map_iff in Hf as (h & <- & Hh).
  destruct (@hit_item _ _ _ _ fs d d' Hup P t h Hh)
    as (Hin & item & Hi & Hb & Hd & Hle).
  split; [exact Hin|].
  split; [rewrite (@updated_features _ _ fs d d' Hup); exact Hin|].
  split.
  - apply updateFeatures_Normal in Hup as [_ Hall]. auto.
  - exists item. rewrite Hd. auto.
Qed.

(** X2: which features a query returns does not depend on the order in
    which the tree enumerates its items: two trees that answer [search]
    with the same items in different orders return the same features,
    possibly in another order. *)
Theorem detect_any_enumeration (RB1 RB2 : @RBush num N)
  (d : Detector num) P t :
  Permutation
    (map (@fid num) (detectFeaturesAtCoordinate (RB := RB1) P t d))
    (map (@fid num) (detectFeaturesAtCoordinate (RB := RB2) P t d)).
Proof.
  apply NoDup_Permutation.
  - apply (detect_ids_NoDup (RB := RB1)).
  - apply (detect_ids_NoDup (RB := RB2)).
  - intros id. rewrite (detect_In_id (RB := RB1)), (detect_In_id (RB := RB2)).
    split; intros (c & Hc & Hid & Hd); exists c;
      (split; [|auto]); apply rb_search_In; apply rb_search_In in Hc; exact Hc.
Qed.

End QueryLaws.


(** ** Lines, on exact numbers *)

Module LineFacts.

Import Exact SegmentSpec LineSpec ExactFacts.
Local Open Scope R_scope.

Lemma getDistanceToSegment_exact (p a b : R * R) :
  getDistanceToSegment (exact p) (exact a) (exact b)
  = Finite (segmentDistance p a b).
Proof.
  destruct p as [px py], a as [ax ay], b as [bx by_].
  unfold getDistanceToSegment, segmentDistance, samePoint, exact,
    euclidean, pointAt, projectionParameter.
  cbn [fst snd n_sub n_add n_mul n_div n_eqb n_zero n_one n_max n_min
       n_sqrt number].
  rewrite !sub_Finite, !mul_Finite, !add_Finite, !eqb_Finite.
  assert (Hsame : Reqb (bx - ax) 0 && Reqb (by_ - ay) 0
                  = Reqb ax bx && Reqb ay by_).
  { rdec; try reflexivity; lra. }
  rewrite Hsame.
  destruct (Reqb ax bx && Reqb ay by_) eqn:E.
  - apply sqrt_Finite, sum_squares_nonneg.
  - assert (Hd : (bx - ax) * (bx - ax) + (by_ - ay) * (by_ - ay) <> 0).
    { clear Hsame. apply andb_false_iff in E.
      rdec; destruct E; try discriminate; nra. }
    rewrite div_Finite by exact Hd. rewrite clamp_exact.
    rewrite !mul_Finite, !add_Finite, !sub_Finite, !mul_Finite, !add_Finite.
    apply sqrt_Finite, sum_squares_nonneg.
Qed.

Lemma clamp01_range q : 0 <= clamp01 q <= 1.
Proof.
  unfold clamp01. destruct (Rlt_dec q 0); [lra|].
  destruct (Rlt_dec 1 q); lra.
Qed.

(** The distance to a segment is the distance to one of its points. *)
Lemma segmentDistance_attained (p a b : R * R) :
  exists s, 0 <= s <= 1 /\
            segmentDistance p a b = euclidean p (pointAt a b s).
Proof.
  unfold segmentDistance. destruct (samePoint a b).
  - exists 0. split; [lra|]. unfold euclidean, pointAt. cbn [fst snd].
    f_equal. ring.
  - exists (clamp01 (projectionParameter p a b)).
    split; [apply clamp01_range | reflexivity].
Qed.

Lemma segmentDistance_nonneg p a b : 0 <= segmentDistance p a b.
Proof.
  destruct (segmentDistance_attained p a b) as (s & _ & ->). apply sqrt_pos.
Qed.

Lemma min_toX (m : option R) (x : R) :
  min (toX m) (Finite x) = toX (optMin m x).
Proof.
  destruct m as [r|]; simpl; [|reflexivity].
  unfold Rmin. rdec; try reflexivity; f_equal; lra.
Qed.

(** What the running minimum ends with. *)
Lemma least_spec (l : list R) :
  forall m : option R,
    match fold_left optMin l m with
    | None => m = None /\ l = []
    | Some r =>
        (m = Some r \/ In r l) /\
        (forall a, m = Some a -> r <= a) /\
        (forall x, In x l -> r <= x)
    end.
Proof.
  induction l as [|x l IH]; intros m; simpl.
  - destruct m as [r|]; [|auto]. split; [auto|]. split.
    + intros a H. inversion H. lra.
    + intros x [].
  - specialize (IH (optMin m x)).
    destruct (fold_left optMin l (optMin m x)) as [r|];
      [|destruct IH as [IH _]; discriminate].
    destruct IH as (Hin & Hle & Hall).
    assert (Hx : r <= x /\ forall a, m = Some a -> r <= a).
    { specialize (Hle _ eq_refl). destruct m as [a|].
      - unfold Rmin in Hle. destruct (Rle_dec a x); split; try lra;
          intros a' H'; inversion H'; lra.
      - split; [lra | discriminate]. }
    split; [|split].
    + destruct Hin as [Hin | Hin]; [|right; right; exact Hin].
      inversion Hin as [Hr]. destruct m as [a|].
      * unfold Rmin. destruct (Rle_dec a x);
          [left; reflexivity | right; left; reflexivity].
      * right. left. reflexivity.
    + exact (proj2 Hx).
    + intros y [<- | Hy]; [exact (proj1 Hx) | auto].
Qed.

Lemma least_zero (l : list R) :
  (forall x, In x l -> 0 <= x) ->
  fold_left optMin l (Some 0) = Some 0.
Proof.
  induction l as [|x l IH]; intros H; simpl; [reflexivity|].
  unfold optMin at 2. unfold Rmin. destruct (Rle_dec 0 x) as [_ | Hn].
  - apply IH. intros y Hy. apply H. simpl. auto.
  - exfalso. apply Hn. apply H. simpl. auto.
Qed.

Lemma scanVertices_exact (p : R * R) (vs : list (R * R)) :
  forall m : option R,
    scanVertices (exact p) (map exact vs) (toX m)
    = toX (fold_left optMin (map (euclidean p) vs) m).
Proof.
  unfold scanVertices.
  induction vs as [|v vs IH]; intros m; cbn [map fold_left]; [reflexivity|].
  change (n_sqrt
            (n_add (n_mul (n_sub (fst (exact p)) (fst (exact v)))
                          (n_sub (fst (exact p)) (fst (exact v))))
                   (n_mul (n_sub (snd (exact p)) (snd (exact v)))
                          (n_sub (snd (exact p)) (snd (exact v))))))
    with (getDistanceToPoint (exact p) (exact v)).
  rewrite getDistanceToPoint_exact.
  change (n_min (toX m) (Finite (euclidean p v)))
    with (min (toX m) (Finite (euclidean p v))).
  rewrite min_toX. apply IH.
Qed.

Lemma scanSegments_step (c : Coordinate xreal) c1 c2 rest (m : xreal) :
  scanSegments c (c1 :: c2 :: rest) m
  = if n_eqb (n_min m (getDistanceToSegment c c1 c2)) n_zero
    then inl n_zero
    else scanSegments c (c2 :: rest)
           (n_min m (getDistanceToSegment c c1 c2)).
Proof. reflexivity. Qed.

Lemma scanSegments_exact (p : R * R) (coords : list (R * R)) :
  forall m : option R,
    match scanSegments (exact p) (map exact coords) (toX m) with
    | inr r => r = toX (fold_left optMin (segmentDistances p coords) m)
    | inl r =>
        r = Finite 0 /\
        exists l1 l2, segmentDistances p coords = l1 ++ l2 /\
                      fold_left optMin l1 m = Some 0
    end.
Proof.
  induction coords as [|a [|b rest] IH]; intros m; try reflexivity.
  change (map exact (a :: b :: rest))
    with (exact a :: exact b :: map exact rest).
  rewrite scanSegments_step, getDistanceToSegment_exact.
  change (n_min (toX m) (Finite (segmentDistance p a b)))
    with (min (toX m) (Finite (segmentDistance p a b))).
  rewrite min_toX.
  change (segmentDistances p (a :: b :: rest))
    with (segmentDistance p a b :: segmentDistances p (b :: rest)).
  set (m' := optMin m (segmentDistance p a b)).
  assert (Hm : exists r, m' = Some r) by (unfold m', optMin; eauto).
  destruct Hm as [r Hr]. rewrite Hr. cbn [toX n_eqb n_zero number eqb].
  unfold Reqb. destruct (Req_dec_T r 0) as [Hz | Hne].
  - subst r. split; [reflexivity|].
    exists [segmentDistance p a b], (segmentDistances p (b :: rest)).
    split; [reflexivity|]. simpl. fold m'. exact Hr.
  - specialize (IH (Some r)). cbn [toX] in IH.
    change (exact b :: map exact rest) with (map exact (b :: rest)).
    destruct (scanSegments (exact p) (map exact (b :: rest)) (Finite r))
      as [r' | r'].
    + cbn beta iota in IH. destruct IH as (Hr' & l1 & l2 & Hl & Hf). subst r'. split; [reflexivity|].
      exists (segmentDistance p a b :: l1), l2. rewrite Hl.
      split; [reflexivity|]. cbn [fold_left]. fold m'. rewrite Hr. exact Hf.
    + cbn [fold_left]. fold m'. rewrite Hr. exact IH.
Qed.

Lemma lineDistances_nonneg p coords x :
  In x (lineDistances p coords) -> 0 <= x.
Proof.
  unfold lineDistances. intros H. apply in_app_or in H as [H | H];
    apply in_map_iff in H as (y & <- & _);
    [apply segmentDistance_nonneg | apply sqrt_pos].
Qed.

(** [getDistanceToLineString] is the least of the distances to the
    segments and to the vertices, [Infinity] when there is none. *)
Lemma getDistanceToLineString_least (p : R * R) (coords : list (R * R)) :
  getDistanceToLineString (exact p) (map exact coords)
  = toX (fold_left optMin (lineDistances p coords) None).
Proof.
  unfold getDistanceToLineString, lineDistances.
  rewrite fold_left_app. fold (segmentDistances p coords).
  pose proof (scanSegments_exact p coords None) as H.
  change (toX None) with (n_infinity (num := xreal)) in H.
  destruct (scanSegments (exact p) (map exact coords) n_infinity) as [r | r].
  - destruct H as (-> & l1 & l2 & Hl & Hf).
    rewrite Hl, fold_left_app, Hf, <- fold_left_app.
    rewrite least_zero; [reflexivity|].
    intros x Hx. apply (lineDistances_nonneg p coords).
    unfold lineDistances. fold (segmentDistances p coords). rewrite Hl.
    rewrite <- app_assoc. apply in_or_app. right. exact Hx.
  - rewrite H. apply scanVertices_exact.
Qed.

Lemma segmentsOf_In (coords : list (R * R)) a b :
  In (a, b) (segmentsOf coords) -> In a coords /\ In b coords.
Proof.
  induction coords as [|x [|y rest] IH]; try contradiction.
  change (segmentsOf (x :: y :: rest)) with ((x, y) :: segmentsOf (y :: rest)).
  intros [H | H].
  - inversion H; subst. simpl. auto.
  - destruct (IH H). simpl in *. tauto.
Qed.

(** The distance to a polyline with a coordinate is the distance to the
    nearest of its points. *)
Lemma lineString_nearest (p : R * R) (coords : list (R * R)) :
  coords <> [] ->
  exists q,
    onLine q coords /\
    getDistanceToLineString (exact p) (map exact coords)
    = Finite (euclidean p q) /\
    forall q', onLine q' coords -> euclidean p q <= euclidean p q'.
Proof.
  intros Hne. rewrite getDistanceToLineString_least.
  pose proof (least_spec (lineDistances p coords) None) as H.
  destruct (fold_left optMin (lineDistances p coords) None) as [r|].
  - destruct H as (Hin & _ & Hall). destruct Hin as [Hin | Hin];
      [discriminate|].
    assert (Hq : exists q, onLine q coords /\ r = euclidean p q).
    { unfold lineDistances in Hin. apply in_app_or in Hin as [Hin | Hin];
        apply in_map_iff in Hin as (y & <- & Hy).
      - destruct y as [a b]. cbn [fst snd].
        destruct (segmentDistance_attained p a b) as (s & Hs & ->).
        exists (pointAt a b s). split; [|reflexivity].
        right. exists a, b, s. auto.
      - exists y. split; [left; exact Hy | reflexivity]. }
    destruct Hq as (q & Hq & ->). exists q. split; [exact Hq|].
    split; [reflexivity|].
    intros q' [Hv | (a & b & s & Hab & Hs & ->)].
    + apply Hall. unfold lineDistances. apply in_or_app. right.
      apply in_map. exact Hv.
    + eapply Rle_trans; [|apply segmentDistance_least; exact Hs].
      apply Hall. unfold lineDistances. apply in_or_app. left.
      apply in_map_iff. exists (a, b). auto.
  - destruct H as [_ H]. unfold lineDistances in H.
    apply app_eq_nil in H as [_ H]. destruct coords; [congruence | discriminate].
Qed.

(** X3: on exact numbers [getDistanceToLineString] returns the least
    distance from the query point to a point of the polyline, vertices and
    segments alike: the distance to one of its points, and at most the
    distance to any of them. Without coordinates it returns [Infinity]. *)
Theorem lineString_distance_is_least (p : R * R) (coords : list (R * R)) :
  match coords with
  | [] => getDistanceToLineString (exact p) (map exact coords) = PInf
  | _ :: _ =>
      exists q,
        onLine q coords /\
        getDistanceToLineString (exact p) (map exact coords)
        = Finite (euclidean p q) /\
        forall q', onLine q' coords -> euclidean p q <= euclidean p q'
  end.
Proof.
  destruct coords as [|c rest]; [reflexivity|].
  apply lineString_nearest. discriminate.
Qed.

End LineFacts.


(** ** A feature with an item in reach is returned *)

Section FoundFacts.

Variable num : Type.
Context {N : Number num} {PT : PolygonTest num} {RB : @RBush num N}.
Local Open Scope num_scope.

Variables (fs : list (Feature num)) (d d' : Detector num).
Variable f : Feature num.
Hypothesis Hupdate : updateFeatures fs d = Normal d'.
Hypothesis Hdistinct : distinctObjects fs.
Hypothesis Hin : In f fs.

Lemma feature_found P t (item : IndexItem num) :
  In item (itemsOf f) ->
  intersects (queryBox P t) item = true ->
  (candidateDistance P item <=? t) = true ->
  In f (detectFeaturesAtCoordinate P t d').
Proof.
  intros Hitem Hbox Hle.
  destruct (@item_hit _ _ _ _ fs d d' Hupdate P t f item Hin Hitem Hbox Hle)
    as (h & Hh & Hid).
  destruct (@hit_item _ _ _ _ fs d d' Hupdate P t h Hh) as (Hhf & _).
  rewrite <- (Hdistinct _ _ Hhf Hin Hid).
  unfold detectFeaturesAtCoordinate. apply in_map. exact Hh.
Qed.

Lemma feature_hit P t :
  In f (detectFeaturesAtCoordinate P t d') ->
  exists h item,
    In h (detectHits P t d') /\ hit_feature h = f /\
    In item (itemsOf f) /\
    intersects (queryBox P t) item = true /\
    candidateDistance P item = hit_distance h /\
    (hit_distance h <=? t) = true.
Proof.
  unfold detectFeaturesAtCoordinate. intros H.
  apply in_map_iff in H as (h & Hf & Hh).
  destruct (@hit_item _ _ _ _ fs d d' Hupdate P t h Hh)
    as (_ & item & Hi & Hb & Hd & Hle).
  rewrite Hf in Hi. exists h, item. repeat split; assumption.
Qed.

End FoundFacts.

(** ** Line features, on exact numbers *)

Module LineQueries.

Import Exact SegmentSpec LineSpec ExactFacts LineFacts.
Local Open Scope R_scope.

Lemma min_Finite a b : min (Finite a) (Finite b) = Finite (Rmin a b).
Proof.
  unfold min, Rmin. simpl. rdec; try reflexivity; f_equal; lra.
Qed.

Lemma max_Finite a b : max (Finite a) (Finite b) = Finite (Rmax a b).
Proof.
  unfold max, Rmax. simpl. rdec; try reflexivity; f_equal; lra.
Qed.

Lemma extendXY_exact x0 y0 x1 y1 (v : R * R) :
  extendXY (exactExtent x0 y0 x1 y1) (exact v)
  = exactExtent (Rmin x0 (fst v)) (Rmin y0 (snd v))
                (Rmax x1 (fst v)) (Rmax y1 (snd v)).
Proof.
  unfold extendXY, exactExtent, exact.
  cbn [ext_minX ext_minY ext_maxX ext_maxY fst snd n_min n_max number].
  rewrite !min_Finite, !max_Finite. reflexivity.
Qed.

Lemma extend_exact (vs : list (R * R)) :
  forall x0 y0 x1 y1,
    x0 <= x1 -> y0 <= y1 ->
    exists x0' y0' x1' y1',
      fold_left (@extendXY xreal _) (map exact vs) (exactExtent x0 y0 x1 y1)
      = exactExtent x0' y0' x1' y1' /\
      x0' <= x0 /\ y0' <= y0 /\ x1 <= x1' /\ y1 <= y1' /\
      forall v, In v vs -> inBox v x0' y0' x1' y1'.
Proof.
  induction vs as [|v vs IH]; intros x0 y0 x1 y1 Hx Hy.
  - exists x0, y0, x1, y1. simpl. repeat split; try lra; contradiction.
  - cbn [map fold_left]. rewrite extendXY_exact.
    pose proof (Rmin_l x0 (fst v)). pose proof (Rmin_r x0 (fst v)).
    pose proof (Rmin_l y0 (snd v)). pose proof (Rmin_r y0 (snd v)).
    pose proof (Rmax_l x1 (fst v)). pose proof (Rmax_r x1 (fst v)).
    pose proof (Rmax_l y1 (snd v)). pose proof (Rmax_r y1 (snd v)).
    destruct (IH (Rmin x0 (fst v)) (Rmin y0 (snd v))
                 (Rmax x1 (fst v)) (Rmax y1 (snd v)))
      as (a & b & c & e & Heq & Ha & Hb & Hc & He & Hall); try lra.
    exists a, b, c, e. split; [exact Heq|].
    repeat split; try lra.
    all: destruct H7 as [<- | Hv];
      try (destruct (Hall _ Hv) as [[? ?] [? ?]]; assumption); lra.
Qed.

(** The extent of a coordinate sequence with a coordinate is a box with
    finite bounds that holds every coordinate. *)
Lemma boundingExtent_exact (coords : list (R * R)) :
  coords <> [] ->
  exists x0 y0 x1 y1,
    boundingExtent (map exact coords) = exactExtent x0 y0 x1 y1 /\
    forall v, In v coords -> inBox v x0 y0 x1 y1.
Proof.
  destruct coords as [|c rest]; [congruence|]. intros _.
  unfold boundingExtent. cbn [map fold_left].
  assert (E : extendXY (@emptyExtent xreal _) (exact c)
              = exactExtent (fst c) (snd c) (fst c) (snd c)).
  { unfold extendXY, emptyExtent, exactExtent, exact. simpl. reflexivity. }
  rewrite E.
  destruct (@extend_exact rest (fst c) (snd c) (fst c) (snd c))
    as (a & b & x & y & Heq & Ha & Hb & Hx & Hy & Hall); try lra.
  exists a, b, x, y. split; [exact Heq|].
  intros v [<- | Hv]; [|auto]. unfold inBox. lra.
Qed.

(** The points of a polyline are in every box that holds its
    coordinates. *)
Lemma onLine_inBox (coords : list (R * R)) q x0 y0 x1 y1 :
  (forall v, In v coords -> inBox v x0 y0 x1 y1) ->
  onLine q coords -> inBox q x0 y0 x1 y1.
Proof.
  intros Hall [Hq | (a & b & s & Hab & Hs & ->)]; [auto|].
  apply segmentsOf_In in Hab as [Ha Hb].
  destruct (Hall a Ha) as [Hax Hay]. destruct (Hall b Hb) as [Hbx Hby].
  unfold inBox, pointAt. cbn [fst snd].
  assert (Hc : forall lo hi u v, lo <= u <= hi -> lo <= v <= hi ->
                                 lo <= u + s * (v - u) <= hi).
  { intros lo hi u v Hu Hv.
    replace (u + s * (v - u)) with ((1 - s) * u + s * v) by ring.
    split; nra. }
  split; apply Hc; assumption.
Qed.

(** The extent item is the last item of a line. *)
Lemma indexLineString_extent (f : Feature xreal) coords :
  In (extentItem f (boundingExtent coords)) (indexLineString f coords).
Proof.
  unfold indexLineString. destruct (Nat.leb (length coords) 2).
  - left. reflexivity.
  - apply in_or_app. right. left. reflexivity.
Qed.

(** A segment item carries the end points of a segment of the line. *)
Lemma segmentItems_exact (f : Feature xreal) (coords : list (R * R)) :
  forall i item,
    In item (segmentItems f i (map exact coords)) ->
    exists a b, In (a, b) (segmentsOf coords) /\
                segmentStart item = Some (exact a) /\
                segmentEnd item = Some (exact b).
Proof.
  induction coords as [|a [|b rest] IH]; intros i item H;
    try contradiction.
  change (map exact (a :: b :: rest))
    with (exact a :: exact b :: map exact rest) in H.
  change (segmentItems f i (exact a :: exact b :: map exact rest))
    with (segmentItem f i (exact a) (exact b)
          :: segmentItems f (S i) (map exact (b :: rest))) in H.
  change (segmentsOf (a :: b :: rest))
    with ((a, b) :: segmentsOf (b :: rest)).
  destruct H as [<- | H].
  - exists a, b. split; [left; reflexivity|]. split; reflexivity.
  - destruct (IH (S i) item H) as (a' & b' & Hab & Hs & He).
    exists a', b'. split; [right; exact Hab | auto].
Qed.

Lemma indexLineString_items (f : Feature xreal) (coords : list (R * R)) item :
  In item (indexLineString f (map exact coords)) ->
  item = extentItem f (boundingExtent (map exact coords)) \/
  exists a b, In (a, b) (segmentsOf coords) /\
              segmentStart item = Some (exact a) /\
              segmentEnd item = Some (exact b).
Proof.
  unfold indexLineString. destruct (Nat.leb (length (map exact coords)) 2).
  - intros [<- | []]. left. reflexivity.
  - intros H. apply in_app_or in H as [H | [<- | []]].
    + right. eapply segmentItems_exact. exact H.
    + left. reflexivity.
Qed.

Lemma near_intersects (P q : R * R) (t : R) (f : Feature xreal)
  x0 y0 x1 y1 :
  inBox q x0 y0 x1 y1 -> euclidean P q <= t ->
  intersects (queryBox (exact P) (Finite t))
             (extentItem f (exactExtent x0 y0 x1 y1)) = true.
Proof.
  intros [Hx Hy] He.
  destruct (euclidean_bounds P q He) as (H1 & H2 & H3 & H4).
  unfold intersects, queryBox, exact, extentItem, exactExtent. simpl.
  rdec; try reflexivity; lra.
Qed.

Section Queries.

Context {PT : PolygonTest xreal} {RB : @RBush xreal number}.

Variables (fs : list (Feature xreal)) (d d' : Detector xreal).
Variable f : Feature xreal.
Variable coords : list (R * R).
Hypothesis Hupdate : updateFeatures fs d = Normal d'.
Hypothesis Hdistinct : distinctObjects fs.
Hypothesis Hin : In f fs.
Hypothesis Hline : getGeometry f = Some (LineString (map exact coords)).

Lemma line_items : itemsOf f = indexLineString f (map exact coords).
Proof. unfold itemsOf. rewrite Hline. reflexivity. Qed.

Lemma line_hit_distance (P : R * R) (t : R) (item : IndexItem xreal) x :
  In item (itemsOf f) ->
  candidateDistance (exact P) item = x ->
  leb x (Finite t) = true ->
  exists q, onLine q coords /\ x = Finite (euclidean P q) /\
            euclidean P q <= t.
Proof.
  intros Hitem Hd Hle. rewrite line_items in Hitem.
  apply indexLineString_items in Hitem
    as [-> | (a & b & Hab & Hs & He)].
  - rewrite candidateDistance_extentItem in Hd.
    unfold getDistanceToFeature in Hd. rewrite Hline in Hd.
    destruct coords as [|c rest] eqn:Ec.
    + subst x. discriminate.
    + rewrite <- Ec in *.
      destruct (@lineString_nearest P coords) as (q & Hq & Hdist & _);
        [rewrite Ec; discriminate|].
      rewrite Hdist in Hd. subst x. exists q.
      split; [exact Hq|]. split; [reflexivity|].
      apply Rleb_le. exact Hle.
  - unfold candidateDistance in Hd. rewrite Hs, He in Hd.
    rewrite getDistanceToSegment_exact in Hd. subst x.
    destruct (segmentDistance_attained P a b) as (s & Hs' & Heq).
    exists (pointAt a b s). split.
    + right. exists a, b, s. auto.
    + rewrite <- Heq. split; [reflexivity|]. apply Rleb_le. exact Hle.
Qed.

Lemma line_found (P q : R * R) (t : R) :
  onLine q coords -> euclidean P q <= t ->
  In f (detectFeaturesAtCoordinate (exact P) (Finite t) d').
Proof.
  intros Hq He.
  assert (Hne : coords <> []).
  { destruct Hq as [Hq | (a & b & s & Hab & _)]; intros ->; contradiction. }
  destruct (boundingExtent_exact Hne) as (x0 & y0 & x1 & y1 & Hext & Hall).
  apply (@feature_found _ _ _ _ fs d d' f Hupdate Hdistinct Hin
           (exact P) (Finite t)
           (extentItem f (boundingExtent (map exact coords)))).
  - rewrite line_items. apply indexLineString_extent.
  - rewrite Hext. apply near_intersects with (q := q); [|exact He].
    eapply onLine_inBox; eauto.
  - rewrite candidateDistance_extentItem.
    unfold getDistanceToFeature. rewrite Hline.
    destruct (@lineString_nearest P coords Hne) as (q0 & _ & -> & Hleast).
    apply Rleb_le. eapply Rle_trans; [apply Hleast; exact Hq | exact He].
Qed.

End Queries.

(** X4: for an indexed line feature on exact numbers, a query at [P] with
    tolerance [t] returns the feature exactly when some point of the
    polyline (a vertex or a point of a segment) is at distance at most [t]
    from [P]; and the distance recorded with the hit is the distance from
    [P] to such a point. *)
Theorem line_within_tolerance
  {PT : PolygonTest xreal} {RB : @RBush xreal number}
  (fs : list (Feature xreal)) (d d' : Detector xreal)
  (f : Feature xreal) (coords : list (R * R)) (P : R * R) (t : R) :
  updateFeatures fs d = Normal d' ->
  distinctObjects fs ->
  In f fs ->
  getGeometry f = Some (LineString (map exact coords)) ->
  (In f (detectFeaturesAtCoordinate (exact P) (Finite t) d')
   <-> exists q, onLine q coords /\ euclidean P q <= t) /\
  forall h,
    In h (detectHits (exact P) (Finite t) d') -> hit_feature h = f ->
    exists q, onLine q coords /\ hit_distance h = Finite (euclidean P q) /\
              euclidean P q <= t.
Proof.
  intros Hup Hdist Hin Hline.
  assert (Hhits : forall h,
             In h (detectHits (exact P) (Finite t) d') -> hit_feature h = f ->
             exists q, onLine q coords /\
                       hit_distance h = Finite (euclidean P q) /\
                       euclidean P q <= t).
  { intros h Hh Hf.
    destruct (@hit_item _ _ _ _ fs d d' Hup (exact P) (Finite t) h Hh)
      as (_ & item & Hi & _ & Hd & Hle).
    rewrite Hf in Hi.
    eapply line_hit_distance with (item := item); eassumption. }
  split; [split|exact Hhits].
  - intros H. unfold detectFeaturesAtCoordinate in H.
    apply in_map_iff in H as (h & Hf & Hh).
    destruct (Hhits h Hh Hf) as (q & Hq & _ & He). eauto.
  - intros (q & Hq & He).
    eapply line_found with (q := q); eassumption.
Qed.

End LineQueries.


(** ** Boxes, on exact numbers *)

Module BoxFacts.

Import Exact SegmentSpec LineSpec ExactFacts LineFacts LineQueries.
Local Open Scope R_scope.

Lemma Rmin_cases a b : (Rmin a b = a /\ a <= b) \/ (Rmin a b = b /\ b <= a).
Proof. unfold Rmin. destruct (Rle_dec a b); [left | right]; split; lra. Qed.

Lemma Rmax_cases a b : (Rmax a b = b /\ a <= b) \/ (Rmax a b = a /\ b <= a).
Proof. unfold Rmax. destruct (Rle_dec a b); [left | right]; split; lra. Qed.

(** The box of a segment item: the box of the two end points, grown on
    every side by a padding of at least [0.0001]. *)
Lemma segmentItem_exact (f : Feature xreal) (i : nat) (a b : R * R) :
  exists pad,
    1 / 10000 <= pad /\
    segmentItem f i (exact a) (exact b)
    = {| minX := Finite (Rmin (fst a) (fst b) - pad);
         minY := Finite (Rmin (snd a) (snd b) - pad);
         maxX := Finite (Rmax (fst a) (fst b) + pad);
         maxY := Finite (Rmax (snd a) (snd b) + pad);
         feature := f;
         segmentIndex := Some i;
         segmentStart := Some (exact a);
         segmentEnd := Some (exact b) |}.
Proof.
  destruct a as [ax ay], b as [bx by_].
  exists (Rmax (Rmax ((Rmax ax bx - Rmin ax bx) * (1 / 10))
                     ((Rmax ay by_ - Rmin ay by_) * (1 / 10)))
               (1 / 10000)).
  split; [apply Rmax_r|].
  unfold segmentItem, exact. cbn [fst snd n_min n_max n_sub n_add n_mul
                                  n_tenth n_floor number].
  rewrite !min_Finite, !max_Finite, !sub_Finite, !mul_Finite, !max_Finite,
    !sub_Finite, !add_Finite.
  reflexivity.
Qed.

(** The points of a segment lie between its end points on each axis. *)
Lemma pointAt_between (a b : R * R) (s : R) :
  0 <= s <= 1 ->
  inBox (pointAt a b s)
        (Rmin (fst a) (fst b)) (Rmin (snd a) (snd b))
        (Rmax (fst a) (fst b)) (Rmax (snd a) (snd b)).
Proof.
  intros Hs. unfold inBox, pointAt. cbn [fst snd].
  assert (Hc : forall u v,
             Rmin u v <= u + s * (v - u) <= Rmax u v).
  { intros u v.
    replace (u + s * (v - u)) with ((1 - s) * u + s * v) by ring.
    destruct (Rmin_cases u v) as [[-> ?] | [-> ?]];
      destruct (Rmax_cases u v) as [[-> ?] | [-> ?]]; split; nra. }
  split; apply Hc.
Qed.

(** X5: a query point within the tolerance of a segment always meets the
    padded box of the item indexed for the segment, and the distance
    computed for that item is the distance to the segment: a segment in
    reach is never lost to the box test. *)
Theorem segment_item_in_reach
  {PT : PolygonTest xreal}
  (f : Feature xreal) (i : nat) (a b P : R * R) (t : R) :
  segmentDistance P a b <= t ->
  intersects (queryBox (exact P) (Finite t))
             (segmentItem f i (exact a) (exact b)) = true /\
  candidateDistance (exact P) (segmentItem f i (exact a) (exact b))
  = Finite (segmentDistance P a b) /\
  leb (candidateDistance (exact P) (segmentItem f i (exact a) (exact b)))
      (Finite t) = true.
Proof.
  intros Hle.
  destruct (segmentItem_exact f i a b) as (pad & Hpad & ->).
  assert (Hd : candidateDistance (exact P)
                 {| minX := Finite (Rmin (fst a) (fst b) - pad);
                    minY := Finite (Rmin (snd a) (snd b) - pad);
                    maxX := Finite (Rmax (fst a) (fst b) + pad);
                    maxY := Finite (Rmax (snd a) (snd b) + pad);
                    feature := f;
                    segmentIndex := Some i;
                    segmentStart := Some (exact a);
                    segmentEnd := Some (exact b) |}
               = Finite (segmentDistance P a b)).
  { unfold candidateDistance. cbn [segmentStart segmentEnd].
    apply getDistanceToSegment_exact. }
  split; [|split; [exact Hd|]].
  - destruct (segmentDistance_attained P a b) as (s & Hs & Heq).
    rewrite Heq in Hle.
    destruct (euclidean_bounds P (pointAt a b s) Hle) as (H1 & H2 & H3 & H4).
    destruct (pointAt_between a b Hs) as [Hx Hy].
    unfold intersects, queryBox, exact. simpl.
    rdec; try reflexivity; lra.
  - rewrite Hd. apply Rleb_le. exact Hle.
Qed.

Lemma euclidean_self p : euclidean p p = 0.
Proof.
  unfold euclidean.
  replace ((fst p - fst p) * (fst p - fst p)
           + (snd p - snd p) * (snd p - snd p)) with 0 by ring.
  apply sqrt_0.
Qed.

Lemma nearestInBox_inBox p x0 y0 x1 y1 :
  x0 <= x1 -> y0 <= y1 -> inBox (nearestInBox p x0 y0 x1 y1) x0 y0 x1 y1.
Proof.
  intros Hx Hy. unfold inBox, nearestInBox. cbn [fst snd].
  destruct (Rmin_cases (fst p) x1) as [[-> ?] | [-> ?]];
    destruct (Rmin_cases (snd p) y1) as [[-> ?] | [-> ?]];
    destruct (Rmax_cases x0 (fst p)) as [[? ?] | [? ?]];
    destruct (Rmax_cases y0 (snd p)) as [[? ?] | [? ?]];
    destruct (Rmax_cases x0 x1) as [[? ?] | [? ?]];
    destruct (Rmax_cases y0 y1) as [[? ?] | [? ?]];
    repeat split; lra.
Qed.

Lemma nearestInBox_inside p x0 y0 x1 y1 :
  inBox p x0 y0 x1 y1 -> nearestInBox p x0 y0 x1 y1 = p.
Proof.
  intros [Hx Hy]. destruct p as [x y]. unfold nearestInBox.
  cbn [fst snd] in *.
  rewrite (Rmin_left x x1), (Rmin_left y y1) by lra.
  rewrite (Rmax_right x0 x), (Rmax_right y0 y) by lra. reflexivity.
Qed.

Lemma nearestInBox_least p q x0 y0 x1 y1 :
  x0 <= x1 -> y0 <= y1 -> inBox q x0 y0 x1 y1 ->
  euclidean p (nearestInBox p x0 y0 x1 y1) <= euclidean p q.
Proof.
  intros Hx Hy [Hqx Hqy]. unfold euclidean, nearestInBox. cbn [fst snd].
  apply sqrt_le_1_alt.
  assert (Hc : forall u lo hi v,
             lo <= hi -> lo <= v <= hi ->
             (u - Rmax lo (Rmin u hi)) * (u - Rmax lo (Rmin u hi))
             <= (u - v) * (u - v)).
  { intros u lo hi v Hlh Hv.
    assert (Hsq : forall c, 0 <= (c - v) * (u - c) ->
                            (u - c) * (u - c) <= (u - v) * (u - v)).
    { intros c Hpos. pose proof (Rle_0_sqr (c - v)) as Hs. unfold Rsqr in Hs.
      replace ((u - v) * (u - v))
        with ((u - c) * (u - c) + 2 * ((c - v) * (u - c))
              + (c - v) * (c - v)) by ring.
      lra. }
    apply Hsq.
    destruct (Rmin_cases u hi) as [[-> ?] | [-> ?]].
    - destruct (Rmax_cases lo u) as [[-> ?] | [-> ?]].
      + replace (u - u) with 0 by ring. lra.
      + replace ((lo - v) * (u - lo)) with ((v - lo) * (lo - u)) by ring.
        apply Rmult_le_pos; lra.
    - destruct (Rmax_cases lo hi) as [[-> ?] | [-> ?]].
      + apply Rmult_le_pos; lra.
      + replace (lo - v) with 0 by lra. lra. }
  pose proof (Hc (fst p) x0 x1 (fst q) Hx Hqx).
  pose proof (Hc (snd p) y0 y1 (snd q) Hy Hqy).
  lra.
Qed.

(** The distance the detector computes to a geometry of another class is
    the distance to the nearest point of its extent. *)
Lemma getDistanceToFeature_other
  {PT : PolygonTest xreal} (f : Feature xreal) (p : R * R) x0 y0 x1 y1 :
  getGeometry f = Some (OtherGeometry (exactExtent x0 y0 x1 y1)) ->
  x0 <= x1 -> y0 <= y1 ->
  getDistanceToFeature (exact p) f
  = Finite (euclidean p (nearestInBox p x0 y0 x1 y1)).
Proof.
  intros Hg Hx Hy. unfold getDistanceToFeature. rewrite Hg.
  destruct p as [x y]. unfold exact, exactExtent.
  cbn [fst snd ext_minX ext_minY ext_maxX ext_maxY n_leb n_max n_sub n_zero
       n_mul n_add n_sqrt number leb].
  destruct (Rleb x0 x && Rleb x x1 && Rleb y0 y && Rleb y y1) eqn:E.
  - repeat (apply andb_true_iff in E as [E ?]).
    rewrite nearestInBox_inside, euclidean_self; [reflexivity|].
    unfold inBox. cbn [fst snd].
    repeat match goal with H : Rleb _ _ = true |- _ => apply Rleb_le in H end.
    lra.
  - rewrite !sub_Finite, !max_Finite, !mul_Finite, !add_Finite.
    rewrite sqrt_Finite by apply sum_squares_nonneg.
    unfold euclidean, nearestInBox. cbn [fst snd]. do 2 f_equal.
    assert (Hc : forall u lo hi,
               lo <= hi ->
               Rmax (Rmax (lo - u) 0) (u - hi) * Rmax (Rmax (lo - u) 0) (u - hi)
               = (u - Rmax lo (Rmin u hi)) * (u - Rmax lo (Rmin u hi))).
    { intros u lo hi Hlh.
      destruct (Rmin_cases u hi) as [[-> ?] | [-> ?]].
      - destruct (Rmax_cases lo u) as [[-> ?] | [-> ?]];
          destruct (Rmax_cases (lo - u) 0) as [[-> ?] | [-> ?]];
          try (destruct (Rmax_cases 0 (u - hi)) as [[-> ?] | [-> ?]]);
          try (destruct (Rmax_cases (lo - u) (u - hi)) as [[-> ?] | [-> ?]]);
          nra.
      - destruct (Rmax_cases lo hi) as [[-> ?] | [-> ?]];
          destruct (Rmax_cases (lo - u) 0) as [[-> ?] | [-> ?]];
          try (destruct (Rmax_cases 0 (u - hi)) as [[-> ?] | [-> ?]]);
          try (destruct (Rmax_cases (lo - u) (u - hi)) as [[-> ?] | [-> ?]]);
          nra. }
    rewrite (Hc x x0 x1 Hx), (Hc y y0 y1 Hy). reflexivity.
Qed.

(** X6: for a geometry that is neither a point, a line nor a polygon, with
    a well-formed extent, [getDistanceToFeature] returns the distance from
    the query point to the nearest point of the extent box: [0] inside the
    box, and no point of the box is nearer. *)
Theorem distance_to_extent
  {PT : PolygonTest xreal} (f : Feature xreal) (p : R * R) x0 y0 x1 y1 :
  getGeometry f = Some (OtherGeometry (exactExtent x0 y0 x1 y1)) ->
  x0 <= x1 -> y0 <= y1 ->
  exists q,
    inBox q x0 y0 x1 y1 /\
    getDistanceToFeature (exact p) f = Finite (euclidean p q) /\
    (forall q', inBox q' x0 y0 x1 y1 -> euclidean p q <= euclidean p q') /\
    (inBox p x0 y0 x1 y1 -> getDistanceToFeature (exact p) f = Finite 0).
Proof.
  intros Hg Hx Hy. exists (nearestInBox p x0 y0 x1 y1).
  split; [apply nearestInBox_inBox; assumption|].
  split; [apply getDistanceToFeature_other; assumption|].
  split.
  - intros q' Hq'. apply nearestInBox_least; assumption.
  - intros Hp. rewrite (getDistanceToFeature_other f p Hg Hx Hy).
    rewrite nearestInBox_inside by exact Hp. rewrite euclidean_self.
    reflexivity.
Qed.

(** X7: an indexed feature whose geometry is of another class is returned
    by a query exactly when some point of its extent box is within the
    tolerance of the query point. *)
Theorem other_within_tolerance
  {PT : PolygonTest xreal} {RB : @RBush xreal number}
  (fs : list (Feature xreal)) (d d' : Detector xreal)
  (f : Feature xreal) x0 y0 x1 y1 (P : R * R) (t : R) :
  updateFeatures fs d = Normal d' ->
  distinctObjects fs ->
  In f fs ->
  getGeometry f = Some (OtherGeometry (exactExtent x0 y0 x1 y1)) ->
  x0 <= x1 -> y0 <= y1 ->
  (In f (detectFeaturesAtCoordinate (exact P) (Finite t) d')
   <-> exists q, inBox q x0 y0 x1 y1 /\ euclidean P q <= t).
Proof.
  intros Hup Hdist Hin Hg Hx Hy.
  assert (Hitems : itemsOf f = [extentItem f (exactExtent x0 y0 x1 y1)]).
  { unfold itemsOf. rewrite Hg. reflexivity. }
  split.
  - intros H.
    destruct (@feature_hit _ _ _ _ fs d d' f Hup (exact P) (Finite t) H)
      as (h & item & _ & _ & Hi & _ & Hd & Hle).
    rewrite Hitems in Hi. destruct Hi as [<- | []].
    rewrite candidateDistance_extentItem in Hd.
    rewrite (getDistanceToFeature_other f P Hg Hx Hy) in Hd.
    rewrite <- Hd in Hle.
    exists (nearestInBox P x0 y0 x1 y1).
    split; [apply nearestInBox_inBox; assumption|].
    apply Rleb_le. exact Hle.
  - intros (q & Hq & He).
    apply (@feature_found _ _ _ _ fs d d' f Hup Hdist Hin
             (exact P) (Finite t) (extentItem f (exactExtent x0 y0 x1 y1))).
    + rewrite Hitems. left. reflexivity.
    + apply near_intersects with (q := q); assumption.
    + rewrite candidateDistance_extentItem.
      rewrite (getDistanceToFeature_other f P Hg Hx Hy).
      apply Rleb_le. eapply Rle_trans; [|exact He].
      apply nearestInBox_least; assumption.
Qed.

End BoxFacts.


(** ** No distance is below zero *)

Section DistanceSigns.

Variable num : Type.
Context {N : Number num} {PT : PolygonTest num} {RB : @RBush num N}.
Local Open Scope num_scope.

(** What the numbers have to satisfy: a square root, [0], [Infinity] and
    the least of two such numbers are not below [0], and a tolerance that
    is at least such a number is at least [0]. *)
Hypothesis sqrt_sign : forall a : num, (n_sqrt a <? n_zero) = false.
Hypothesis min_sign :
  forall a b : num,
    (a <? n_zero) = false -> (b <? n_zero) = false ->
    (n_min a b <? n_zero) = false.
Hypothesis zero_sign : (n_zero <? n_zero) = false.
Hypothesis infinity_sign : (n_infinity <? n_zero) = false.
Hypothesis leb_sign :
  forall x t : num,
    (x <=? t) = true -> (x <? n_zero) = false -> (n_zero <=? t) = true.

Lemma getDistanceToSegment_sign (P a b : Coordinate num) :
  (getDistanceToSegment P a b <? n_zero) = false.
Proof.
  unfold getDistanceToSegment.
  destruct (_ && _); apply sqrt_sign.
Qed.

Lemma scanSegments_unfold (c c1 c2 : Coordinate num) rest (m : num) :
  scanSegments c (c1 :: c2 :: rest) m
  = if n_min m (getDistanceToSegment c c1 c2) === n_zero
    then inl n_zero
    else scanSegments c (c2 :: rest)
           (n_min m (getDistanceToSegment c c1 c2)).
Proof. reflexivity. Qed.

Lemma scanSegments_sign (P : Coordinate num) coords :
  forall m,
    (m <? n_zero) = false ->
    match scanSegments P coords m with
    | inl r | inr r => (r <? n_zero) = false
    end.
Proof.
  induction coords as [|a [|b rest] IH]; intros m Hm; try exact Hm.
  rewrite scanSegments_unfold.
  destruct (_ === _).
  - exact zero_sign.
  - apply IH. apply min_sign; [exact Hm | apply getDistanceToSegment_sign].
Qed.

Lemma scanVertices_sign (P : Coordinate num) coords :
  forall m,
    (m <? n_zero) = false ->
    (scanVertices P coords m <? n_zero) = false.
Proof.
  unfold scanVertices.
  induction coords as [|v vs IH]; intros m Hm; cbn [fold_left]; [exact Hm|].
  apply IH. apply min_sign; [exact Hm | apply sqrt_sign].
Qed.

Lemma getDistanceToLineString_sign (P : Coordinate num) coords :
  (getDistanceToLineString P coords <? n_zero) = false.
Proof.
  unfold getDistanceToLineString.
  pose proof (scanSegments_sign P coords n_infinity infinity_sign) as H.
  destruct (scanSegments P coords n_infinity) as [r | r]; [exact H|].
  apply scanVertices_sign. exact H.
Qed.

Lemma getDistanceToFeature_sign (P : Coordinate num) (f : Feature num) :
  (getDistanceToFeature P f <? n_zero) = false.
Proof.
  unfold getDistanceToFeature.
  destruct (getGeometry f) as [[c|coords|rings|e]|];
    [| | | |exact infinity_sign].
  - apply sqrt_sign.
  - apply getDistanceToLineString_sign.
  - unfold getDistanceToPolygon.
    destruct (intersectsCoordinate rings P); [exact zero_sign|].
    destruct (getLinearRing0 rings); [|exact infinity_sign].
    apply getDistanceToLineString_sign.
  - destruct P as [x y].
    destruct (_ && _); [exact zero_sign | apply sqrt_sign].
Qed.

Lemma candidateDistance_sign (P : Coordinate num) (c : IndexItem num) :
  (candidateDistance P c <? n_zero) = false.
Proof.
  unfold candidateDistance.
  destruct (segmentStart c), (segmentEnd c);
    first [apply getDistanceToSegment_sign | apply getDistanceToFeature_sign].
Qed.

Lemma scan_nothing (P : Coordinate num) (t : num) cs :
  (n_zero <=? t) = false ->
  forall st, fold_left (scanCandidate P t) cs st = st.
Proof.
  intros Ht. induction cs as [|c cs IH]; intros st; [reflexivity|].
  cbn [fold_left]. rewrite <- (IH st) at 2. f_equal.
  destruct st as [seen hits]. unfold scanCandidate.
  destruct (seenHas seen (feature c)); [reflexivity|].
  destruct (candidateDistance P c <=? t) eqn:E; [|reflexivity].
  apply leb_sign in E; [congruence|].
  apply candidateDistance_sign.
Qed.

(** With a tolerance that is not at least [0] no candidate is a hit. *)
Lemma detect_below_zero (P : Coordinate num) (t : num) (d : Detector num) :
  (n_zero <=? t) = false ->
  detectFeaturesAtCoordinate P t d = [].
Proof.
  intros Ht. unfold detectFeaturesAtCoordinate, detectHits.
  rewrite scan_nothing by exact Ht. reflexivity.
Qed.

End DistanceSigns.

(** ** Tolerances and the nearest feature, on exact numbers *)

Module ToleranceFacts.

Import Exact SegmentSpec LineSpec ExactFacts LineFacts LineQueries.
Local Open Scope R_scope.

Lemma sqrt_not_negative (a : xreal) : ltb (sqrt a) (Finite 0) = false.
Proof.
  destruct a as [x| | |]; simpl; try reflexivity.
  destruct (Rltb x 0) eqn:E; simpl; [reflexivity|].
  pose proof (sqrt_pos x). rdec; try reflexivity; try discriminate; lra.
Qed.

Lemma zero_not_negative : ltb (Finite 0) (Finite 0) = false.
Proof. simpl. rdec; [lra | reflexivity]. Qed.

Lemma min_not_negative (a b : xreal) :
  ltb a (Finite 0) = false -> ltb b (Finite 0) = false ->
  ltb (min a b) (Finite 0) = false.
Proof.
  intros Ha Hb. unfold min.
  destruct a, b; try reflexivity;
    match goal with
    | |- ltb (if ?c then _ else _) _ = _ => destruct c
    end; assumption.
Qed.

(** What is at most [t] and not negative leaves [0 <= t]. *)
Lemma leb_not_negative (x t : xreal) :
  leb x t = true -> ltb x (Finite 0) = false -> leb (Finite 0) t = true.
Proof.
  destruct x, t; simpl; try discriminate; try reflexivity; intros;
    rdec; try discriminate; try reflexivity; lra.
Qed.

(** On exact numbers a query whose tolerance is negative, [-Infinity] or
    [NaN] returns nothing. *)
Lemma no_hit_without_tolerance
  {PT : PolygonTest xreal} {RB : @RBush xreal number}
  (d : Detector xreal) (P : Coordinate xreal) (t : xreal) :
  leb (Finite 0) t = false ->
  detectFeaturesAtCoordinate P t d = [].
Proof.
  intros Ht.
  apply (@detect_below_zero xreal number PT RB sqrt_not_negative
           min_not_negative zero_not_negative eq_refl leb_not_negative).
  exact Ht.
Qed.

Section Nearest.

Context {PT : PolygonTest xreal} {RB : @RBush xreal number}.

Lemma detectHits_sorted (P : Coordinate xreal) (t : xreal)
  (d : Detector xreal) :
  StronglySorted
    (fun a b => leb (hit_distance a) (hit_distance b) = true)
    (detectHits P t d).
Proof.
  apply Sorted_StronglySorted.
  - intros a b c. apply leb_trans.
  - apply arraySort_Sorted.
    destruct (scanned_spec P t d) as (_ & Hfrom & _).
    eapply Forall_impl; [|exact Hfrom].
    intros h (c & _ & _ & _ & Hle). simpl.
    eapply leb_refl_l. exact Hle.
Qed.

Lemma detectHits_head (P : Coordinate xreal) (t : xreal)
  (d : Detector xreal) (h : Hit xreal) rest :
  detectHits P t d = h :: rest ->
  forall h', In h' (detectHits P t d) ->
             leb (hit_distance h) (hit_distance h') = true.
Proof.
  intros E h' Hh'.
  pose proof (detectHits_sorted P t d) as Hs.
  pose proof (detectHits_sound P t d) as Hf.
  rewrite E in Hs, Hf, Hh'.
  inversion Hs as [|? ? _ Hall]; subst.
  destruct Hh' as [<- | Hh'].
  - inversion Hf as [|? ? (c & _ & _ & _ & Hle) _]; subst.
    eapply leb_refl_l. exact Hle.
  - rewrite Forall_forall in Hall. auto.
Qed.

End Nearest.

(** X9: [getFeatureAtPixel] returns the feature of the nearest hit of the
    query at that pixel: a hit of [detectFeaturesAtPixel] whose recorded
    distance is at most that of every other hit; and it returns nothing
    exactly when the query has no hit. *)
Theorem getFeatureAtPixel_nearest
  {PT : PolygonTest xreal} {RB : @RBush xreal number}
  (map : OlMap xreal) (pixel : Pixel xreal) (options : DetectOptions xreal)
  (d : Detector xreal) :
  match getFeatureAtPixel map pixel options d with
  | Some f =>
      exists h,
        In h (detectHits (getCoordinateFromPixel map pixel)
                (n_mul (hitToleranceOr0 options) (getResolution map)) d) /\
        hit_feature h = f /\
        In f (detectFeaturesAtPixel map pixel options d) /\
        forall h',
          In h' (detectHits (getCoordinateFromPixel map pixel)
                   (n_mul (hitToleranceOr0 options) (getResolution map)) d) ->
          leb (hit_distance h) (hit_distance h') = true
  | None => detectFeaturesAtPixel map pixel options d = []
  end.
Proof.
  unfold getFeatureAtPixel, detectFeaturesAtPixel, detectFeaturesAtCoordinate.
  set (P := getCoordinateFromPixel map pixel).
  set (t := n_mul (hitToleranceOr0 options) (getResolution map)).
  destruct (detectHits P t d) as [|h rest] eqn:E; [reflexivity|].
  cbn [List.map hd_error]. exists h.
  split; [left; reflexivity|]. split; [reflexivity|].
  split; [left; reflexivity|].
  rewrite <- E. eapply detectHits_head. exact E.
Qed.

End ToleranceFacts.


(** ** Polygon features, on exact numbers *)

Module PolygonFacts.

Import Exact SegmentSpec LineSpec ExactFacts LineFacts LineQueries BoxFacts.
Local Open Scope R_scope.

(** The extent item of a coordinate sequence meets the query box exactly
    when its extent is a finite box in reach. *)
Lemma extent_in_reach (f : Feature xreal) (P : R * R) (t : R)
  (coords : list (R * R)) :
  intersects (queryBox (exact P) (Finite t))
             (extentItem f (boundingExtent (map exact coords))) = true
  <-> boxInReach P t coords.
Proof.
  split.
  - intros H. destruct coords as [|c rest] eqn:Ec; [discriminate|].
    rewrite <- Ec in *.
    destruct (@boundingExtent_exact coords) as (x0 & y0 & x1 & y1 & Hext & _);
      [rewrite Ec; discriminate|].
    exists x0, y0, x1, y1. split; [exact Hext|].
    rewrite Hext in H. unfold intersects, queryBox, exact in H.
    simpl in H. repeat (apply andb_true_iff in H as [H ?]).
    repeat match goal with
           | H : Rleb _ _ = true |- _ => apply Rleb_le in H
           end.
    lra.
  - intros (x0 & y0 & x1 & y1 & Hext & H1 & H2 & H3 & H4).
    rewrite Hext. unfold intersects, queryBox, exact. simpl.
    rdec; try reflexivity; lra.
Qed.

Section Queries.

Context {PT : PolygonTest xreal} {RB : @RBush xreal number}.

Variables (fs : list (Feature xreal)) (d d' : Detector xreal).
Variable f : Feature xreal.
Variable ring : list (R * R).
Variable holes : list (list (R * R)).
Hypothesis Hupdate : updateFeatures fs d = Normal d'.
Hypothesis Hdistinct : distinctObjects fs.
Hypothesis Hin : In f fs.
Hypothesis Hpolygon :
  getGeometry f = Some (Polygon (map (map exact) (ring :: holes))).

Lemma polygon_items :
  itemsOf f
  = indexLineString f (map exact ring)
    ++ [extentItem f (boundingExtent (map exact (concat (ring :: holes))))].
Proof.
  unfold itemsOf. rewrite Hpolygon. cbn [indexGeometry].
  unfold indexPolygon. cbn [map getLinearRing0 getExtent].
  rewrite (concat_map exact (ring :: holes)). reflexivity.
Qed.

Lemma polygon_distance (P : R * R) :
  getDistanceToFeature (exact P) f
  = if intersectsCoordinate (map (map exact) (ring :: holes)) (exact P)
    then Finite 0
    else getDistanceToLineString (exact P) (map exact ring).
Proof.
  unfold getDistanceToFeature. rewrite Hpolygon.
  unfold getDistanceToPolygon. reflexivity.
Qed.

(** The exterior ring in reach: the extent item of the ring makes the
    hit. *)
Lemma polygon_ring_found (P q : R * R) (t : R) :
  onLine q ring -> euclidean P q <= t ->
  In f (detectFeaturesAtCoordinate (exact P) (Finite t) d').
Proof.
  intros Hq He.
  assert (Hne : ring <> []).
  { destruct Hq as [Hq | (a & b & s & Hab & _)]; intros ->; contradiction. }
  destruct (boundingExtent_exact Hne) as (x0 & y0 & x1 & y1 & Hext & Hall).
  apply (@feature_found _ _ _ _ fs d d' f Hupdate Hdistinct Hin
           (exact P) (Finite t)
           (extentItem f (boundingExtent (map exact ring)))).
  - rewrite polygon_items. apply in_or_app. left.
    apply indexLineString_extent.
  - rewrite Hext. apply near_intersects with (q := q); [|exact He].
    eapply onLine_inBox; eauto.
  - rewrite candidateDistance_extentItem, polygon_distance.
    pose proof (euclidean_nonneg P q) as Hpos.
    destruct (intersectsCoordinate _ _).
    + apply Rleb_le. lra.
    + destruct (@lineString_nearest P ring Hne) as (q0 & _ & -> & Hleast).
      apply Rleb_le. eapply Rle_trans; [apply Hleast; exact Hq | exact He].
Qed.

(** The query point in the polygon: either extent item makes the hit. *)
Lemma polygon_inside_found (P : R * R) (t : R) (coords : list (R * R)) :
  In (extentItem f (boundingExtent (map exact coords))) (itemsOf f) ->
  intersectsCoordinate (map (map exact) (ring :: holes)) (exact P) = true ->
  0 <= t ->
  boxInReach P t coords ->
  In f (detectFeaturesAtCoordinate (exact P) (Finite t) d').
Proof.
  intros Hitem Hinside Ht Hbox.
  apply (@feature_found _ _ _ _ fs d d' f Hupdate Hdistinct Hin
           (exact P) (Finite t)
           (extentItem f (boundingExtent (map exact coords)))).
  - exact Hitem.
  - apply extent_in_reach. exact Hbox.
  - rewrite candidateDistance_extentItem, polygon_distance, Hinside.
    apply Rleb_le. exact Ht.
Qed.

Lemma polygon_hit (P : R * R) (t : R) (item : IndexItem xreal) :
  In item (itemsOf f) ->
  intersects (queryBox (exact P) (Finite t)) item = true ->
  leb (candidateDistance (exact P) item) (Finite t) = true ->
  (exists q, onLine q ring /\ euclidean P q <= t) \/
  (intersectsCoordinate (map (map exact) (ring :: holes)) (exact P) = true /\
   0 <= t /\
   (boxInReach P t ring \/ boxInReach P t (concat (ring :: holes)))).
Proof.
  intros Hitem Hbox Hle. rewrite polygon_items in Hitem.
  assert (Hextent : forall coords,
             item = extentItem f (boundingExtent (map exact coords)) ->
             (exists q, onLine q ring /\ euclidean P q <= t) \/
             (intersectsCoordinate (map (map exact) (ring :: holes)) (exact P)
              = true /\ 0 <= t /\ boxInReach P t coords)).
  { intros coords ->. rewrite candidateDistance_extentItem in Hle.
    rewrite polygon_distance in Hle.
    destruct (intersectsCoordinate _ _).
    - right. split; [reflexivity|]. split; [apply Rleb_le; exact Hle|].
      apply extent_in_reach in Hbox. exact Hbox.
    - left. destruct ring as [|c rest] eqn:Er; [discriminate|].
      rewrite <- Er in *.
      destruct (@lineString_nearest P ring) as (q & Hq & Hdist & _);
        [rewrite Er; discriminate|].
      rewrite Hdist in Hle. exists q. split; [exact Hq|].
      apply Rleb_le. exact Hle. }
  apply in_app_or in Hitem as [Hitem | [<- | []]].
  - apply indexLineString_items in Hitem as [-> | (a & b & Hab & Hs & He)].
    + destruct (Hextent ring eq_refl) as [H | (H1 & H2 & H3)]; [left|right];
        auto.
    + left. unfold candidateDistance in Hle. rewrite Hs, He in Hle.
      rewrite getDistanceToSegment_exact in Hle.
      destruct (segmentDistance_attained P a b) as (s & Hs' & Heq).
      exists (pointAt a b s). split.
      * right. exists a, b, s. auto.
      * rewrite <- Heq. apply Rleb_le. exact Hle.
  - destruct (Hextent (concat (ring :: holes)) eq_refl)
      as [H | (H1 & H2 & H3)]; [left|right]; auto.
Qed.

End Queries.

(** X10: an indexed polygon feature on exact numbers is returned by a query
    at [P] with tolerance [t] exactly when some point of its exterior ring
    is within [t] of [P], or the point-in-polygon test accepts [P], [t] is
    not negative and the query box meets the extent of the ring or of the
    polygon. *)
Theorem polygon_within_tolerance
  {PT : PolygonTest xreal} {RB : @RBush xreal number}
  (fs : list (Feature xreal)) (d d' : Detector xreal)
  (f : Feature xreal) (ring : list (R * R)) (holes : list (list (R * R)))
  (P : R * R) (t : R) :
  updateFeatures fs d = Normal d' ->
  distinctObjects fs ->
  In f fs ->
  getGeometry f = Some (Polygon (map (map exact) (ring :: holes))) ->
  (In f (detectFeaturesAtCoordinate (exact P) (Finite t) d')
   <->
   (exists q, onLine q ring /\ euclidean P q <= t) \/
   (intersectsCoordinate (map (map exact) (ring :: holes)) (exact P) = true /\
    0 <= t /\
    (boxInReach P t ring \/ boxInReach P t (concat (ring :: holes))))).
Proof.
  intros Hup Hdist Hin Hpoly. split.
  - intros H.
    destruct (@feature_hit _ _ _ _ fs d d' f Hup (exact P) (Finite t) H)
      as (h & item & _ & _ & Hi & Hb & Hd & Hle).
    rewrite <- Hd in Hle.
    eapply polygon_hit; eassumption.
  - intros [(q & Hq & He) | (Hinside & Ht & [Hbox | Hbox])].
    + eapply polygon_ring_found with (q := q); eassumption.
    + eapply polygon_inside_found with (coords := ring); try eassumption.
      rewrite polygon_items with (ring := ring) (holes := holes)
        by exact Hpoly. apply in_or_app. left.
      apply indexLineString_extent.
    + eapply polygon_inside_found with (coords := concat (ring :: holes));
        try eassumption.
      rewrite polygon_items with (ring := ring) (holes := holes)
        by exact Hpoly. apply in_or_app. right. left.
      reflexivity.
Qed.

End PolygonFacts.


(** ** Timers stay in order *)

Section TimerOrder.

Variable num : Type.
Context {N : Number num} {PT : PolygonTest num} {RB : @RBush num N}.

Local Abbreviation Task := (Task num).
Local Abbreviation World := (World num).
Local Abbreviation Callback := (Callback num).

Lemma mapGet_mapDelete_same (key : string) (m : list (string * nat)) :
  mapGet key (mapDelete key m) = None.
Proof.
  induction m as [|[k v] m IH]; simpl; [reflexivity|].
  destruct (String.eqb k key) eqn:E; simpl; [exact IH|].
  rewrite E. exact IH.
Qed.

Lemma map_filter_NoDup {A B} (f : A -> B) (keep : A -> bool) (l : list A) :
  NoDup (map f l) -> NoDup (map f (filter keep l)).
Proof.
  induction l as [|a l IH]; simpl; intros H; [constructor|].
  inversion H as [|? ? Hn Hd]; subst.
  destruct (keep a); simpl; [|auto].
  constructor; [|auto]. intros Hin. apply Hn.
  apply in_map_iff in Hin as (x & Hx & Hin).
  apply filter_In in Hin as [Hin _]. apply in_map_iff. eauto.
Qed.

Lemma same_handle (l : list Task) (t u : Task) :
  NoDup (map (@task_id num) l) -> In t l -> In u l ->
  task_id t = task_id u -> t = u.
Proof.
  induction l as [|a l IH]; simpl; intros H Ht Hu E; [contradiction|].
  inversion H as [|? ? Hn Hd]; subst.
  destruct Ht as [-> | Ht], Hu as [-> | Hu]; auto.
  - exfalso. apply Hn. rewrite E. apply in_map. exact Hu.
  - exfalso. apply Hn. rewrite <- E. apply in_map. exact Ht.
Qed.

(** A new handle is new. *)
Lemma unique_snoc (l : list Task) (t : Task) (next : nat) :
  NoDup (map (@task_id num) l) ->
  (forall u, In u l -> task_id u < next) ->
  task_id t = next ->
  NoDup (map (@task_id num) (l ++ [t])) /\
  forall u, In u (l ++ [t]) -> task_id u < S next.
Proof.
  intros Hd Hlt Ht. split.
  - rewrite map_app. apply NoDup_app; [exact Hd | repeat constructor; auto|].
    intros a Ha [<- | []]. apply in_map_iff in Ha as (u & Hu & Hin).
    specialize (Hlt u Hin). lia.
  - intros u Hu. apply in_app_or in Hu as [Hu | [<- | []]]; [|lia].
    specialize (Hlt u Hu). lia.
Qed.

Lemma unique_filter (keep : Task -> bool) (w : World) :
  uniqueHandles w ->
  NoDup (map (@task_id num) (filter keep (pending w))) /\
  forall u, In u (filter keep (pending w)) -> task_id u < nextTimer w.
Proof.
  intros [Hd Hlt]. split; [apply map_filter_NoDup; exact Hd|].
  intros u Hu. apply filter_In in Hu as [Hu _]. auto.
Qed.

Lemma debounced_unique map pixel (callback : Callback) options (w : World) :
  uniqueHandles w ->
  uniqueHandles (detectFeaturesAtPixelDebounced map pixel callback options w).
Proof.
  intros Hu.
  destruct (debounced_fields map pixel callback options w)
    as (Hp & Hn & _).
  unfold uniqueHandles. rewrite Hp, Hn.
  destruct (mapGet _ _) as [existing|].
  - destruct (unique_filter
                (fun t => negb (Nat.eqb (task_id t) existing)) Hu)
      as [Hd Hlt].
    apply unique_snoc; auto.
  - destruct Hu as [Hd Hlt]. apply unique_snoc; auto.
Qed.

Lemma debounced_noStale skip map pixel (callback : Callback) options
  (w : World) :
  uniqueHandles w -> noStale skip w ->
  Some (debounceKeyOrDefault options) <> skip ->
  noStale skip (detectFeaturesAtPixelDebounced map pixel callback options w).
Proof.
  intros [Hd _] Hs Hkey k timer Hget Hk.
  destruct (debounced_fields map pixel callback options w)
    as (Hp & _ & _ & _ & _ & _ & Hm).
  rewrite Hm in Hget. rewrite Hp.
  destruct (string_dec k (debounceKeyOrDefault options)) as [-> | Hne].
  - rewrite mapGet_mapSet in Hget. inversion Hget; subst.
    eexists. split; [apply in_or_app; right; left; reflexivity|].
    split; reflexivity.
  - rewrite mapGet_mapSet_other in Hget by exact Hne.
    destruct (Hs k timer Hget Hk) as (t & Hin & Hkt & Hit).
    exists t. split; [|auto]. apply in_or_app. left.
    destruct (mapGet (debounceKeyOrDefault options)
                     (debounceTimers (detector w))) as [existing|] eqn:G;
      [|exact Hin].
    apply filter_In. split; [exact Hin|].
    destruct (Nat.eqb_spec (task_id t) existing) as [E | E]; [|reflexivity].
    exfalso. destruct (Hs _ _ G Hkey) as (t0 & Hin0 & Hk0 & Hi0).
    assert (t = t0) by (eapply same_handle; eauto; congruence).
    subst t0. congruence.
Qed.

Lemma fire_unique (task : Task) (w : World) :
  uniqueHandles w -> uniqueHandles (fire task w).
Proof.
  intros Hu.
  destruct (fire_fields task w) as (_ & _ & _ & _ & Hq).
  destruct (unique_filter
              (fun t => negb (Nat.eqb (task_id t) (task_id task))) Hu)
    as [Hd Hlt].
  unfold uniqueHandles.
  destruct (action (task_callback task)) as [label|label m p next o|body].
  - destruct Hq as [-> ->]. split; assumption.
  - destruct Hq as (keep & -> & ->). apply unique_snoc; [| |reflexivity].
    + apply map_filter_NoDup. exact Hd.
    + intros u Hin. apply filter_In in Hin as [Hin _]. auto.
  - contradiction.
Qed.

(** *** The handles [debounceTimers] holds *)

Lemma mapGet_mapDelete_Some (k key : string) (m : list (string * nat))
  (timer : nat) :
  mapGet k (mapDelete key m) = Some timer -> mapGet k m = Some timer.
Proof.
  destruct (string_dec k key) as [-> | Hne].
  - rewrite mapGet_mapDelete_same. discriminate.
  - rewrite mapGet_mapDelete_other by exact Hne. auto.
Qed.

Lemma debounced_distinct map pixel (callback : Callback) options (w : World) :
  handlesDistinct w ->
  handlesDistinct (detectFeaturesAtPixelDebounced map pixel callback options w).
Proof.
  intros [Hb Hi].
  destruct (debounced_fields map pixel callback options w)
    as (_ & Hn & _ & _ & _ & _ & Hm).
  unfold handlesDistinct. rewrite Hm, Hn. split.
  - intros key timer Hget.
    destruct (string_dec key (debounceKeyOrDefault options)) as [-> | Hne].
    + rewrite mapGet_mapSet in Hget. inversion Hget. lia.
    + rewrite mapGet_mapSet_other in Hget by exact Hne.
      specialize (Hb _ _ Hget). lia.
  - intros k1 k2 timer H1 H2.
    destruct (string_dec k1 (debounceKeyOrDefault options)) as [E1 | E1];
      destruct (string_dec k2 (debounceKeyOrDefault options)) as [E2 | E2].
    + congruence.
    + subst k1. rewrite mapGet_mapSet in H1. inversion H1; subst.
      rewrite mapGet_mapSet_other in H2 by exact E2.
      specialize (Hb _ _ H2). lia.
    + subst k2. rewrite mapGet_mapSet in H2. inversion H2; subst.
      rewrite mapGet_mapSet_other in H1 by exact E1.
      specialize (Hb _ _ H1). lia.
    + rewrite mapGet_mapSet_other in H1 by exact E1.
      rewrite mapGet_mapSet_other in H2 by exact E2.
      eapply Hi; eassumption.
Qed.

Lemma invoke_distinct (callback : Callback) :
  forall timer fs (w : World),
    handlesDistinct w -> handlesDistinct (invoke callback timer fs w).
Proof.
  induction callback as [label|label m p next _ o|body IH];
    intros timer fs w Hw; cbn [invoke].
  - exact Hw.
  - apply debounced_distinct. exact Hw.
  - apply IH. exact Hw.
Qed.

Lemma fire_distinct (task : Task) (w : World) :
  handlesDistinct w -> handlesDistinct (fire task w).
Proof.
  intros Hw. unfold fire.
  match goal with
  | |- handlesDistinct (runTask task ?w0) =>
      assert (H0 : handlesDistinct w0) by exact Hw;
      destruct (runTask_fields task w0) as (_ & Rn & _ & _ & _ & _ & Rm);
      destruct (invoke_distinct (task_callback task) (task_id task)
                  (detectFeaturesAtPixel (task_map task) (task_pixel task)
                     (task_options task) (detector w0)) H0) as [Hb Hi]
  end.
  cbv zeta in Rn, Rm. unfold handlesDistinct. rewrite Rn, Rm.
  destruct (throws (task_callback task)); [split; assumption|].
  split.
  - intros key timer Hget. apply mapGet_mapDelete_Some in Hget. eauto.
  - intros k1 k2 timer H1 H2.
    apply mapGet_mapDelete_Some in H1. apply mapGet_mapDelete_Some in H2.
    eauto.
Qed.

Lemma fire_inOrder (task : Task) (w : World) :
  timersInOrder w -> In task (pending w) -> timersInOrder (fire task w).
Proof.
  intros Hw Hin. pose proof Hw as (Hreg & Hwk & Hu & Hh).
  destruct (@fire_registered _ _ _ _ task w Hreg Hwk Hin) as [Hreg' Hwk'].
  split; [exact Hreg'|]. split; [exact Hwk'|].
  split; [apply fire_unique; exact Hu | apply fire_distinct; exact Hh].
Qed.

Lemma runTimers_inOrder (fuel time : nat) :
  forall w : World, timersInOrder w -> timersInOrder (runTimers fuel time w).
Proof.
  induction fuel as [|fuel IH]; intros w Hw; simpl; [exact Hw|].
  destruct (earliest (pending w)) as [task|] eqn:E; [|exact Hw].
  destruct (Nat.leb (task_due task) time); [|exact Hw].
  apply IH. apply fire_inOrder; [exact Hw | eapply earliest_In; exact E].
Qed.

Lemma advanceTo_inOrder (time : nat) (w : World) :
  timersInOrder w -> timersInOrder (advanceTo time w).
Proof.
  intros Hw. unfold advanceTo.
  exact (runTimers_inOrder (budget (pending w)) time Hw).
Qed.

Lemma debounced_inOrder map pixel (callback : Callback) options (w : World) :
  timersInOrder w ->
  otherKeys (debounceKeyOrDefault options) callback ->
  timersInOrder (detectFeaturesAtPixelDebounced map pixel callback options w).
Proof.
  intros (Hreg & Hwk & Hu & Hh) Hc.
  split; [apply debounced_registered; exact Hreg|].
  split; [apply debounced_wellKeyed; assumption|].
  split; [apply debounced_unique; exact Hu|].
  apply debounced_distinct. exact Hh.
Qed.

(** With no timer pending and none registered, the timers are in order. *)
Lemma idle_inOrder (w : World) :
  pending w = [] -> debounceTimers (detector w) = [] -> timersInOrder w.
Proof.
  intros Hp Hm. unfold timersInOrder, allRegistered, wellKeyed,
    uniqueHandles, handlesDistinct. rewrite Hp, Hm. simpl.
  repeat split; try (intros; contradiction); try constructor;
    intros; discriminate.
Qed.

Lemma clearDebounceTimers_inOrder (w : World) :
  allRegistered w -> timersInOrder (clearDebounceTimers w).
Proof.
  intros Hreg.
  destruct (@clearDebounceTimers_cancels _ _ _ _ w Hreg) as (Hp & Hm & _).
  apply idle_inOrder; assumption.
Qed.

Lemma clear_inOrder (w : World) :
  allRegistered w -> timersInOrder (clear w).
Proof.
  intros Hreg. unfold clear. apply clearDebounceTimers_inOrder. exact Hreg.
Qed.

Lemma updateFeatures_timers (fs : list (Feature num)) (d : Detector num) :
  debounceTimers (match updateFeatures fs d with
                  | Normal d' => d'
                  | Throw _ d' => d'
                  end) = debounceTimers d.
Proof.
  unfold updateFeatures. destruct (indexFeatures fs []); reflexivity.
Qed.

Lemma updateFeaturesIn_inOrder (fs : list (Feature num)) (w : World) :
  timersInOrder w -> timersInOrder (updateFeaturesIn fs w).
Proof.
  unfold timersInOrder, allRegistered, wellKeyed, uniqueHandles,
    handlesDistinct, updateFeaturesIn.
  cbn [detector pending nextTimer]. rewrite updateFeatures_timers.
  tauto.
Qed.

(** Whatever the caller does, and whether callbacks throw or not, the
    timers stay in order. *)
Lemma reachable_inOrder (w : World) : reachable w -> timersInOrder w.
Proof.
  induction 1 as [d Hd|map pixel callback options w Hr IH Hc|time w Hr IH
                  |w Hr IH|w Hr IH|fs w Hr IH].
  - apply idle_inOrder; [reflexivity | exact Hd].
  - apply debounced_inOrder; assumption.
  - apply advanceTo_inOrder; assumption.
  - apply clearDebounceTimers_inOrder. apply IH.
  - apply clear_inOrder. apply IH.
  - apply updateFeaturesIn_inOrder; assumption.
Qed.

(** In a world in order, the handle registered for a key picks the pending
    timers of that key. *)
Lemma registered_filter (w : World) (key : string) :
  timersInOrder w ->
  match mapGet key (debounceTimers (detector w)) with
  | Some existing =>
      filter (fun t => negb (Nat.eqb (task_id t) existing)) (pending w)
  | None => pending w
  end
  = filter (fun t => negb (String.eqb (task_key t) key)) (pending w).
Proof.
  intros (Hreg & _ & _ & [_ Hinj]).
  destruct (mapGet key (debounceTimers (detector w))) as [existing|] eqn:G.
  - apply filter_ext_in. intros t Ht.
    destruct (Nat.eqb_spec (task_id t) existing) as [E | E];
      destruct (String.eqb_spec (task_key t) key) as [K | K];
      try reflexivity; exfalso.
    + apply K. pose proof (Hreg t Ht) as H. rewrite E in H.
      exact (Hinj _ _ _ H G).
    + apply E. pose proof (Hreg t Ht) as H. rewrite K, G in H.
      inversion H. reflexivity.
  - symmetry. rewrite <- (filter_true (pending w)) at 2.
    apply filter_ext_in. intros t Ht.
    destruct (String.eqb_spec (task_key t) key) as [K | K]; [|reflexivity].
    exfalso. pose proof (Hreg t Ht) as H. rewrite K, G in H. discriminate.
Qed.

(** *** When every callback returns *)

Lemma debounced_allReturn map pixel (callback : Callback) options
  (w : World) :
  allReturn w -> returns callback ->
  allReturn (detectFeaturesAtPixelDebounced map pixel callback options w).
Proof.
  intros Hw Hc t Hin.
  destruct (debounced_fields map pixel callback options w) as (Hp & _).
  rewrite Hp in Hin. apply in_app_or in Hin as [Hin | [<- | []]]; [|exact Hc].
  apply Hw. destruct (mapGet _ _); [apply filter_In in Hin; tauto | exact Hin].
Qed.

(** A timer whose callback returns leaves no stale entry: its closure
    deletes the key. *)
Lemma fire_noStale (task : Task) (w : World) :
  timersInOrder w -> noStale None w -> In task (pending w) ->
  returns (task_callback task) ->
  noStale None (fire task w).
Proof.
  intros (Hreg & Hwk & Hu & _) Hs Hin Hret.
  set (w0 := {| detector := detector w;
                pending := filter (fun t => negb (Nat.eqb (task_id t) (task_id task)))
                                  (pending w);
                clock := Nat.max (clock w) (task_due task);
                nextTimer := nextTimer w;
                invocations := invocations w |}).
  assert (Hu0 : uniqueHandles w0).
  { exact (unique_filter
             (fun t => negb (Nat.eqb (task_id t) (task_id task))) Hu). }
  assert (Hs0 : noStale (Some (task_key task)) w0).
  { intros k timer Hget Hk. cbn [w0 detector] in Hget.
    destruct (Hs k timer Hget) as (t & Ht & Hkt & Hit); [discriminate|].
    exists t. split; [|auto]. cbn [w0 pending]. apply filter_In.
    split; [exact Ht|].
    destruct (Nat.eqb_spec (task_id t) (task_id task)) as [E | E];
      [|reflexivity].
    exfalso. assert (t = task) by (eapply same_handle; eauto; apply Hu).
    subst t. congruence. }
  pose proof (Hwk task Hin) as Hother.
  assert (Hs1 : noStale (Some (task_key task))
                  (invoke (task_callback task) (task_id task)
                     (detectFeaturesAtPixel (task_map task) (task_pixel task)
                        (task_options task) (detector w0)) w0)).
  { destruct (task_callback task) as [label|label m p next o|body];
      cbn [invoke]; [| |contradiction].
    - exact Hs0.
    - destruct Hother as [Hne _].
      apply debounced_noStale; [exact Hu0 | exact Hs0 | congruence]. }
  unfold fire. fold w0.
  destruct (runTask_fields task w0) as (Rp & _ & _ & _ & _ & _ & Rm).
  cbv zeta in Rp, Rm. rewrite (returns_throws _ Hret) in Rm.
  intros k timer Hget _. rewrite Rm in Hget. rewrite Rp.
  destruct (string_dec k (task_key task)) as [-> | Hne].
  - rewrite mapGet_mapDelete_same in Hget. discriminate.
  - rewrite mapGet_mapDelete_other in Hget by exact Hne.
    apply (Hs1 k timer Hget). congruence.
Qed.

Lemma fire_allReturn (task : Task) (w : World) :
  allReturn w -> In task (pending w) -> allReturn (fire task w).
Proof.
  intros Hw Hin t Ht.
  destruct (fire_fields task w) as (_ & _ & _ & _ & Hq).
  pose proof (Hw task Hin) as Hret.
  rewrite (returns_action _ Hret) in Hq.
  destruct (task_callback task) as [label|label m p next o|body].
  - destruct Hq as [Hq _]. rewrite Hq in Ht.
    apply filter_In in Ht as [Ht _]. auto.
  - destruct Hq as (keep & Hq & _). rewrite Hq in Ht.
    apply in_app_or in Ht as [Ht | [<- | []]]; [|exact Hret].
    apply filter_In in Ht as [Ht _]. apply filter_In in Ht as [Ht _]. auto.
  - contradiction.
Qed.

Lemma runTimers_settled (fuel time : nat) :
  forall w : World,
    timersInOrder w -> noStale None w -> allReturn w ->
    noStale None (runTimers fuel time w) /\
    allReturn (runTimers fuel time w).
Proof.
  induction fuel as [|fuel IH]; intros w Hw Hs Hr; simpl; [auto|].
  destruct (earliest (pending w)) as [task|] eqn:E; [|auto].
  destruct (Nat.leb (task_due task) time); [|auto].
  pose proof (earliest_In _ E) as Hin.
  apply IH.
  - apply fire_inOrder; assumption.
  - apply fire_noStale; auto.
  - apply fire_allReturn; assumption.
Qed.

(** As long as every callback returns, every handle [debounceTimers]
    holds is the handle of a pending timer of that key. *)
Lemma returning_settled (w : World) :
  reachableReturning w ->
  timersInOrder w /\ noStale None w /\ allReturn w.
Proof.
  induction 1 as [d Hd|map pixel callback options w Hr IH Hc Hret
                  |time w Hr IH|w Hr IH|w Hr IH|fs w Hr IH].
  - split; [apply idle_inOrder; [reflexivity | exact Hd]|].
    split; [|intros t []].
    intros key timer Hget. cbn [initialWorld detector] in Hget.
    rewrite Hd in Hget. discriminate.
  - destruct IH as (Hw & Hs & Ha). pose proof Hw as (_ & _ & Hu & _).
    split; [apply debounced_inOrder; assumption|].
    split; [apply debounced_noStale; [exact Hu | exact Hs | discriminate]|].
    apply debounced_allReturn; assumption.
  - destruct IH as (Hw & Hs & Ha).
    split; [apply advanceTo_inOrder; exact Hw|].
    exact (runTimers_settled (budget (pending w)) time Hw Hs Ha).
  - destruct IH as ((Hreg & _) & _ & _).
    destruct (@clearDebounceTimers_cancels _ _ _ _ w Hreg) as (Hp & Hm & _).
    split; [apply idle_inOrder; assumption|].
    split.
    + intros key timer Hget. rewrite Hm in Hget. discriminate.
    + intros t Ht. rewrite Hp in Ht. contradiction.
  - destruct IH as ((Hreg & _) & _ & _).
    assert (Hreg' : allRegistered
                      {| detector := {| tree := rb_clear num;
                                        features := [];
                                        debounceTimers :=
                                          debounceTimers (detector w) |};
                         pending := pending w;
                         clock := clock w;
                         nextTimer := nextTimer w;
                         invocations := invocations w |}) by exact Hreg.
    destruct (clearDebounceTimers_cancels Hreg') as (Hp & Hm & _).
    split; [apply clear_inOrder; exact Hreg|].
    unfold clear. split.
    + intros key timer Hget. rewrite Hm in Hget. discriminate.
    + intros t Ht. rewrite Hp in Ht. contradiction.
  - destruct IH as (Hw & Hs & Ha).
    split; [apply updateFeaturesIn_inOrder; exact Hw|].
    split.
    + intros key timer Hget Hk. apply (Hs key timer); [|exact Hk].
      unfold updateFeaturesIn in Hget. cbn [detector] in Hget.
      rewrite updateFeatures_timers in Hget. exact Hget.
    + exact Ha.
Qed.

(** *** When a callback throws *)

(** What the callback does leaves the handle registered for the key of
    its call, as long as it does not debounce again on that key. *)
Lemma invoke_keeps_key (callback : Callback) (key : string) :
  forall timer fs (w : World),
    otherKeys key callback ->
    mapGet key (debounceTimers (detector (invoke callback timer fs w)))
    = mapGet key (debounceTimers (detector w)).
Proof.
  induction callback as [label|label m p next _ o|body IH];
    intros timer fs w Hother; cbn [invoke].
  - reflexivity.
  - destruct Hother as [Hne _].
    match goal with
    | |- context [detectFeaturesAtPixelDebounced m p next o ?w0] =>
        destruct (debounced_fields m p next o w0)
          as (_ & _ & _ & _ & _ & _ & Hm)
    end.
    rewrite Hm. apply mapGet_mapSet_other. congruence.
  - apply IH. exact Hother.
Qed.

Lemma keys_NoDup (w : World) :
  timersInOrder w -> NoDup (map (@task_key num) (pending w)).
Proof.
  intros (Hreg & _ & [Hd _] & _).
  assert (G : forall l : list Task,
             (forall t, In t l -> In t (pending w)) ->
             NoDup (map (@task_id num) l) ->
             NoDup (map (@task_key num) l)).
  { induction l as [|a l IH]; intros Hsub Hnd; simpl; constructor.
    - inversion Hnd as [|? ? Hn _]; subst. intros Hin. apply Hn.
      apply in_map_iff in Hin as (u & Hk & Hu).
      pose proof (Hreg a (Hsub a (or_introl eq_refl))) as Ha.
      pose proof (Hreg u (Hsub u (or_intror Hu))) as Hu'.
      rewrite Hk, Ha in Hu'. inversion Hu' as [E]. rewrite E.
      apply in_map. exact Hu.
    - inversion Hnd; subst. apply IH; [|assumption].
      intros t Ht. apply Hsub. right. exact Ht. }
  apply G; [auto | exact Hd].
Qed.

End TimerOrder.

Section TimerLaws.

Variable num : Type.
Context {N : Number num} {PT : PolygonTest num} {RB : @RBush num N}.

(** X11: as long as no callback debounces again on the key of its own call,
    [clearDebounceTimers] cancels everything: in every world the caller can
    reach, it leaves no timer pending and none registered, and no callback
    runs afterwards however far the clock advances. *)
Theorem clearDebounceTimers_cancels_all (w : World num) (time : nat) :
  reachable w ->
  pending (clearDebounceTimers w) = [] /\
  debounceTimers (detector (clearDebounceTimers w)) = [] /\
  invocations (advanceTo time (clearDebounceTimers w)) = invocations w /\
  pending (advanceTo time (clearDebounceTimers w)) = [].
Proof.
  intros Hr. destruct (reachable_inOrder Hr) as (Hreg & _).
  destruct (@clearDebounceTimers_cancels _ _ _ _ w Hreg) as (Hp & Hm & Hi).
  split; [exact Hp|]. split; [exact Hm|]. split; [apply Hi|].
  rewrite (advanceTo_idle time _ Hp). exact Hp.
Qed.

(** X12: as long as every callback returns (none throws) and none
    debounces again on the key of its own call, in every world the caller
    can reach there is at most one pending timer per debounce key,
    [debounceTimers] holds a handle for a key exactly when a timer of that
    key is pending, and a detector with no timer pending holds no handle
    at all: the map does not grow with the number of calls. *)
Theorem one_timer_per_key (w : World num) :
  reachableReturning w ->
  NoDup (map (@task_key num) (pending w)) /\
  (forall key,
      mapGet key (debounceTimers (detector w)) <> None <->
      exists t, In t (pending w) /\ task_key t = key) /\
  (pending w = [] -> debounceTimers (detector w) = []).
Proof.
  intros Hr. destruct (returning_settled Hr) as (Hw & Hs & _).
  pose proof Hw as (Hreg & _).
  split; [apply keys_NoDup; exact Hw|]. split.
  - intros key. split.
    + intros Hget.
      destruct (mapGet key (debounceTimers (detector w))) as [timer|] eqn:G;
        [|congruence].
      destruct (Hs key timer G) as (t & Hin & Hk & _); [discriminate|]. eauto.
    + intros (t & Hin & <-). rewrite (Hreg t Hin). discriminate.
  - intros Hp.
    destruct (debounceTimers (detector w)) as [|[k v] m] eqn:E;
      [reflexivity|].
    exfalso. destruct (Hs k v) as (t & Hin & _); [|discriminate|].
    + rewrite E. simpl. rewrite String.eqb_refl. reflexivity.
    + rewrite Hp in Hin. contradiction.
Qed.

(** X13: debounce keys are independent: in a world the caller can reach, a
    debounced call replaces the pending timers of its own key by the one
    timer it sets, due after its delay, and leaves the pending timers of
    every other key as they are; no callback runs and the index is not
    touched. *)
Theorem debounced_replaces_own_key
  map pixel (callback : Callback num) options (w : World num) :
  reachable w ->
  let key := debounceKeyOrDefault options in
  let w' := detectFeaturesAtPixelDebounced map pixel callback options w in
  pending w'
  = filter (fun t => negb (String.eqb (task_key t) key)) (pending w)
    ++ [{| task_id := nextTimer w;
           task_due := clock w + debounceDelayOr50 options;
           task_key := key;
           task_map := map;
           task_pixel := pixel;
           task_callback := callback;
           task_options := options |}] /\
  invocations w' = invocations w /\
  tree (detector w') = tree (detector w) /\
  features (detector w') = features (detector w).
Proof.
  intros Hr key w'. pose proof (reachable_inOrder Hr) as Hw.
  destruct (debounced_fields map pixel callback options w)
    as (Hp & _ & _ & Hi & Ht & Hf & _).
  fold w' key in Hp, Hi, Ht, Hf.
  rewrite Hp, (registered_filter key Hw). auto.
Qed.

(** X14: [clear()] is a full reset in every world the caller can reach: no
    feature, an empty index that answers every query with the empty
    sequence, no timer pending or registered, and no callback runs
    afterwards. *)
Theorem clear_resets_all (w : World num) (time : nat) :
  reachable w ->
  features (detector (clear w)) = [] /\
  rb_all (tree (detector (clear w))) = [] /\
  debounceTimers (detector (clear w)) = [] /\
  pending (clear w) = [] /\
  (forall P t, detectFeaturesAtCoordinate P t (detector (clear w)) = []) /\
  invocations (advanceTo time (clear w)) = invocations w.
Proof.
  intros Hr. destruct (reachable_inOrder Hr) as (Hreg & _).
  destruct (@clear_resets _ _ _ _ w Hreg) as (Hf & Ht & Hm & Hp & Hq).
  repeat (split; [assumption|]).
  rewrite (advanceTo_idle time _ Hp). cbn [invocations].
  unfold clear.
  match goal with
  | |- invocations (clearDebounceTimers ?w0) = _ =>
      destruct (clearTimeouts_fields (debounceTimers (detector w0)) w0)
        as (_ & _ & _ & Hi & _)
  end.
  unfold clearDebounceTimers. cbn [withTimers invocations]. exact Hi.
Qed.

(** X24: a callback that throws leaves its key behind. When the timer of
    a pending call runs and its callback throws, [debounceTimers] still
    holds the handle of that timer for the key of the call, although no
    timer with that handle is pending any more. *)
Theorem thrown_callback_keeps_key (task : Task num) (w : World num) :
  reachable w ->
  In task (pending w) ->
  throws (task_callback task) = true ->
  mapGet (task_key task) (debounceTimers (detector (fire task w)))
  = Some (task_id task) /\
  forall t, In t (pending (fire task w)) -> task_id t <> task_id task.
Proof.
  intros Hr Hin Hthrows.
  destruct (reachable_inOrder Hr) as (Hreg & Hwk & [Hd Hlt] & _).
  split.
  - unfold fire.
    match goal with
    | |- context [runTask task ?w0] =>
        destruct (runTask_fields task w0) as (_ & _ & _ & _ & _ & _ & Rm)
    end.
    cbv zeta in Rm. rewrite Rm, Hthrows.
    rewrite invoke_keeps_key by (apply Hwk; exact Hin).
    exact (Hreg task Hin).
  - intros t Ht E.
    destruct (fire_fields task w) as (_ & _ & _ & _ & Hq).
    destruct (action (task_callback task)) as [label|label m p next o|body].
    + destruct Hq as [Hq _]. rewrite Hq in Ht.
      apply filter_In in Ht as [_ Ht]. rewrite E, Nat.eqb_refl in Ht.
      discriminate.
    + destruct Hq as (keep & Hq & _). rewrite Hq in Ht.
      apply in_app_or in Ht as [Ht | [<- | []]].
      * apply filter_In in Ht as [Ht _]. apply filter_In in Ht as [_ Ht].
        rewrite E, Nat.eqb_refl in Ht. discriminate.
      * cbn [task_id] in E. specialize (Hlt task Hin). lia.
    + contradiction.
Qed.

End TimerLaws.


(** ** Statistics, and queries that run later *)

Section StatsFacts.

Variable num : Type.
Context {N : Number num} {PT : PolygonTest num} {RB : @RBush num N}.

Lemma indexGeometry_nonempty (f : Feature num) (g : Geometry num) :
  1 <= length (indexGeometry f g).
Proof.
  destruct g as [c|coords|rings|e]; simpl; try lia.
  - unfold indexLineString. destruct (Nat.leb (length coords) 2); simpl.
    + lia.
    + rewrite length_app. simpl. lia.
  - unfold indexPolygon. rewrite length_app. simpl. lia.
Qed.

Lemma items_at_least_features (fs : list (Feature num)) :
  (forall f, In f fs -> getGeometry f <> None) ->
  length fs <= length (flat_map (@itemsOf num N) fs).
Proof.
  induction fs as [|f fs IH]; intros Hall; simpl; [lia|].
  rewrite length_app.
  assert (1 <= length (itemsOf f)).
  { unfold itemsOf. destruct (getGeometry f) as [g|] eqn:G.
    - apply indexGeometry_nonempty.
    - exfalso. apply (Hall f); [left; reflexivity | exact G]. }
  assert (length fs <= length (flat_map (@itemsOf num N) fs)).
  { apply IH. intros g Hg. apply Hall. right. exact Hg. }
  lia.
Qed.

(** X15: what [getStats] reports after [updateFeatures(fs)]: when the
    update returns, as many features as [fs] holds and the number of items
    they contribute, at least one per feature; when it throws, still as
    many features as [fs] holds, but no indexed item. *)
Theorem getStats_after_update {RS : RBushShape num}
  (fs : list (Feature num)) (d : Detector num) :
  match updateFeatures fs d with
  | Normal d' =>
      stat_features (getStats d') = length fs /\
      stat_indexedItems (getStats d')
      = length (flat_map (@itemsOf num N) fs) /\
      length fs <= stat_indexedItems (getStats d')
  | Throw _ d' =>
      stat_features (getStats d') = length fs /\
      stat_indexedItems (getStats d') = 0
  end.
Proof.
  destruct (updateFeatures fs d) as [d'|msg d'] eqn:E.
  - apply updateFeatures_Normal in E as [-> Hall].
    unfold getStats, rb_all. cbn [stat_features stat_indexedItems features tree].
    split; [reflexivity|]. split; [reflexivity|].
    apply items_at_least_features. exact Hall.
  - unfold updateFeatures in E.
    destruct (indexFeatures fs []); inversion E; subst.
    split; reflexivity.
Qed.

(** X16: a debounced query answers from the index as it is when its timer
    runs, not as it was at the call: after a call with a recording
    callback, an [updateFeatures] before the delay has elapsed, and the
    delay, the callback has run once, with what [detectFeaturesAtPixel]
    returns on the updated detector, and no timer is left. *)
Theorem debounced_query_sees_update
  (w : World num) (c : DebouncedCall num) (label : nat)
  (fs : list (Feature num)) (time : nat) :
  pending w = [] ->
  clock w <= call_time c ->
  call_callback c = Observe label ->
  call_due c <= time ->
  let w2 := updateFeaturesIn fs (issueCall w c) in
  invocations (advanceTo time w2)
  = invocations w
    ++ [mkInvocation (nextTimer w) label (resultOfCall c (detector w2))] /\
  pending (advanceTo time w2) = [] /\
  features (detector (advanceTo time w2)) = fs.
Proof.
  intros Hp Hc Hcb Hdue w2.
  destruct (@issueCall_first _ _ _ _ (debounceKeyOrDefault (call_options c))
              w c Hp Hc eq_refl) as ((Hp1 & _) & Hi1 & _).
  assert (Hp2 : pending w2 = [taskOfCall (nextTimer w) c]) by exact Hp1.
  assert (Hi2 : invocations w2 = invocations w) by exact Hi1.
  assert (Hf2 : features (detector w2) = fs).
  { unfold w2, updateFeaturesIn. cbn [detector].
    unfold updateFeatures. destruct (indexFeatures fs []); reflexivity. }
  unfold advanceTo. cbn [invocations pending detector].
  rewrite Hp2. cbn [budget fold_right taskOfCall task_callback].
  rewrite Hcb. cbn [rearms Nat.add runTimers].
  rewrite Hp2. cbn [earliest].
  destruct (Nat.leb_spec (task_due (taskOfCall (nextTimer w) c)) time)
    as [_ | Hgt]; [|cbn [taskOfCall task_due] in Hgt; lia].
  destruct (fire_fields (taskOfCall (nextTimer w) c) w2)
    as (Hi & _ & Hf & _ & Hq).
  cbn [taskOfCall task_callback task_id task_map task_pixel task_options]
    in Hi, Hq.
  rewrite Hcb in Hi, Hq. destruct Hq as [Hq _].
  split; [rewrite Hi, Hi2; reflexivity|].
  split.
  - rewrite Hq, Hp2. cbn [filter taskOfCall task_id].
    rewrite Nat.eqb_refl. reflexivity.
  - rewrite Hf. exact Hf2.
Qed.

End StatsFacts.


(** ** The benchmark of the tester, on exact numbers *)

Module BenchmarkFacts.

Import Exact ExactFacts LineQueries.
Local Open Scope R_scope.

Lemma n_of_nat_exact (n : nat) : n_of_nat (num := xreal) n = Finite (INR n).
Proof.
  induction n as [|n IH]; [reflexivity|].
  cbn [n_of_nat]. rewrite IH, S_INR. reflexivity.
Qed.

Lemma sum_exact (ts : list R) :
  forall a,
    fold_left (fun x y => n_add x y) (map Finite ts) (Finite a)
    = Finite (fold_left Rplus ts a).
Proof.
  induction ts as [|t ts IH]; intros a; [reflexivity|].
  cbn [map fold_left]. apply IH.
Qed.

Lemma max_exact (ts : list R) :
  forall a,
    fold_left (@n_max xreal _) (map Finite ts) (Finite a)
    = Finite (fold_left Rmax ts a).
Proof.
  induction ts as [|t ts IH]; intros a; [reflexivity|].
  cbn [map fold_left]. cbn [n_max number]. rewrite max_Finite. apply IH.
Qed.

Lemma min_exact (ts : list R) :
  forall a,
    fold_left (@n_min xreal _) (map Finite ts) (Finite a)
    = Finite (fold_left Rmin ts a).
Proof.
  induction ts as [|t ts IH]; intros a; [reflexivity|].
  cbn [map fold_left]. cbn [n_min number]. rewrite min_Finite. apply IH.
Qed.

Lemma fold_Rmax_spec (ts : list R) :
  forall a,
    In (fold_left Rmax ts a) (a :: ts) /\
    forall x, In x (a :: ts) -> x <= fold_left Rmax ts a.
Proof.
  induction ts as [|t ts IH]; intros a; cbn [fold_left].
  - split; [left; reflexivity|]. intros x [<- | []]. lra.
  - destruct (IH (Rmax a t)) as [Hin Hall]. split.
    + destruct Hin as [Hin | Hin]; [|right; right; exact Hin].
      rewrite <- Hin. unfold Rmax. destruct (Rle_dec a t); simpl; auto.
    + intros x [<- | [<- | Hx]].
      * eapply Rle_trans; [apply Rmax_l | apply Hall; left; reflexivity].
      * eapply Rle_trans; [apply Rmax_r | apply Hall; left; reflexivity].
      * apply Hall. right. exact Hx.
Qed.

Lemma fold_Rmin_spec (ts : list R) :
  forall a,
    In (fold_left Rmin ts a) (a :: ts) /\
    forall x, In x (a :: ts) -> fold_left Rmin ts a <= x.
Proof.
  induction ts as [|t ts IH]; intros a; cbn [fold_left].
  - split; [left; reflexivity|]. intros x [<- | []]. lra.
  - destruct (IH (Rmin a t)) as [Hin Hall]. split.
    + destruct Hin as [Hin | Hin]; [|right; right; exact Hin].
      rewrite <- Hin. unfold Rmin. destruct (Rle_dec a t); simpl; auto.
    + intros x [<- | [<- | Hx]].
      * eapply Rle_trans; [apply Hall; left; reflexivity | apply Rmin_l].
      * eapply Rle_trans; [apply Hall; left; reflexivity | apply Rmin_r].
      * apply Hall. right. exact Hx.
Qed.

Lemma fold_Rplus_shift (ts : list R) :
  forall a, fold_left Rplus ts a = a + fold_left Rplus ts 0.
Proof.
  induction ts as [|t ts IH]; intros a; cbn [fold_left]; [lra|].
  rewrite (IH (a + t)), (IH (0 + t)). lra.
Qed.

Lemma sum_bounds (ts : list R) (lo hi : R) :
  (forall x, In x ts -> lo <= x <= hi) ->
  lo * INR (length ts) <= fold_left Rplus ts 0 <= hi * INR (length ts).
Proof.
  induction ts as [|t ts IH]; intros Hall.
  - simpl. lra.
  - cbn [fold_left length]. rewrite S_INR, fold_Rplus_shift.
    destruct IH as [H1 H2]; [intros x Hx; apply Hall; right; exact Hx|].
    destruct (Hall t (or_introl eq_refl)). lra.
Qed.

(** X17: [updateBenchmarkResults(method)] on recorded times: the entry of
    [method] gets the least and the largest of the times, their mean, which
    lies between the two, and their number as [samples] and as
    [totalHits]; the entries of the other methods are kept. With no time
    recorded the table is left as it is. *)
Theorem benchmark_of_times
  (method : DetectionMethod) (t0 : R) (ts : list R)
  (prev : DetectionMethod -> BenchmarkResults xreal) :
  exists lo mean hi,
    updateBenchmarkResults method (map Finite (t0 :: ts)) prev method
    = {| avgDetectionTime := Finite mean;
         maxDetectionTime := Finite hi;
         minDetectionTime := Finite lo;
         totalHits := length (t0 :: ts);
         samples := length (t0 :: ts) |} /\
    In lo (t0 :: ts) /\ In hi (t0 :: ts) /\
    (forall x, In x (t0 :: ts) -> lo <= x <= hi) /\
    mean * INR (length (t0 :: ts)) = fold_left Rplus (t0 :: ts) 0 /\
    lo <= mean <= hi /\
    (forall other,
        sameMethod other method = false ->
        updateBenchmarkResults method (map Finite (t0 :: ts)) prev other
        = prev other) /\
    updateBenchmarkResults method [] prev = prev.
Proof.
  set (n := INR (length (t0 :: ts))).
  assert (Hn : 0 < n).
  { unfold n. cbn [length]. rewrite S_INR. pose proof (pos_INR (length ts)).
    lra. }
  destruct (fold_Rmax_spec ts t0) as [Hmax_in Hmax].
  destruct (fold_Rmin_spec ts t0) as [Hmin_in Hmin].
  exists (fold_left Rmin ts t0), (fold_left Rplus (t0 :: ts) 0 / n),
    (fold_left Rmax ts t0).
  assert (Hbounds : forall x, In x (t0 :: ts) ->
                      fold_left Rmin ts t0 <= x <= fold_left Rmax ts t0).
  { intros x Hx. split; [apply Hmin | apply Hmax]; exact Hx. }
  split; [|split; [exact Hmin_in|split; [exact Hmax_in|split;
          [exact Hbounds|split; [|split; [|split; [|reflexivity]]]]]]].
  - assert (Havg : n_div (fold_left (fun a b => n_add a b)
                                     (map Finite (t0 :: ts)) n_zero)
                          (n_of_nat (length (map Finite (t0 :: ts))))
                    = Finite (fold_left Rplus (t0 :: ts) 0 / n)).
    { change (n_zero (num := xreal)) with (Finite 0).
      rewrite sum_exact, length_map, n_of_nat_exact. fold n.
      apply div_Finite. lra. }
    assert (Hhi : fold_left (@n_max xreal _) (map Finite (t0 :: ts))
                            (n_opp n_infinity)
                  = Finite (fold_left Rmax ts t0)).
    { cbn [map fold_left]. apply max_exact. }
    assert (Hlo : fold_left (@n_min xreal _) (map Finite (t0 :: ts))
                            n_infinity
                  = Finite (fold_left Rmin ts t0)).
    { cbn [map fold_left]. apply min_exact. }
    unfold updateBenchmarkResults.
    rewrite Havg, Hhi, Hlo, !length_map. cbn [length Nat.eqb]. cbv beta.
    replace (sameMethod method method) with true
      by (destruct method; reflexivity).
    reflexivity.
  - field. lra.
  - destruct (sum_bounds (t0 :: ts) Hbounds) as [H1 H2]. fold n in H1, H2.
    split.
    + apply Rmult_le_reg_r with (r := n); [exact Hn|].
      replace (fold_left Rplus (t0 :: ts) 0 / n * n)
        with (fold_left Rplus (t0 :: ts) 0) by (field; lra).
      exact H1.
    + apply Rmult_le_reg_r with (r := n); [exact Hn|].
      replace (fold_left Rplus (t0 :: ts) 0 / n * n)
        with (fold_left Rplus (t0 :: ts) 0) by (field; lra).
      exact H2.
  - intros other Ho. unfold updateBenchmarkResults.
    rewrite !length_map. cbn [length Nat.eqb]. cbv beta.
    rewrite Ho. reflexivity.
Qed.

End BenchmarkFacts.


(** ** binary64 numbers: no distance is below zero *)

Module Float64Signs.

Import Float64.
Local Open Scope float_scope.

(** Rounding keeps the sign it is given. *)
Lemma binary_round_aux_sign prec emax mx ex lx :
  SFltb (binary_round_aux prec emax false mx ex lx) (S754_zero false) = false.
Proof.
  unfold binary_round_aux.
  destruct (shr_fexp prec emax mx ex lx) as [mrs' e'].
  destruct (shr_fexp prec emax _ e' loc_Exact) as [mrs'' e''].
  destruct (shr_m mrs'') as [|m|m]; try reflexivity.
  destruct (Z.leb e'' (emax - prec)); reflexivity.
Qed.

Lemma sqrt_sign (x : float) : (sqrt x <? 0) = false.
Proof.
  rewrite ltb_spec, sqrt_spec. change (Prim2SF 0) with (S754_zero false).
  unfold SF64sqrt, SFsqrt.
  destruct (Prim2SF x) as [s|[|]| |[|] m e]; try reflexivity.
  destruct (SFsqrt_core_binary prec emax (Z.pos m) e) as [[mz ez] lz].
  apply binary_round_aux_sign.
Qed.

Lemma min_sign (a b : float) :
  (a <? 0) = false -> (b <? 0) = false -> (js_min a b <? 0) = false.
Proof.
  intros Ha Hb. unfold js_min.
  destruct (_ || _)%bool; [reflexivity|].
  destruct (a <? b); [exact Ha|].
  destruct (b <? a); [exact Hb|].
  destruct (get_sign a); assumption.
Qed.

Lemma leb_sign (x t : float) :
  (x <=? t) = true -> (x <? 0) = false -> (0 <=? t) = true.
Proof.
  rewrite !leb_spec, ltb_spec. change (Prim2SF 0) with (S754_zero false).
  unfold SFleb, SFltb.
  destruct (Prim2SF x) as [sx|[|]| |[|] mx ex];
    destruct (Prim2SF t) as [st|[|]| |[|] mt et];
    simpl; try discriminate; try reflexivity.
Qed.

End Float64Signs.

Module Float64Tolerance.

Import Float64 Float64Signs.
Local Open Scope float_scope.

(** A product with [NaN] is [NaN]. *)
Lemma mul_nan (x : float) : x * nan = nan.
Proof.
  apply Prim2SF_inj. rewrite mul_spec. change (Prim2SF nan) with S754_nan.
  unfold SF64mul, SFmul. destruct (Prim2SF x); reflexivity.
Qed.

(** X8: on binary64 numbers, a query whose tolerance is negative,
    [-Infinity] or [NaN] returns nothing, whatever the index holds and
    wherever the query point is: no distance the detector computes is
    below [0]. *)
Theorem no_hit_below_zero
  {PT : PolygonTest float} {RB : @RBush float number}
  (d : Detector float) (P : Coordinate float) (t : float) :
  (0 <=? t) = false ->
  detectFeaturesAtCoordinate P t d = [].
Proof.
  intros Ht.
  apply (@detect_below_zero float number PT RB sqrt_sign min_sign
           eq_refl eq_refl leb_sign).
  exact Ht.
Qed.

(** X18: on binary64 numbers, a query at a pixel returns nothing, and
    [getFeatureAtPixel] returns [undefined], when the hit tolerance times
    the resolution is negative or [NaN]; this is the case whenever the view
    gives no resolution, since a product with [NaN] is [NaN]. *)
Theorem pixel_query_below_zero
  {PT : PolygonTest float} {RB : @RBush float number}
  (d : Detector float) (map : OlMap float) (pixel : Pixel float)
  (options : DetectOptions float) :
  (0 <=? hitToleranceOr0 options * getResolution map) = false \/
  getResolution map = nan ->
  detectFeaturesAtPixel map pixel options d = [] /\
  getFeatureAtPixel map pixel options d = None.
Proof.
  intros H.
  assert (Ht : (0 <=? hitToleranceOr0 options * getResolution map) = false).
  { destruct H as [H | H]; [exact H|]. rewrite H, mul_nan. reflexivity. }
  assert (E : detectFeaturesAtPixel map pixel options d = []).
  { unfold detectFeaturesAtPixel.
    apply (@detect_below_zero float number PT RB sqrt_sign min_sign
             eq_refl eq_refl leb_sign).
    exact Ht. }
  split; [exact E|]. unfold getFeatureAtPixel. rewrite E. reflexivity.
Qed.

End Float64Tolerance.

(** ** Queries at a pixel, on exact numbers *)

Module PixelFacts.

Import Exact SegmentSpec ExactFacts.
Local Open Scope R_scope.

(** [options.hitTolerance || 0] on a number that is not negative. *)
Lemma hitToleranceOr0_exact (h : option R) delay key :
  hitToleranceOr0 (mkOptions (option_map Finite h) delay key)
  = Finite (match h with Some x => x | None => 0 end).
Proof.
  unfold hitToleranceOr0. cbn [hitTolerance].
  destruct h as [x|]; [|reflexivity]. cbn [option_map].
  unfold n_truthy. cbn [n_eqb n_zero number eqb].
  unfold Reqb. destruct (Req_dec_T x x) as [_ | Hn]; [|congruence].
  destruct (Req_dec_T x 0) as [-> | _]; reflexivity.
Qed.

(** X19: for an indexed point feature, on exact numbers,
    [detectFeaturesAtPixel] returns the feature exactly when the coordinate
    of the pixel is within [hitTolerance] times the resolution of the
    point; without [hitTolerance] the tolerance is [0], and the feature is
    returned only when the pixel shows the point itself. *)
Theorem point_at_pixel
  {PT : PolygonTest xreal} {RB : @RBush xreal number}
  (fs : list (Feature xreal)) (d d' : Detector xreal)
  (f : Feature xreal) (C P : R * R)
  (map : OlMap xreal) (pixel : Pixel xreal)
  (h : option R) (r : R) delay key :
  updateFeatures fs d = Normal d' ->
  distinctObjects fs ->
  In f fs ->
  getGeometry f = Some (Point (exact C)) ->
  getCoordinateFromPixel map pixel = exact P ->
  getResolution map = Finite r ->
  (In f (detectFeaturesAtPixel map pixel (mkOptions (option_map Finite h)
                                                    delay key) d')
   <-> euclidean P C <= match h with Some x => x | None => 0 end * r) /\
  (h = None ->
   (In f (detectFeaturesAtPixel map pixel (mkOptions None delay key) d')
    <-> P = C)).
Proof.
  intros Hup Hdist Hin Hgeo Hcoord Hres.
  assert (Hiff : forall t,
             In f (detectFeaturesAtCoordinate (exact P) (Finite t) d')
             <-> euclidean P C <= t).
  { intros t. split.
    - intros H. unfold detectFeaturesAtCoordinate in H.
      apply in_map_iff in H as (hit & Hf & Hh).
      destruct (@point_hit _ _ _ _ fs d d' f (exact C) Hup Hdist Hin Hgeo
                  (exact P) (Finite t) hit Hh) as (_ & _ & Hle);
        [rewrite Hf; reflexivity|].
      rewrite getDistanceToPoint_exact in Hle. apply Rleb_le. exact Hle.
    - intros He. unfold detectFeaturesAtCoordinate.
      change f with (hit_feature (mkHit f (Finite (euclidean P C)))).
      apply in_map. rewrite <- getDistanceToPoint_exact.
      apply (@point_found _ _ _ _ fs d d' f (exact C) Hup Hdist Hin Hgeo).
      + destruct (euclidean_bounds P C He) as (H1 & H2 & H3 & H4).
        unfold intersects, queryBox, exact. simpl.
        rdec; try reflexivity; lra.
      + rewrite getDistanceToPoint_exact. simpl. rdec; [reflexivity | lra]. }
  assert (Hpix : forall h',
             detectFeaturesAtPixel map pixel
               (mkOptions (option_map Finite h') delay key) d'
             = detectFeaturesAtCoordinate (exact P)
                 (Finite (match h' with Some x => x | None => 0 end * r)) d').
  { intros h'. unfold detectFeaturesAtPixel.
    rewrite Hcoord, Hres, hitToleranceOr0_exact. reflexivity. }
  split.
  - rewrite Hpix. apply Hiff.
  - intros ->. change (@None xreal) with (option_map Finite None).
    rewrite Hpix, Hiff. rewrite Rmult_0_l. split.
    + intros He. pose proof (euclidean_nonneg P C) as Hpos.
      assert (Hz : euclidean P C = 0) by lra.
      unfold euclidean in Hz. apply sqrt_eq_0 in Hz;
        [|apply sum_squares_nonneg].
      destruct P as [px py], C as [cx cy]. cbn [fst snd] in Hz.
      destruct (Rplus_sqr_eq_0 (px - cx) (py - cy) Hz) as [Hx Hy].
      f_equal; lra.
    + intros ->. unfold euclidean.
      replace ((fst C - fst C) * (fst C - fst C)
               + (snd C - snd C) * (snd C - snd C)) with 0 by ring.
      rewrite sqrt_0. lra.
Qed.

End PixelFacts.


(** ** The laws at sample inputs *)

Section ExactShapeRuns.

Import Exact SegmentSpec LineSpec ExactSample ExactShapes ExactFacts.
Local Existing Instance linearSearch.
Local Existing Instance exteriorRingTest.
Local Open Scope R_scope.

Lemma only_one (f : Feature xreal) : distinctObjects [f].
Proof. intros a b [<- | []] [<- | []] _. reflexivity. Qed.

Lemma line_within_tolerance_witness :
  (In bentLine
      (detectFeaturesAtCoordinate (exact (2, 1)) (Finite 1) (holding bentLine))
   <-> exists q, onLine q bentCoords /\ euclidean (2, 1) q <= 1) /\
  forall h,
    In h (detectHits (exact (2, 1)) (Finite 1) (holding bentLine)) ->
    hit_feature h = bentLine ->
    exists q, onLine q bentCoords /\
              hit_distance h = Finite (euclidean (2, 1) q) /\
              euclidean (2, 1) q <= 1.
Proof.
  apply (@LineQueries.line_within_tolerance _ _ [bentLine] emptyDetector
           (holding bentLine) bentLine bentCoords (2, 1) 1).
  - reflexivity.
  - apply only_one.
  - left. reflexivity.
  - reflexivity.
Defined.

Lemma segment_item_in_reach_witness :
  intersects (queryBox (exact (0, 0)) (Finite 0))
             (segmentItem bentLine 0 (exact (0, 0)) (exact (4, 0))) = true /\
  candidateDistance (exact (0, 0))
    (segmentItem bentLine 0 (exact (0, 0)) (exact (4, 0)))
  = Finite (segmentDistance (0, 0) (0, 0) (4, 0)) /\
  leb (candidateDistance (exact (0, 0))
         (segmentItem bentLine 0 (exact (0, 0)) (exact (4, 0))))
      (Finite 0) = true.
Proof.
  apply (@BoxFacts.segment_item_in_reach _ bentLine 0%nat
           (0, 0) (4, 0) (0, 0) 0).
  eapply Rle_trans;
    [apply (@segmentDistance_least (0, 0) (0, 0) (4, 0) 0); lra|].
  unfold euclidean, pointAt. cbn [fst snd].
  replace ((0 - (0 + 0 * (4 - 0))) * (0 - (0 + 0 * (4 - 0)))
           + (0 - (0 + 0 * (0 - 0))) * (0 - (0 + 0 * (0 - 0))))
    with 0 by ring.
  rewrite sqrt_0. lra.
Defined.

Lemma distance_to_extent_witness :
  exists q,
    inBox q 0 0 2 1 /\
    getDistanceToFeature (exact (5, 5)) box = Finite (euclidean (5, 5) q) /\
    (forall q', inBox q' 0 0 2 1 -> euclidean (5, 5) q <= euclidean (5, 5) q') /\
    (inBox (5, 5) 0 0 2 1 ->
     getDistanceToFeature (exact (5, 5)) box = Finite 0).
Proof.
  apply (@BoxFacts.distance_to_extent _ box (5, 5) 0 0 2 1).
  - reflexivity.
  - lra.
  - lra.
Defined.

Lemma other_within_tolerance_witness :
  In box (detectFeaturesAtCoordinate (exact (3, 1)) (Finite 1) (holding box))
  <-> exists q, inBox q 0 0 2 1 /\ euclidean (3, 1) q <= 1.
Proof.
  apply (@BoxFacts.other_within_tolerance _ _ [box] emptyDetector
           (holding box) box 0 0 2 1 (3, 1) 1).
  - reflexivity.
  - apply only_one.
  - left. reflexivity.
  - reflexivity.
  - lra.
  - lra.
Defined.

Lemma polygon_within_tolerance_witness :
  In triangle
     (detectFeaturesAtCoordinate (exact (1, 1)) (Finite 0) (holding triangle))
  <->
  (exists q, onLine q triangleRing /\ euclidean (1, 1) q <= 0) \/
  (intersectsCoordinate (map (map exact) [triangleRing]) (exact (1, 1)) = true /\
   0 <= 0 /\
   (boxInReach (1, 1) 0 triangleRing \/
    boxInReach (1, 1) 0 (concat [triangleRing]))).
Proof.
  apply (@PolygonFacts.polygon_within_tolerance _ _ [triangle] emptyDetector
           (holding triangle) triangle triangleRing [] (1, 1) 0).
  - reflexivity.
  - apply only_one.
  - left. reflexivity.
  - reflexivity.
Defined.

Lemma point_at_pixel_witness :
  (In origin
      (detectFeaturesAtPixel plainView (exact (0, 1))
         (mkOptions (option_map Finite None) None None) originDetector)
   <-> euclidean (0, 1) (0, 0) <= 0 * 2) /\
  (@None R = None ->
   (In origin
       (detectFeaturesAtPixel plainView (exact (0, 1))
          (mkOptions None None None) originDetector)
    <-> (0, 1) = (0, 0))).
Proof.
  apply (@PixelFacts.point_at_pixel _ _ [origin] emptyDetector originDetector
           origin (0, 0) (0, 1) plainView (exact (0, 1)) None 2
           None None).
  - reflexivity.
  - apply only_one.
  - left. reflexivity.
  - reflexivity.
  - reflexivity.
  - reflexivity.
Defined.

End ExactShapeRuns.

Section HoverRuns.

Import Float64 Sample HoverSample.
Local Existing Instance linearSearch.
Local Existing Instance exteriorRingTest.
Local Open Scope float_scope.

Lemma hovering_reachable : reachable hovering.
Proof.
  unfold hovering. apply reach_debounced; [|exact I].
  apply reach_initial. reflexivity.
Defined.

Lemma detect_returns_tracked_witness :
  In pointFeature [pointFeature] /\
  In pointFeature (features (detectorOf [pointFeature])) /\
  getGeometry pointFeature <> None /\
  exists item,
    In item (itemsOf pointFeature) /\
    intersects (queryBox (0, 0) 0) item = true /\
    n_leb (candidateDistance (0, 0) item) 0 = true.
Proof.
  apply (@detect_returns_tracked float _ _ _ [pointFeature] emptyDetector
           (detectorOf [pointFeature]) (0, 0) 0 pointFeature).
  - reflexivity.
  - left. reflexivity.
Defined.

Lemma no_hit_below_zero_witness :
  detectFeaturesAtCoordinate (0, 0) (-1) (detectorOf [pointFeature]) = [].
Proof.
  apply (@Float64Tolerance.no_hit_below_zero _ _
           (detectorOf [pointFeature]) (0, 0) (-1)).
  reflexivity.
Defined.

Lemma pixel_query_below_zero_witness :
  detectFeaturesAtPixel (mkOlMap (fun pixel => pixel) nan) (0, 0) (hover 50)
    (detectorOf [pointFeature]) = [] /\
  getFeatureAtPixel (mkOlMap (fun pixel => pixel) nan) (0, 0) (hover 50)
    (detectorOf [pointFeature]) = None.
Proof.
  apply (@Float64Tolerance.pixel_query_below_zero _ _
           (detectorOf [pointFeature]) (mkOlMap (fun pixel => pixel) nan)
           (0, 0) (hover 50)).
  right. reflexivity.
Defined.

Lemma point_at_itself_witness :
  In (mkHit pointFeature 0) (detectHits (0, 0) 0 (detectorOf [pointFeature])) /\
  In pointFeature
     (detectFeaturesAtCoordinate (0, 0) 0 (detectorOf [pointFeature])).
Proof.
  apply (@Float64Facts.point_at_itself _ _ [pointFeature] emptyDetector
           (detectorOf [pointFeature]) pointFeature 0 0).
  - reflexivity.
  - intros a b [<- | []] [<- | []] _. reflexivity.
  - left. reflexivity.
  - reflexivity.
  - reflexivity.
  - reflexivity.
Defined.

Lemma clearDebounceTimers_cancels_all_witness :
  pending (clearDebounceTimers hovering) = [] /\
  debounceTimers (detector (clearDebounceTimers hovering)) = [] /\
  invocations (advanceTo 100 (clearDebounceTimers hovering))
  = invocations hovering /\
  pending (advanceTo 100 (clearDebounceTimers hovering)) = [].
Proof.
  apply (@clearDebounceTimers_cancels_all float _ _ _ hovering 100%nat).
  exact hovering_reachable.
Defined.

Lemma one_timer_per_key_witness :
  NoDup (map (@task_key float) (pending hovering)) /\
  (forall key,
      mapGet key (debounceTimers (detector hovering)) <> None <->
      exists t, In t (pending hovering) /\ task_key t = key) /\
  (pending hovering = [] -> debounceTimers (detector hovering) = []).
Proof.
  apply (@one_timer_per_key float _ _ _ hovering).
  unfold hovering. apply returning_debounced; [|exact I|exact I].
  apply returning_initial. reflexivity.
Defined.

Lemma debounced_replaces_own_key_witness :
  let key := debounceKeyOrDefault (hover 50) in
  let w' := detectFeaturesAtPixelDebounced identityView (1, 0) (Observe 2)
              (hover 50) hovering in
  pending w'
  = filter (fun t => negb (String.eqb (task_key t) key)) (pending hovering)
    ++ [{| task_id := nextTimer hovering;
           task_due := (clock hovering + debounceDelayOr50 (hover 50))%nat;
           task_key := key;
           task_map := identityView;
           task_pixel := (1, 0);
           task_callback := Observe 2;
           task_options := hover 50 |}] /\
  invocations w' = invocations hovering /\
  tree (detector w') = tree (detector hovering) /\
  features (detector w') = features (detector hovering).
Proof.
  apply (@debounced_replaces_own_key float _ _ _ identityView (1, 0)
           (Observe 2) (hover 50) hovering).
  exact hovering_reachable.
Defined.

Lemma clear_resets_all_witness :
  features (detector (clear hovering)) = [] /\
  rb_all (tree (detector (clear hovering))) = [] /\
  debounceTimers (detector (clear hovering)) = [] /\
  pending (clear hovering) = [] /\
  (forall P t, detectFeaturesAtCoordinate P t (detector (clear hovering)) = []) /\
  invocations (advanceTo 100 (clear hovering)) = invocations hovering.
Proof.
  apply (@clear_resets_all float _ _ _ hovering 100%nat).
  exact hovering_reachable.
Defined.

Lemma debounced_query_sees_update_witness :
  let w2 := updateFeaturesIn [pointFeature]
              (issueCall (initialWorld emptyDetector) firstMove) in
  invocations (advanceTo 50 w2)
  = invocations (initialWorld emptyDetector)
    ++ [mkInvocation (nextTimer (initialWorld emptyDetector)) 1
          (resultOfCall firstMove (detector w2))] /\
  pending (advanceTo 50 w2) = [] /\
  features (detector (advanceTo 50 w2)) = [pointFeature].
Proof.
  apply (@debounced_query_sees_update float _ _ _
           (initialWorld emptyDetector) firstMove 1%nat [pointFeature] 50%nat).
  - reflexivity.
  - simpl. lia.
  - reflexivity.
  - vm_compute. lia.
Defined.

(** A callback that throws: its timer runs once, the key stays in
    [debounceTimers] with no timer pending, and [clearDebounceTimers]
    removes it. *)
Example throwing_callback :
  let w := detectFeaturesAtPixelDebounced identityView (0, 0)
             (Throws (Observe 1)) (hover 50)
             (initialWorld (detectorOf [pointFeature])) in
  pending (advanceTo 50 w) = [] /\
  map (@inv_label float) (invocations (advanceTo 50 w)) = [1%nat] /\
  debounceTimers (detector (advanceTo 50 w)) = [("hover"%string, 0%nat)] /\
  pending (clearDebounceTimers (advanceTo 50 w)) = [] /\
  debounceTimers (detector (clearDebounceTimers (advanceTo 50 w))) = [].
Proof. vm_compute. repeat split; reflexivity. Qed.

Lemma thrown_callback_keeps_key_witness :
  let w := detectFeaturesAtPixelDebounced identityView (0, 0)
             (Throws (Observe 1)) (hover 50)
             (initialWorld (detectorOf [pointFeature])) in
  let task := mkTask 0 50 "hover" identityView (0, 0) (Throws (Observe 1))
                (hover 50) in
  mapGet (task_key task) (debounceTimers (detector (fire task w)))
  = Some (task_id task) /\
  forall t, In t (pending (fire task w)) -> task_id t <> task_id task.
Proof.
  intros w task.
  apply (@thrown_callback_keeps_key float _ _ _ task w).
  - unfold w. apply reach_debounced; [|exact I].
    apply reach_initial. reflexivity.
  - left. reflexivity.
  - reflexivity.
Defined.

End HoverRuns.


(** ** A wider tolerance, and ties in distance, on exact numbers *)

Module OrderFacts.

Import Exact SegmentSpec ExactFacts.
Local Open Scope R_scope.

Lemma leb_Finite_le a b : a <= b -> leb (Finite a) (Finite b) = true.
Proof. intros H. apply Rleb_le. exact H. Qed.

(** The query box grows with the tolerance. *)
Lemma intersects_wider (p : R * R) (t t' : R) (item : IndexItem xreal) :
  t <= t' ->
  intersects (queryBox (exact p) (Finite t)) item = true ->
  intersects (queryBox (exact p) (Finite t')) item = true.
Proof.
  intros Ht. unfold intersects, queryBox, exact.
  cbn [fst snd box_minX box_minY box_maxX box_maxY n_leb n_add n_sub number].
  rewrite !sub_Finite, !add_Finite. intros H.
  repeat (apply andb_true_iff in H as [H ?]).
  repeat (apply andb_true_iff; split).
  - eapply leb_trans; [exact H|]. apply leb_Finite_le. lra.
  - eapply leb_trans; [eassumption|]. apply leb_Finite_le. lra.
  - eapply leb_trans; [|eassumption]. apply leb_Finite_le. lra.
  - eapply leb_trans; [|eassumption]. apply leb_Finite_le. lra.
Qed.

(** X21: on exact numbers, a wider tolerance never loses a feature: every
    feature a query at [p] returns with tolerance [t] is returned by the
    query at [p] with any tolerance [t' >= t], whatever its geometry. *)
Theorem wider_tolerance_keeps_features
  {PT : PolygonTest xreal} {RB : @RBush xreal number}
  (fs : list (Feature xreal)) (d d' : Detector xreal)
  (f : Feature xreal) (p : R * R) (t t' : R) :
  updateFeatures fs d = Normal d' ->
  distinctObjects fs ->
  t <= t' ->
  In f (detectFeaturesAtCoordinate (exact p) (Finite t) d') ->
  In f (detectFeaturesAtCoordinate (exact p) (Finite t') d').
Proof.
  intros Hup Hdist Ht Hf.
  assert (Hin : In f fs).
  { unfold detectFeaturesAtCoordinate in Hf.
    apply in_map_iff in Hf as (h & <- & Hh).
    exact (proj1 (@hit_item _ _ _ _ fs d d' Hup (exact p) (Finite t) h Hh)). }
  destruct (@feature_hit _ _ _ _ fs d d' f Hup (exact p) (Finite t) Hf)
    as (h & item & _ & _ & Hi & Hb & Hd & Hle).
  apply (@feature_found _ _ _ _ fs d d' f Hup Hdist Hin
           (exact p) (Finite t') item).
  - exact Hi.
  - eapply intersects_wider; eassumption.
  - rewrite Hd. eapply leb_trans; [exact Hle|]. apply leb_Finite_le. exact Ht.
Qed.

(** *** Ties keep their order *)

Local Abbreviation nearer :=
  (fun a b : Hit xreal => leb (hit_distance a) (hit_distance b) = true).
Local Abbreviation proper :=
  (fun h : Hit xreal => leb (hit_distance h) (hit_distance h) = true).
Local Abbreviation at_distance :=
  (fun (r : xreal) (h : Hit xreal) => eqb (hit_distance h) r).

(** Past a hit that is farther than [x], no hit is at the distance of
    [x]. *)
Lemma farther_not_equal (x y z : xreal) :
  leb x x = true -> leb y x = false -> leb y z = true -> eqb z x = false.
Proof.
  destruct x, y, z; simpl; try discriminate; try reflexivity; intros;
    rdec; try discriminate; try reflexivity; lra.
Qed.

Lemma insertSorted_ties (r : xreal) (x : Hit xreal) (l : list (Hit xreal)) :
  proper x -> Forall proper l -> StronglySorted nearer l ->
  filter (at_distance r) (insertSorted (@byDistance xreal number) x l)
  = filter (at_distance r) l ++ filter (at_distance r) [x].
Proof.
  intros Hx. induction l as [|y l IH]; intros Hp Hs; [reflexivity|].
  inversion Hp as [|? ? Hy Hp']; subst.
  inversion Hs as [|? ? Hs' Hall]; subst.
  cbn [insertSorted]. rewrite (byDistance_positive Hy Hx).
  destruct (leb (hit_distance y) (hit_distance x)) eqn:E; cbn [negb].
  - cbn [filter]. rewrite (IH Hp' Hs').
    destruct (eqb (hit_distance y) r); reflexivity.
  - cbn [filter].
    destruct (eqb (hit_distance x) r) eqn:Ex; [|rewrite app_nil_r; reflexivity].
    assert (Hnone : filter (at_distance r) (y :: l) = []).
    { assert (Hall' : Forall (fun z => leb (hit_distance y) (hit_distance z)
                                       = true) (y :: l))
        by (constructor; assumption).
      clear - Hall' Hx E Ex. induction Hall' as [|z l' Hz _ IHl];
        [reflexivity|].
      cbn [filter].
      replace (eqb (hit_distance z) r) with false; [exact IHl|].
      symmetry.
      destruct (eqb (hit_distance z) r) eqn:Ez; [|reflexivity].
      pose proof (farther_not_equal _ _ _ Hx E Hz) as Hne.
      destruct (hit_distance x), (hit_distance z), r; simpl in *;
        try discriminate; rdec; try discriminate; try lra; congruence. }
    cbn [filter] in Hnone. rewrite Hnone. reflexivity.
Qed.

Lemma arraySort_ties (r : xreal) (l : list (Hit xreal)) :
  Forall proper l ->
  filter (at_distance r) (arraySort (@byDistance xreal number) l)
  = filter (at_distance r) l.
Proof.
  unfold arraySort. intros Hl.
  assert (G : forall acc,
             Forall proper acc -> StronglySorted nearer acc ->
             filter (at_distance r)
               (fold_left (fun sorted x =>
                             insertSorted (@byDistance xreal number) x sorted)
                          l acc)
             = filter (at_distance r) acc ++ filter (at_distance r) l).
  { induction Hl as [|x l Hx Hl IH]; intros acc Ha Hs; cbn [fold_left].
    - rewrite app_nil_r. reflexivity.
    - rewrite IH.
      + rewrite (insertSorted_ties r Hx Ha Hs), <- app_assoc.
        change (x :: l) with ([x] ++ l). rewrite filter_app. reflexivity.
      + eapply Permutation_Forall;
          [apply Permutation_sym, insertSorted_perm|].
        constructor; assumption.
      + apply Sorted_StronglySorted; [intros a b c; apply leb_trans|].
        apply insertSorted_Sorted; [exact Hx | exact Ha|].
        apply StronglySorted_Sorted. exact Hs. }
  rewrite G; [reflexivity | constructor | constructor].
Qed.

(** X22: the sort is stable: on exact numbers, the hits at one and the same
    distance come out in the order in which the tree enumerated their
    items, for every distance. *)
Theorem ties_keep_scan_order
  {PT : PolygonTest xreal} {RB : @RBush xreal number}
  (P : Coordinate xreal) (t : xreal) (d : Detector xreal) (r : xreal) :
  filter (fun h => eqb (hit_distance h) r) (detectHits P t d)
  = filter (fun h => eqb (hit_distance h) r) (scanned P t d).
Proof.
  unfold detectHits. fold (scanned P t d).
  apply arraySort_ties.
  destruct (scanned_spec P t d) as (_ & Hfrom & _).
  eapply Forall_impl; [|exact Hfrom].
  intros h (c & _ & _ & _ & Hle). simpl.
  eapply leb_refl_l. exact Hle.
Qed.

End OrderFacts.

(** ** binary64 numbers: a segment that is a point *)

Module Float64Segments.

Import Float64 Float64Facts.
Local Open Scope float_scope.

(** X23: on binary64 numbers, the distance to a segment whose two ends are
    the same finite coordinate is the distance to that coordinate, as
    [getDistanceToPoint] computes it. *)
Theorem degenerate_segment_is_point (p a : Coordinate float) :
  PrimFloat.is_finite (fst a) = true ->
  PrimFloat.is_finite (snd a) = true ->
  getDistanceToSegment p a a = getDistanceToPoint p a.
Proof.
  intros Hx Hy. unfold getDistanceToSegment, getDistanceToPoint.
  cbn [n_sub n_eqb n_zero number].
  rewrite (sub_diag _ Hx), (sub_diag _ Hy). reflexivity.
Qed.

End Float64Segments.

Section OrderRuns.

Import Exact SegmentSpec ExactSample ExactFacts.
Local Existing Instance linearSearch.
Local Existing Instance exteriorRingTest.
Local Open Scope R_scope.

Lemma origin_found :
  In origin
     (detectFeaturesAtCoordinate (exact (0, 0)) (Finite 0) originDetector).
Proof.
  apply (@feature_found _ _ _ _ [origin] emptyDetector originDetector origin
           eq_refl (@only_one origin) (or_introl eq_refl)
           (exact (0, 0)) (Finite 0)
           (extentItem origin (getExtent (Point (exact (0, 0)))))).
  - left. reflexivity.
  - unfold intersects, queryBox, exact. simpl. rdec; try reflexivity; lra.
  - rewrite candidateDistance_extentItem.
    rewrite (@getDistanceToFeature_point _ _ _ _ origin (exact (0, 0)) eq_refl).
    rewrite getDistanceToPoint_exact. apply Rleb_le.
    rewrite BoxFacts.euclidean_self. lra.
Defined.

Lemma wider_tolerance_keeps_features_witness :
  In origin
     (detectFeaturesAtCoordinate (exact (0, 0)) (Finite 1) originDetector).
Proof.
  apply (@OrderFacts.wider_tolerance_keeps_features _ _ [origin] emptyDetector
           originDetector origin (0, 0) 0 1).
  - reflexivity.
  - apply only_one.
  - lra.
  - exact origin_found.
Defined.

End OrderRuns.

Section SegmentRuns.

Import Float64 Sample.
Local Open Scope float_scope.

Lemma degenerate_segment_is_point_witness :
  getDistanceToSegment (3, 4) (0, 0) (0, 0) = getDistanceToPoint (3, 4) (0, 0).
Proof.
  apply (@Float64Segments.degenerate_segment_is_point (3, 4) (0, 0));
    reflexivity.
Defined.

End SegmentRuns.

(** * The distances the detector computes *)

(** ** The order of binary64 numbers *)

Module Float64Order.

Import Float64.

Section Rounding.

Local Open Scope Z_scope.

(** A mantissa of [d] binary digits lies in [[2^(d-1), 2^d)]. *)
Lemma digits2_pos_bounds (m : positive) :
  2 ^ (Z.pos (digits2_pos m) - 1) <= Z.pos m < 2 ^ Z.pos (digits2_pos m).
Proof.
  induction m as [m IH | m IH |]; cbn [digits2_pos].
  - rewrite Pos2Z.inj_succ, (Pos2Z.inj_xI m).
    replace (Z.succ (Z.pos (digits2_pos m)) - 1)
      with (Z.pos (digits2_pos m)) by lia.
    rewrite Z.pow_succ_r by lia.
    assert (E : 2 ^ Z.pos (digits2_pos m)
                = 2 * 2 ^ (Z.pos (digits2_pos m) - 1)).
    { rewrite <- Z.pow_succ_r by lia. f_equal. lia. }
    lia.
  - rewrite Pos2Z.inj_succ, (Pos2Z.inj_xO m).
    replace (Z.succ (Z.pos (digits2_pos m)) - 1)
      with (Z.pos (digits2_pos m)) by lia.
    rewrite Z.pow_succ_r by lia.
    assert (E : 2 ^ Z.pos (digits2_pos m)
                = 2 * 2 ^ (Z.pos (digits2_pos m) - 1)).
    { rewrite <- Z.pow_succ_r by lia. f_equal. lia. }
    lia.
  - simpl. lia.
Qed.

(** Shifting a mantissa to a smaller exponent multiplies it by a power of
    two. *)
Lemma iter_xO_value (m d : positive) :
  Z.pos (Pos.iter xO m d) = Z.pos m * 2 ^ Z.pos d.
Proof.
  induction d as [|d IH] using Pos.peano_ind.
  - simpl. lia.
  - rewrite Pos.iter_succ, Pos2Z.inj_xO, IH, Pos2Z.inj_succ.
    rewrite Z.pow_succ_r by lia. lia.
Qed.

Lemma shl_align_fst (m : positive) (e e' : Z) :
  e' <= e -> Z.pos (fst (shl_align m e e')) = Z.pos m * 2 ^ (e - e').
Proof.
  intros H. unfold shl_align. destruct (e' - e) as [|p|p] eqn:E; cbn [fst].
  - replace (e - e') with 0 by lia. simpl. lia.
  - lia.
  - rewrite iter_xO_value. f_equal. f_equal. lia.
Qed.

(** Shifting right by one bit halves the mantissa. *)
Lemma shr_1_lower (k : Z) (mrs : shr_record) :
  0 <= k -> 2 ^ (k + 1) <= shr_m mrs -> 2 ^ k <= shr_m (shr_1 mrs).
Proof.
  intros Hk H. destruct mrs as [m r s]. cbn [shr_m] in H.
  assert (0 < 2 ^ k) by (apply Z.pow_pos_nonneg; lia).
  rewrite Z.pow_add_r, Z.pow_1_r in H by lia.
  destruct m as [|[p|p|]|[p|p|]]; simpl; lia.
Qed.

Lemma iter_shr_1_lower (p : positive) :
  forall (k : Z) (mrs : shr_record),
    0 <= k -> 2 ^ (k + Z.pos p) <= shr_m mrs ->
    2 ^ k <= shr_m (SpecFloat.iter_pos shr_1 p mrs).
Proof.
  induction p as [p IH | p IH |]; intros k mrs Hk H; cbn [SpecFloat.iter_pos].
  - apply IH; [exact Hk|]. apply IH; [lia|]. apply shr_1_lower; [lia|].
    replace (k + Z.pos p + Z.pos p + 1) with (k + Z.pos p~1) by lia.
    exact H.
  - apply IH; [exact Hk|]. apply IH; [lia|].
    replace (k + Z.pos p + Z.pos p) with (k + Z.pos p~0) by lia.
    exact H.
  - apply shr_1_lower; assumption.
Qed.

Lemma shr_m_of_loc (m : Z) (l : location) :
  shr_m (shr_record_of_loc m l) = m.
Proof. destruct l as [|[]]; reflexivity. Qed.

(** Rounding to the format keeps a positive mantissa positive, and the
    exponent in range. *)
Lemma shr_fexp_positive (m e : Z) (l : location) :
  0 < m -> -1074 <= e ->
  0 < shr_m (fst (shr_fexp prec emax m e l)) /\
  -1074 <= snd (shr_fexp prec emax m e l).
Proof.
  intros Hm He. unfold shr_fexp, shr.
  destruct m as [|p|p]; try lia. cbn [Zdigits2].
  pose proof (digits2_pos_bounds p) as [Hlo _].
  unfold fexp, emin, prec, emax.
  destruct (Z.max (Z.pos (digits2_pos p) + e - 53) (3 - 1024 - 53) - e)
    as [|q|q] eqn:E; cbn [fst snd].
  - rewrite shr_m_of_loc. lia.
  - split; [|lia].
    assert (2 ^ 0
            <= shr_m (SpecFloat.iter_pos shr_1 q
                        (shr_record_of_loc (Z.pos p) l))).
    { apply iter_shr_1_lower; [lia|]. rewrite shr_m_of_loc.
      eapply Z.le_trans; [|exact Hlo].
      apply Z.pow_le_mono_r; lia. }
    change (2 ^ 0) with 1 in H. lia.
  - rewrite shr_m_of_loc. lia.
Qed.

Lemma round_nearest_even_lower (m : Z) (l : location) :
  m <= round_nearest_even m l.
Proof.
  destruct l as [|[]]; simpl; try lia.
  match goal with |- context [if ?c then _ else _] => destruct c end; lia.
Qed.

Lemma binary_round_aux_positive (m e : Z) (l : location) :
  0 < m -> -1074 <= e ->
  SFltb (S754_zero false) (binary_round_aux prec emax false m e l) = true.
Proof.
  intros Hm He. unfold binary_round_aux.
  destruct (shr_fexp_positive l Hm He) as [H1 H2].
  destruct (shr_fexp prec emax m e l) as [mrs' e']. cbn [fst snd] in H1, H2.
  pose proof (round_nearest_even_lower (shr_m mrs') (loc_of_shr_record mrs'))
    as Hr.
  assert (Hm2 : 0 < round_nearest_even (shr_m mrs') (loc_of_shr_record mrs'))
    by lia.
  destruct (shr_fexp_positive loc_Exact Hm2 H2) as [H3 H4].
  destruct (shr_fexp prec emax _ e' loc_Exact) as [mrs'' e''].
  cbn [fst snd] in H3, H4.
  destruct (shr_m mrs''); try lia.
  destruct (Z.leb e'' (emax - prec)); reflexivity.
Qed.

Lemma binary_round_positive (m : positive) (e : Z) :
  -1074 <= e ->
  SFltb (S754_zero false) (binary_round prec emax false m e) = true.
Proof.
  intros He. unfold binary_round.
  destruct (shl_align m e (fexp prec emax (Z.pos (digits2_pos m) + e)))
    as [mz ez] eqn:E.
  apply binary_round_aux_positive; [lia|].
  unfold shl_align in E.
  destruct (fexp prec emax (Z.pos (digits2_pos m) + e) - e) eqn:F;
    inversion E; subst; try lia.
  unfold fexp, emin, prec, emax. lia.
Qed.

Lemma binary_round_negative (m : positive) (e : Z) :
  SFltb (S754_zero false) (binary_round prec emax true m e) = false.
Proof.
  unfold binary_round.
  destruct (shl_align m e _) as [mz ez]. unfold binary_round_aux.
  destruct (shr_fexp prec emax (Z.pos mz) ez loc_Exact) as [mrs' e'].
  destruct (shr_fexp prec emax _ e' loc_Exact) as [mrs'' e''].
  destruct (shr_m mrs''); try reflexivity.
  destruct (Z.leb e'' (emax - prec)); reflexivity.
Qed.

(** The mantissa of a binary64 number has at most 53 digits, and exactly
    53 unless the exponent is the least one. *)
Lemma bounded_digits (m : positive) (e : Z) :
  bounded prec emax m e = true ->
  -1074 <= e /\ Z.pos (digits2_pos m) <= 53 /\
  (Z.pos (digits2_pos m) = 53 \/ e = -1074).
Proof.
  unfold bounded, canonical_mantissa, fexp, emin, prec, emax. intros H.
  apply andb_true_iff in H as [H _]. apply Z.eqb_eq in H. lia.
Qed.

(** Of two positive binary64 numbers the one with the larger exponent is
    the larger. *)
Lemma larger_exponent (m1 m2 : positive) (e1 e2 : Z) :
  bounded prec emax m1 e1 = true -> bounded prec emax m2 e2 = true ->
  e1 < e2 -> Z.pos m1 < Z.pos m2 * 2 ^ (e2 - e1).
Proof.
  intros B1 B2 H.
  destruct (bounded_digits _ _ B1) as (He1 & Hd1 & _).
  destruct (bounded_digits _ _ B2) as (He2 & _ & Hc2).
  destruct Hc2 as [Hc2|Hc2]; [|lia].
  pose proof (digits2_pos_bounds m1) as [_ Hhi].
  pose proof (digits2_pos_bounds m2) as [Hlo _].
  rewrite Hc2 in Hlo.
  assert (H53 : 2 ^ Z.pos (digits2_pos m1) <= 2 ^ 53)
    by (apply Z.pow_le_mono_r; lia).
  assert (H2 : 2 ^ 1 <= 2 ^ (e2 - e1)) by (apply Z.pow_le_mono_r; lia).
  change (2 ^ (53 - 1)) with 4503599627370496 in Hlo.
  change (2 ^ 53) with 9007199254740992 in H53.
  change (2 ^ 1) with 2 in H2.
  nia.
Qed.

(** The sign of the difference of two positive binary64 numbers is the
    result of their comparison: no difference of distinct numbers rounds
    to zero. *)
Lemma SFsub_finite_sign (mx my : positive) (ex ey : Z) :
  bounded prec emax mx ex = true -> bounded prec emax my ey = true ->
  SFltb (S754_zero false)
        (SFsub prec emax (S754_finite false mx ex) (S754_finite false my ey))
  = negb (SFleb (S754_finite false mx ex) (S754_finite false my ey)).
Proof.
  intros Bx By.
  destruct (bounded_digits _ _ Bx) as (Hex & _).
  destruct (bounded_digits _ _ By) as (Hey & _).
  unfold SFsub. cbn [cond_Zopp].
  rewrite !shl_align_fst by lia.
  unfold SFleb, SFcompare.
  destruct (Z.compare_spec ex ey) as [E|E|E].
  - subst ey. rewrite Z.min_id, Z.sub_diag. cbn [Z.pow]. rewrite !Z.mul_1_r.
    change (Pos.compare_cont Eq mx my) with (Pos.compare mx my).
    destruct (Pos.compare_spec mx my) as [F|F|F].
    + subst my. rewrite Z.sub_diag. reflexivity.
    + destruct (Z.pos mx - Z.pos my) eqn:G; try lia.
      cbn [binary_normalize negb]. apply binary_round_negative.
    + destruct (Z.pos mx - Z.pos my) eqn:G; try lia.
      cbn [binary_normalize negb]. apply binary_round_positive. exact Hex.
  - rewrite Z.min_l by lia. rewrite Z.sub_diag. cbn [Z.pow].
    rewrite Z.mul_1_r.
    pose proof (@larger_exponent _ _ _ _ Bx By E) as L.
    destruct (Z.pos mx - Z.pos my * 2 ^ (ey - ex)) eqn:G; try lia.
    cbn [binary_normalize negb]. apply binary_round_negative.
  - rewrite Z.min_r by lia. rewrite Z.sub_diag. cbn [Z.pow].
    rewrite Z.mul_1_r.
    pose proof (@larger_exponent _ _ _ _ By Bx E) as L.
    destruct (Z.pos mx * 2 ^ (ex - ey) - Z.pos my) eqn:G; try lia.
    cbn [binary_normalize negb]. apply binary_round_positive. exact Hey.
Qed.

Lemma SFcompare_antisym (x y : spec_float) :
  SFcompare y x = option_map CompOpp (SFcompare x y).
Proof.
  destruct x as [sx|sx| |sx mx ex], y as [sy|sy| |sy my ey];
    try (destruct sx); try (destruct sy); try reflexivity;
    cbn [SFcompare option_map]; rewrite (Z.compare_antisym ex ey);
    destruct (Z.compare ex ey); cbn [CompOpp]; try reflexivity;
    assert (A : Pos.compare_cont Eq my mx
                = CompOpp (Pos.compare_cont Eq mx my))
      by (rewrite Pos.compare_cont_antisym; reflexivity);
    rewrite A, ?CompOpp_involutive; reflexivity.
Qed.

(** Among positive binary64 numbers, [<=] compares the exponents, then
    the mantissas. *)
Lemma SFleb_finite (mx my : positive) (ex ey : Z) :
  SFleb (S754_finite false mx ex) (S754_finite false my ey) = true
  <-> ex < ey \/ (ex = ey /\ Z.pos mx <= Z.pos my).
Proof.
  unfold SFleb, SFcompare.
  destruct (Z.compare_spec ex ey) as [E|E|E].
  - change (Pos.compare_cont Eq mx my) with (Pos.compare mx my).
    destruct (Pos.compare_spec mx my) as [F|F|F]; split; intros H;
      try reflexivity; try discriminate; lia.
  - split; [left; exact E | reflexivity].
  - split; [discriminate | lia].
Qed.

End Rounding.

Local Open Scope float_scope.

(** For binary64 numbers that are neither [NaN] nor negative: the
    difference [x - y] is above [0] exactly when [x <= y] fails. *)
Lemma float_sub_positive (x y : float) :
  (x <=? x) = true -> (x <? 0) = false ->
  (y <=? y) = true -> (y <? 0) = false ->
  (0 <? x - y) = negb (x <=? y).
Proof.
  rewrite !leb_spec, !ltb_spec, sub_spec.
  pose proof (Prim2SF_valid x) as Vx. pose proof (Prim2SF_valid y) as Vy.
  change (Prim2SF 0) with (S754_zero false). unfold SF64sub.
  destruct (Prim2SF x) as [sx|[|]| |[|] mx ex];
    destruct (Prim2SF y) as [sy|[|]| |[|] my ey];
    intros H1 H2 H3 H4; try discriminate; try reflexivity.
  - destruct sx, sy; reflexivity.
  - apply SFsub_finite_sign; assumption.
Qed.

Lemma float_leb_refl_l (a b : float) : (a <=? b) = true -> (a <=? a) = true.
Proof.
  rewrite !leb_spec. unfold SFleb.
  destruct (Prim2SF a) as [sa|[|]| |sa ma ea];
    destruct (Prim2SF b) as [sb|[|]| |sb mb eb];
    try discriminate; try reflexivity; intros _;
    rewrite Float64Facts.SFcompare_finite_refl; reflexivity.
Qed.

Lemma float_leb_total (a b : float) :
  (a <=? a) = true -> (b <=? b) = true ->
  (a <=? b) = false -> (b <=? a) = true.
Proof.
  rewrite !leb_spec. unfold SFleb.
  rewrite (SFcompare_antisym (Prim2SF a) (Prim2SF b)).
  destruct (SFcompare (Prim2SF a) (Prim2SF b)) as [[| |]|] eqn:E;
    cbn [option_map CompOpp]; intros Ha Hb H;
    try discriminate; try reflexivity.
  revert E Ha Hb.
  destruct (Prim2SF a) as [sa|[|]| |sa ma ea];
    destruct (Prim2SF b) as [sb|[|]| |sb mb eb];
    simpl; intros; discriminate.
Qed.

Lemma float_leb_trans (a b c : float) :
  (a <? 0) = false -> (b <? 0) = false -> (c <? 0) = false ->
  (a <=? b) = true -> (b <=? c) = true -> (a <=? c) = true.
Proof.
  rewrite !leb_spec, !ltb_spec. change (Prim2SF 0) with (S754_zero false).
  destruct (Prim2SF a) as [sa|[|]| |[|] ma ea];
    destruct (Prim2SF b) as [sb|[|]| |[|] mb eb];
    destruct (Prim2SF c) as [sc|[|]| |[|] mc ec];
    intros H1 H2 H3 H4 H5; try discriminate; try reflexivity.
  apply SFleb_finite in H4, H5. apply SFleb_finite. lia.
Qed.

End Float64Order.

(** ** The order of the hits *)

Section FirstCandidate.

Variable num : Type.
Context {N : Number num} {PT : PolygonTest num} {RB : @RBush num N}.
Local Open Scope num_scope.

Lemma firstCandidate_more (P : Coordinate num) (t : num)
  (pre more : list (IndexItem num)) (h : Hit num) :
  firstCandidate P t pre h -> firstCandidate P t (pre ++ more) h.
Proof.
  intros (before & c & after & -> & H).
  exists before, c, (after ++ more). split; [|exact H].
  rewrite <- app_assoc. reflexivity.
Qed.

(** The loop records, for each feature, the first of its candidates within
    tolerance. *)
Lemma scan_first (P : Coordinate num) (t : num) (cs : list (IndexItem num)) :
  forall (pre : list (IndexItem num)) seen hits,
    Forall (firstCandidate P t pre) hits ->
    (forall c, In c pre -> (candidateDistance P c <=? t) = true ->
               In (fid (feature c)) seen) ->
    let st := fold_left (scanCandidate P t) cs (seen, hits) in
    Forall (firstCandidate P t (pre ++ cs)) (snd st) /\
    (forall c, In c (pre ++ cs) -> (candidateDistance P c <=? t) = true ->
               In (fid (feature c)) (fst st)).
Proof.
  induction cs as [|c cs IH]; intros pre seen hits Hfirst Hcov.
  - simpl. rewrite app_nil_r. auto.
  - cbn [fold_left].
    replace (pre ++ c :: cs) with ((pre ++ [c]) ++ cs)
      by (rewrite <- app_assoc; reflexivity).
    destruct (scanCandidate_cases P t seen hits c) as [[-> Hc] | [-> [Hn Hd]]].
    + apply IH.
      * eapply Forall_impl; [|exact Hfirst].
        intros h. apply firstCandidate_more.
      * intros c' Hin Hd. apply in_app_or in Hin as [Hin | [<- | []]]; auto.
        destruct Hc as [Hc | Hc]; [exact Hc | congruence].
    + apply IH.
      * apply Forall_app. split.
        -- eapply Forall_impl; [|exact Hfirst].
           intros h. apply firstCandidate_more.
        -- constructor; [|constructor].
           exists pre, c, []. cbn [hit_feature hit_distance].
           repeat split; try reflexivity; try exact Hd.
           intros c' Hin Hid.
           destruct (candidateDistance P c' <=? t) eqn:E; [|reflexivity].
           exfalso. apply Hn. rewrite <- Hid. apply Hcov; assumption.
      * intros c' Hin Hd'. rewrite in_app_iff.
        apply in_app_or in Hin as [Hin | [<- | []]];
          [left; auto | right; simpl; auto].
Qed.

Lemma detectHits_first (P : Coordinate num) (t : num) (d : Detector num) :
  Forall (firstCandidate P t (rb_search (tree d) (queryBox P t)))
         (detectHits P t d).
Proof.
  eapply Permutation_Forall; [apply Permutation_sym, detectHits_perm|].
  unfold scanned.
  destruct (@scan_first P t (rb_search (tree d) (queryBox P t)) [] [] []
              (Forall_nil _)) as [H _]; [intros c []|].
  exact H.
Qed.

End FirstCandidate.

Section SortLaws.

Variable num : Type.
Context {N : Number num}.
Local Open Scope num_scope.

(** What the numbers that are compared have to satisfy: the difference of
    two of them is above [0] exactly when the first is not at most the
    second, and [<=] is a total preorder on them. *)
Variable ordered : num -> Prop.
Hypothesis difference_sign :
  forall y x : num,
    ordered y -> ordered x -> (y - x >? n_zero) = negb (y <=? x).
Hypothesis order_total :
  forall a b : num,
    ordered a -> ordered b -> (a <=? b) = false -> (b <=? a) = true.
Hypothesis order_trans :
  forall a b c : num,
    ordered a -> ordered b -> ordered c ->
    (a <=? b) = true -> (b <=? c) = true -> (a <=? c) = true.

Local Abbreviation closer :=
  (fun a b : Hit num =>
     ordered (hit_distance a) /\ ordered (hit_distance b) /\
     (hit_distance a <=? hit_distance b) = true).
Local Abbreviation comparable :=
  (fun h : Hit num => ordered (hit_distance h)).

Lemma insertSorted_head (y x : Hit num) (l : list (Hit num)) :
  HdRel closer y l -> closer y x ->
  HdRel closer y (insertSorted (@byDistance num N) x l).
Proof.
  intros Hl Hx. destruct l as [|z l]; cbn [insertSorted];
    [constructor; exact Hx|].
  destruct (n_ltb n_zero (byDistance z x)); constructor;
    [exact Hx | inversion Hl; assumption].
Qed.

Lemma insertSorted_ordered (x : Hit num) (l : list (Hit num)) :
  comparable x -> Forall comparable l -> Sorted closer l ->
  Sorted closer (insertSorted (@byDistance num N) x l).
Proof.
  intros Hx. induction l as [|y l IH]; intros Hp Hs; cbn [insertSorted].
  - repeat constructor.
  - inversion Hp as [|? ? Hy Hp']; subst.
    inversion Hs as [|? ? Hs' Hhd]; subst.
    unfold byDistance at 1. rewrite (difference_sign Hy Hx).
    destruct (hit_distance y <=? hit_distance x) eqn:E; cbn [negb].
    + constructor; [apply IH; assumption|].
      apply insertSorted_head; [exact Hhd|]. auto.
    + constructor; [exact Hs|]. constructor.
      split; [exact Hx|]. split; [exact Hy|].
      apply order_total; assumption.
Qed.

Lemma arraySort_ordered (l : list (Hit num)) :
  Forall comparable l ->
  Sorted closer (arraySort (@byDistance num N) l).
Proof.
  unfold arraySort. intros Hl.
  assert (G : forall acc, Forall comparable acc -> Sorted closer acc ->
              Sorted closer
                (fold_left (fun sorted x =>
                              insertSorted (@byDistance num N) x sorted)
                           l acc)).
  { induction Hl as [|x l Hx Hl IH]; intros acc Ha Hs; simpl; [exact Hs|].
    apply IH.
    - eapply Permutation_Forall;
        [apply Permutation_sym, insertSorted_perm|].
      constructor; assumption.
    - apply insertSorted_ordered; assumption. }
  apply G; constructor.
Qed.

Lemma StronglySorted_weaken {A : Type} (R R' : A -> A -> Prop)
  (l : list A) :
  (forall a b, R a b -> R' a b) ->
  StronglySorted R l -> StronglySorted R' l.
Proof.
  intros HR. induction 1 as [|a l Hs IH Hall]; constructor; [exact IH|].
  eapply Forall_impl; [|exact Hall]. intros b. apply HR.
Qed.

(** The sort leaves no hit before one with a smaller distance. *)
Lemma arraySort_nondecreasing (l : list (Hit num)) :
  Forall comparable l ->
  StronglySorted
    (fun a b : Hit num => (hit_distance a <=? hit_distance b) = true)
    (arraySort (@byDistance num N) l).
Proof.
  intros Hl.
  apply StronglySorted_weaken with (R := closer);
    [intros a b (_ & _ & H); exact H|].
  apply Sorted_StronglySorted; [|apply arraySort_ordered; exact Hl].
  intros a b c (Ha & Hb & Hab) (_ & Hc & Hbc).
  split; [exact Ha|]. split; [exact Hc|].
  eapply order_trans with (b := hit_distance b); assumption.
Qed.

End SortLaws.

Module RecordedOrder.

Import Float64.

(** On binary64 numbers the distances of the hits are neither [NaN] nor
    negative, and such numbers are ordered. *)
Lemma float_hits_ordered
  {PT : PolygonTest float} {RB : @RBush float number}
  (P : Coordinate float) (t : float) (d : Detector float) :
  StronglySorted
    (fun a b : Hit float => n_leb (hit_distance a) (hit_distance b) = true)
    (detectHits P t d).
Proof.
  unfold detectHits.
  apply (@arraySort_nondecreasing float number
           (fun x => PrimFloat.leb x x = true
                     /\ PrimFloat.ltb x 0%float = false)).
  - intros y x [Hy Hy'] [Hx Hx'].
    apply Float64Order.float_sub_positive; assumption.
  - intros a b [Ha _] [Hb _]. apply Float64Order.float_leb_total; assumption.
  - intros a b c [_ Ha] [_ Hb] [_ Hc].
    apply Float64Order.float_leb_trans; assumption.
  - destruct (scanned_spec P t d) as (_ & Hfrom & _).
    eapply Forall_impl; [|exact Hfrom].
    intros h (c & _ & _ & Hd & Hle). split.
    + eapply Float64Order.float_leb_refl_l. exact Hle.
    + rewrite <- Hd.
      apply (@candidateDistance_sign float number PT
               Float64Signs.sqrt_sign Float64Signs.min_sign
               eq_refl eq_refl).
Qed.

End RecordedOrder.

Section RecordedOrderClaim.

Local Existing Instance Float64.number.
Local Existing Instance Exact.number.

(** C6 (as amended): the hits of a query come out in the order of the
    distances they record, smallest first, on binary64 numbers as on exact
    ones: the result is the sequence of the features of the hits; every
    hit records the distance of the first candidate item of its feature
    that is within tolerance, in the order the index returned the
    candidates; and no hit records a larger distance than a hit after
    it. *)
Theorem detect_sorted_by_recorded_distance :
  (forall (PT : PolygonTest float) (RB : @RBush float Float64.number)
          (P : Coordinate float) (t : float) (d : Detector float),
      detectFeaturesAtCoordinate P t d
      = map (@hit_feature float) (detectHits P t d) /\
      Forall (firstCandidate P t (rb_search (tree d) (queryBox P t)))
             (detectHits P t d) /\
      StronglySorted
        (fun a b => n_leb (hit_distance a) (hit_distance b) = true)
        (detectHits P t d)) /\
  (forall (PT : PolygonTest Exact.xreal)
          (RB : @RBush Exact.xreal Exact.number)
          (P : Coordinate Exact.xreal) (t : Exact.xreal)
          (d : Detector Exact.xreal),
      detectFeaturesAtCoordinate P t d
      = map (@hit_feature Exact.xreal) (detectHits P t d) /\
      Forall (firstCandidate P t (rb_search (tree d) (queryBox P t)))
             (detectHits P t d) /\
      StronglySorted
        (fun a b => n_leb (hit_distance a) (hit_distance b) = true)
        (detectHits P t d)).
Proof.
  split; intros PT RB P t d.
  - split; [reflexivity|]. split; [apply detectHits_first|].
    apply RecordedOrder.float_hits_ordered.
  - split; [reflexivity|]. split; [apply detectHits_first|].
    apply ToleranceFacts.detectHits_sorted.
Qed.

End RecordedOrderClaim.

Section RecordedOrderRuns.

Import Float64 Sample.
Local Existing Instance linearSearch.
Local Existing Instance exteriorRingTest.
Local Open Scope float_scope.

(** The distance a hit records is not always the distance of its feature:
    the query at [(4, 0.5)] with tolerance [1] lies on the second segment
    of the bent line, so the line is at distance [0]; the first candidate
    of the line is its first segment, at [0.5], which is what the hit
    records, and the point at [0.25] comes before the line. *)
Lemma first_hit_not_nearest :
  let point := mkFeature 5 (Some (Point (4, 0.25))) in
  let d := detectorOf [bentLine; point] in
  detectHits (4, 0.5) 1 d = [mkHit point 0.25; mkHit bentLine 0.5] /\
  detectFeaturesAtCoordinate (4, 0.5) 1 d = [point; bentLine] /\
  getDistanceToFeature (4, 0.5) point = 0.25 /\
  getDistanceToFeature (4, 0.5) bentLine = 0 /\
  getDistanceToSegment (4, 0.5) (4, 0) (4, 3) = 0.
Proof. vm_compute. repeat split; reflexivity. Qed.

End RecordedOrderRuns.

(** ** The distance to a segment, exact and rounded *)

Module SegmentClaim.

Import Float64 Float64Facts.
Local Open Scope float_scope.

Lemma getDistanceToSegment_not_below_zero (p a b : Coordinate float) :
  (getDistanceToSegment p a b <? 0) = false.
Proof.
  unfold getDistanceToSegment.
  destruct (_ && _)%bool; apply Float64Signs.sqrt_sign.
Qed.

Lemma getDistanceToSegment_same_ends (p a : Coordinate float) :
  PrimFloat.is_finite (fst a) = true ->
  PrimFloat.is_finite (snd a) = true ->
  getDistanceToSegment p a a = getDistanceToPoint p a.
Proof.
  intros Hx Hy. unfold getDistanceToSegment, getDistanceToPoint.
  cbn [n_sub n_eqb n_zero number].
  rewrite (sub_diag _ Hx), (sub_diag _ Hy). reflexivity.
Qed.

End SegmentClaim.

Section SegmentClaims.

Local Existing Instance Float64.number.
Local Existing Instance Exact.number.

(** C7 (as amended): on exact numbers, the distance
    [getDistanceToSegment] returns for the query point [p] and the segment
    from [a] to [b] is the Euclidean distance from [p] to its projection
    on the line through [a] and [b] with the parameter clamped to
    [[0,1]], and the distance from [p] to [a] when [a = b]. On binary64
    numbers, where every operation of the same formula rounds, the
    distance is never below [0], and for a segment whose two ends are the
    same finite coordinate it is the distance [getDistanceToPoint]
    computes for [p] and that coordinate. *)
Theorem getDistanceToSegment_exact_and_rounded :
  (forall p a b : R * R,
      getDistanceToSegment (SegmentSpec.exact p) (SegmentSpec.exact a)
                           (SegmentSpec.exact b)
      = Exact.Finite (SegmentSpec.segmentDistance p a b)) /\
  (forall p a b : Coordinate float,
      n_ltb (getDistanceToSegment p a b) 0%float = false /\
      (PrimFloat.is_finite (fst a) = true ->
       PrimFloat.is_finite (snd a) = true ->
       getDistanceToSegment p a a = getDistanceToPoint p a)).
Proof.
  split.
  - apply LineFacts.getDistanceToSegment_exact.
  - intros p a b. split.
    + apply SegmentClaim.getDistanceToSegment_not_below_zero.
    + apply SegmentClaim.getDistanceToSegment_same_ends.
Qed.

End SegmentClaims.

Section SegmentClaimRuns.

Import Float64 SegmentSpec.
Local Open Scope float_scope.

(** On binary64 numbers the distance is not always the distance to the
    clamped projection. From [(0, 1)] to the segment from [(0, 0)] to
    [(2^-1074, 0)] it is [NaN]: the squared length of the segment
    underflows to [0], and the projection parameter is [0 / 0]. And
    [(1, 1)] lies on the segment from [(0, 0)] to [(49, 49)], at distance
    [0], but the projection is computed at
    [0.9999999999999999], and the distance is above [0]. *)
Lemma segment_distance_rounded :
  getDistanceToSegment (0, 1) (0, 0) (0x1p-1074, 0) = nan /\
  (0 <? getDistanceToSegment (1, 1) (0, 0) (49, 49)) = true /\
  segmentDistance (1, 1)%R (0, 0)%R (49, 49)%R = 0%R.
Proof.
  split; [vm_compute; reflexivity|]. split; [vm_compute; reflexivity|].
  apply Rle_antisym; [|apply LineFacts.segmentDistance_nonneg].
  eapply Rle_trans;
    [apply (@ExactFacts.segmentDistance_least (1, 1)%R (0, 0)%R (49, 49)%R
              (/ 49)%R);
     lra|].
  unfold euclidean, pointAt. cbn [fst snd].
  replace ((1 - (0 + / 49 * (49 - 0))) * (1 - (0 + / 49 * (49 - 0)))
           + (1 - (0 + / 49 * (49 - 0))) * (1 - (0 + / 49 * (49 - 0))))%R
    with 0%R by field.
  rewrite sqrt_0. lra.
Qed.

End SegmentClaimRuns.

(** ** Point features, computed and exact distances *)

Module PointClaim.

Import Float64 Float64Facts.
Local Open Scope float_scope.

Section Containment.

Context {PT : PolygonTest float} {RB : @RBush float number}.

Variables (fs : list (Feature float)) (d d' : Detector float).
Variables (f : Feature float) (C : Coordinate float).
Hypothesis Hupdate : updateFeatures fs d = Normal d'.
Hypothesis Hdistinct : distinctObjects fs.
Hypothesis Hin : In f fs.
Hypothesis Hpoint : getGeometry f = Some (Point C).

(** The point feature is returned exactly when its box meets the query
    box and the distance computed for it is within tolerance. *)
Lemma point_returned (P : Coordinate float) (t : float) :
  In f (detectFeaturesAtCoordinate P t d') <->
  intersects (queryBox P t) (extentItem f (getExtent (Point C))) = true /\
  (getDistanceToPoint P C <=? t) = true.
Proof.
  split.
  - intros H.
    destruct (@feature_hit _ _ _ _ fs d d' f Hupdate P t H)
      as (h & item & Hh & Hf & Hi & Hb & Hd & Hle).
    rewrite (@point_items _ _ f C Hpoint) in Hi.
    destruct Hi as [<- | []]. split; [exact Hb|].
    rewrite <- Hd in Hle.
    rewrite candidateDistance_extentItem,
      (getDistanceToFeature_point _ _ Hpoint) in Hle.
    exact Hle.
  - intros [Hb Hle].
    pose proof (@point_found _ _ _ _ fs d d' f C Hupdate Hdistinct Hin
                  Hpoint P t Hb Hle) as Hh.
    unfold detectFeaturesAtCoordinate.
    change f with (hit_feature (mkHit f (getDistanceToPoint P C))).
    apply in_map. exact Hh.
Qed.

Lemma point_recorded (P : Coordinate float) (t : float) (h : Hit float) :
  In h (detectHits P t d') -> hit_feature h = f ->
  hit_distance h = getDistanceToPoint P C.
Proof.
  intros Hh Hf.
  destruct (@point_hit _ _ _ _ fs d d' f C Hupdate Hdistinct Hin Hpoint
              P t h Hh) as (_ & Hd & _); [rewrite Hf; reflexivity|].
  exact Hd.
Qed.

Lemma point_at_own_coordinate :
  PrimFloat.is_finite (fst C) = true ->
  PrimFloat.is_finite (snd C) = true ->
  In (mkHit f 0) (detectHits C 0 d').
Proof.
  destruct C as [x y]. cbn [fst snd]. intros Hx Hy.
  assert (Hdist : getDistanceToPoint (x, y) (x, y) = 0).
  { unfold getDistanceToPoint. cbn [fst snd n_sub n_add n_mul n_sqrt number].
    rewrite (sub_diag x Hx), (sub_diag y Hy). reflexivity. }
  rewrite <- Hdist at 1.
  apply (@point_found _ _ _ _ fs d d' f (x, y) Hupdate Hdistinct Hin Hpoint
           (x, y) 0).
  - unfold intersects, queryBox, extentItem, getExtent.
    cbn [minX minY maxX maxY box_minX box_minY box_maxX box_maxY fst snd
         ext_minX ext_minY ext_maxX ext_maxY n_leb n_add n_sub number].
    rewrite (leb_add_zero x Hx), (leb_add_zero y Hy),
      (leb_sub_zero x Hx), (leb_sub_zero y Hy). reflexivity.
  - rewrite Hdist. reflexivity.
Qed.

End Containment.

End PointClaim.

Module ExactPointClaim.

Import Exact SegmentSpec ExactFacts.
Local Open Scope R_scope.

Section Containment.

Context {PT : PolygonTest xreal} {RB : @RBush xreal number}.

Variables (fs : list (Feature xreal)) (d d' : Detector xreal).
Variables (f : Feature xreal) (C : R * R).
Hypothesis Hupdate : updateFeatures fs d = Normal d'.
Hypothesis Hdistinct : distinctObjects fs.
Hypothesis Hin : In f fs.
Hypothesis Hpoint : getGeometry f = Some (Point (exact C)).

(** On exact numbers the computed distance is the Euclidean one, and
    within tolerance the box of the point meets the query box. *)
Lemma point_returned_exact (P : R * R) (t : R) :
  In f (detectFeaturesAtCoordinate (exact P) (Finite t) d')
  <-> euclidean P C <= t.
Proof.
  split.
  - intros H. unfold detectFeaturesAtCoordinate in H.
    apply in_map_iff in H as (h & Hf & Hh).
    destruct (@point_hit _ _ _ _ fs d d' f (exact C) Hupdate Hdistinct Hin
                Hpoint (exact P) (Finite t) h Hh) as (_ & _ & Hle);
      [rewrite Hf; reflexivity|].
    rewrite getDistanceToPoint_exact in Hle. apply Rleb_le. exact Hle.
  - intros He. unfold detectFeaturesAtCoordinate.
    change f with (hit_feature (mkHit f (Finite (euclidean P C)))).
    apply in_map. rewrite <- getDistanceToPoint_exact.
    apply (@point_found _ _ _ _ fs d d' f (exact C) Hupdate Hdistinct Hin
             Hpoint).
    + destruct (euclidean_bounds P C He) as (H1 & H2 & H3 & H4).
      unfold intersects, queryBox, exact. simpl.
      rdec; try reflexivity; lra.
    + rewrite getDistanceToPoint_exact. simpl. rdec; [reflexivity | lra].
Qed.

Lemma point_at_own_coordinate_exact :
  In (mkHit f (Finite 0)) (detectHits (exact C) (Finite 0) d').
Proof.
  assert (Hzero : euclidean C C = 0).
  { unfold euclidean.
    replace ((fst C - fst C) * (fst C - fst C)
             + (snd C - snd C) * (snd C - snd C)) with 0 by ring.
    apply sqrt_0. }
  rewrite <- Hzero at 1. rewrite <- getDistanceToPoint_exact.
  apply (@point_found _ _ _ _ fs d d' f (exact C) Hupdate Hdistinct Hin
           Hpoint).
  - unfold intersects, queryBox, exact. simpl.
    rdec; try reflexivity; lra.
  - rewrite getDistanceToPoint_exact, Hzero. simpl.
    rdec; [reflexivity | lra].
Qed.

End Containment.

End ExactPointClaim.

Section PointClaims.

Local Existing Instance Float64.number.
Local Existing Instance Exact.number.

(** C4 (as amended): an indexed point feature at [C] is returned by a
    query at [P] with tolerance [t] exactly when the box of the point
    meets the query box and the distance the detector computes for it,
    [getDistanceToPoint P C], is at most [t], both evaluated on binary64
    numbers; a hit on the feature records that computed distance; and at
    a finite [C] itself with tolerance [0] the feature is returned, with
    distance exactly [0]. On exact numbers the feature is returned exactly
    when the Euclidean distance from [P] to [C] is at most [t], and at
    [C] itself with tolerance [0] it is returned with distance [0]. *)
Theorem point_within_computed_distance :
  (forall (PT : PolygonTest float) (RB : @RBush float Float64.number)
          (fs : list (Feature float)) (d d' : Detector float)
          (f : Feature float) (C P : Coordinate float) (t : float),
      updateFeatures fs d = Normal d' ->
      distinctObjects fs ->
      In f fs ->
      getGeometry f = Some (Point C) ->
      (In f (detectFeaturesAtCoordinate P t d')
       <-> intersects (queryBox P t) (extentItem f (getExtent (Point C)))
           = true /\
           n_leb (getDistanceToPoint P C) t = true) /\
      (forall h, In h (detectHits P t d') -> hit_feature h = f ->
                 hit_distance h = getDistanceToPoint P C) /\
      (PrimFloat.is_finite (fst C) = true ->
       PrimFloat.is_finite (snd C) = true ->
       In (mkHit f 0%float) (detectHits C 0%float d') /\
       In f (detectFeaturesAtCoordinate C 0%float d'))) /\
  (forall (PT : PolygonTest Exact.xreal)
          (RB : @RBush Exact.xreal Exact.number)
          (fs : list (Feature Exact.xreal)) (d d' : Detector Exact.xreal)
          (f : Feature Exact.xreal) (C P : R * R) (t : R),
      updateFeatures fs d = Normal d' ->
      distinctObjects fs ->
      In f fs ->
      getGeometry f = Some (Point (SegmentSpec.exact C)) ->
      (In f (detectFeaturesAtCoordinate (SegmentSpec.exact P)
               (Exact.Finite t) d')
       <-> (SegmentSpec.euclidean P C <= t)%R) /\
      In (mkHit f (Exact.Finite 0))
         (detectHits (SegmentSpec.exact C) (Exact.Finite 0) d') /\
      In f (detectFeaturesAtCoordinate (SegmentSpec.exact C)
              (Exact.Finite 0) d')).
Proof.
  split.
  - intros PT RB fs d d' f C P t Hup Hd Hin Hg.
    split; [eapply PointClaim.point_returned; eassumption|].
    split; [intros h; eapply PointClaim.point_recorded; eassumption|].
    intros Hx Hy.
    assert (Hh : In (mkHit f 0%float) (detectHits C 0%float d'))
      by (eapply PointClaim.point_at_own_coordinate; eassumption).
    split; [exact Hh|].
    unfold detectFeaturesAtCoordinate.
    change f with (hit_feature (mkHit f 0%float)). apply in_map. exact Hh.
  - intros PT RB fs d d' f C P t Hup Hd Hin Hg.
    split; [eapply ExactPointClaim.point_returned_exact; eassumption|].
    assert (Hh : In (mkHit f (Exact.Finite 0))
                    (detectHits (SegmentSpec.exact C) (Exact.Finite 0) d'))
      by (eapply ExactPointClaim.point_at_own_coordinate_exact; eassumption).
    split; [exact Hh|].
    unfold detectFeaturesAtCoordinate.
    change f with (hit_feature (mkHit f (Exact.Finite 0))). apply in_map.
    exact Hh.
Qed.

End PointClaims.

Section PointClaimRuns.

Import Float64 Sample SegmentSpec Float64Value.
Local Existing Instance Exact.number.
Local Existing Instance linearSearch.
Local Existing Instance exteriorRingTest.
Local Open Scope float_scope.

Lemma point_within_computed_distance_witness :
  ((In pointFeature
       (detectFeaturesAtCoordinate (3, 4) 5 (detectorOf [pointFeature]))
    <-> intersects (queryBox (3, 4) 5)
          (extentItem pointFeature (getExtent (Point (0, 0)))) = true /\
        n_leb (getDistanceToPoint (3, 4) (0, 0)) 5 = true) /\
   (forall h,
       In h (detectHits (3, 4) 5 (detectorOf [pointFeature])) ->
       hit_feature h = pointFeature ->
       hit_distance h = getDistanceToPoint (3, 4) (0, 0)) /\
   (PrimFloat.is_finite 0 = true ->
    PrimFloat.is_finite 0 = true ->
    In (mkHit pointFeature 0)
       (detectHits (0, 0) 0 (detectorOf [pointFeature])) /\
    In pointFeature
       (detectFeaturesAtCoordinate (0, 0) 0 (detectorOf [pointFeature])))) /\
  ((In ExactSample.origin
       (detectFeaturesAtCoordinate (exact (0, 1 / 2)%R) (Exact.Finite 1)
          ExactSample.originDetector)
    <-> (euclidean (0, 1 / 2) (0, 0) <= 1)%R) /\
   In (mkHit ExactSample.origin (Exact.Finite 0))
      (detectHits (exact (0, 0)%R) (Exact.Finite 0)
         ExactSample.originDetector) /\
   In ExactSample.origin
      (detectFeaturesAtCoordinate (exact (0, 0)%R) (Exact.Finite 0)
         ExactSample.originDetector)).
Proof.
  destruct point_within_computed_distance as [Hfloat Hexact]. split.
  - apply (Hfloat _ _ [pointFeature] emptyDetector (detectorOf [pointFeature])
             pointFeature (0, 0) (3, 4) 5).
    + reflexivity.
    + intros f g [<- | []] [<- | []] _. reflexivity.
    + left. reflexivity.
    + reflexivity.
  - apply (Hexact _ _ [ExactSample.origin] ExactSample.emptyDetector
             ExactSample.originDetector ExactSample.origin
             (0, 0)%R (0, 1 / 2)%R 1%R).
    + reflexivity.
    + intros f g [<- | []] [<- | []] _. reflexivity.
    + left. reflexivity.
    + reflexivity.
Defined.

(** On binary64 numbers the computed distance decides, not the Euclidean
    one. The query at [(3 + 2^-51, 4)] with tolerance [5] returns the
    point at the origin, with distance [5], although the point is farther
    than [5]: the sum of the squares rounds to [25]. And the query at
    [(2^600, 0)] with tolerance [2^1000] does not return it, although the
    point is within [2^1000]: the square of [2^600] is [Infinity]. *)
Lemma point_query_rounded :
  detectHits (0x1.8000000000001p+1, 4) 5 (detectorOf [pointFeature])
  = [mkHit pointFeature 5] /\
  (realOf 5 < euclidean (realOf 0x1.8000000000001p+1, realOf 4)
                        (realOf 0, realOf 0))%R /\
  detectFeaturesAtCoordinate (0x1p600, 0) 0x1p1000 (detectorOf [pointFeature])
  = [] /\
  (euclidean (realOf 0x1p600, realOf 0) (realOf 0, realOf 0)
   <= realOf 0x1p1000)%R.
Proof.
  split; [vm_compute; reflexivity|].
  split; [|split; [vm_compute; reflexivity|]].
  - unfold euclidean, realOf. cbn [fst snd].
    set (r5 := ratioOf 5). vm_compute in (value of r5).
    set (rx := ratioOf 0x1.8000000000001p+1). vm_compute in (value of rx).
    set (r4 := ratioOf 4). vm_compute in (value of r4).
    set (r0 := ratioOf 0). vm_compute in (value of r0).
    subst r5 rx r4 r0. cbn [fst snd].
    match goal with
    | |- (?a < R_sqrt.sqrt ((?x - _) * _ + (?y - _) * _))%R =>
        set (u := a); set (v := x); set (w := y);
        assert (Hu : u = 5%R) by (unfold u; lra);
        assert (Hv : (3 < v)%R) by (unfold v; lra);
        assert (Hw : w = 4%R) by (unfold w; lra);
        clearbody u v w
    end.
    subst u w.
    replace 5%R with (R_sqrt.sqrt (5 * 5)) by (rewrite sqrt_square; lra).
    apply sqrt_lt_1_alt. nra.
  - unfold euclidean, realOf. cbn [fst snd].
    set (rx := ratioOf 0x1p600). vm_compute in (value of rx).
    set (rt := ratioOf 0x1p1000). vm_compute in (value of rt).
    set (r0 := ratioOf 0). vm_compute in (value of r0).
    subst rx rt r0. cbn [fst snd].
    match goal with
    | |- (R_sqrt.sqrt ((?a / 1 - 0 / 1) * _ + _) <= ?b / 1)%R =>
        set (v := a); set (w := b);
        assert (Hv : (0 <= v <= w)%R) by (unfold v, w; lra);
        clearbody v w
    end.
    replace ((v / 1 - 0 / 1) * (v / 1 - 0 / 1)
             + (0 / 1 - 0 / 1) * (0 / 1 - 0 / 1))%R
      with (v * v)%R by field.
    rewrite sqrt_square; lra.
Qed.

End PointClaimRuns.
